(** * pogreb: the segment record codec and the engine's life cycle

    A shallow embedding of [segment.go] (record encoder, segment iterator)
    and of [db.go] ([Open], [Has], [Put], [HasOrPut], [Close]) of the
    key-only fork of pogreb, together with the properties the
    specification states about them.

    Unsigned machine integers are integers in [Z] with the wrap-around
    written out, byte slices are lists of bytes, and a Go function that
    updates its receiver returns the updated value. [DB.mu] serialises the
    calls that write, so each operation is embedded as one uninterrupted
    call. *)

From Stdlib Require Import ZArith Lia Bool String.
From Stdlib Require Import Init.Byte Strings.Byte.
From stdpp Require Import base tactics option list numbers.

Local Open Scope Z_scope.

(** ** Machine integers and bytes *)

Definition uint16 (z : Z) : Z := z mod 2 ^ 16.
Definition uint32 (z : Z) : Z := z mod 2 ^ 32.

Definition byte_to_Z (b : byte) : Z := Z.of_N (Byte.to_N b).

(** Go's conversion [byte(v)] of an unsigned integer: the low eight bits. *)
Definition byte_of_Z (z : Z) : byte :=
  match Byte.of_N (Z.to_N (z mod 256)) with
  | Some b => b
  | None => x00
  end.

(** [len(s)] as a Go [int]. *)
Definition len (s : list byte) : Z := Z.of_nat (length s).

(** ** encoding/binary, little endian *)

(** The builtin [copy(dst, src)]: the first [min(len dst, len src)] bytes of
    [dst] are overwritten. *)
Definition copy (dst src : list byte) : list byte :=
  take (length dst) src ++ drop (length src) dst.

Module LittleEndian.

Definition PutUint16 (b : list byte) (v : Z) : list byte :=
  copy b [byte_of_Z v; byte_of_Z (Z.shiftr v 8)].

Definition PutUint32 (b : list byte) (v : Z) : list byte :=
  copy b [byte_of_Z v; byte_of_Z (Z.shiftr v 8);
          byte_of_Z (Z.shiftr v 16); byte_of_Z (Z.shiftr v 24)].

Definition Uint16 (b : list byte) : Z :=
  match b with
  | b0 :: b1 :: _ => Z.lor (byte_to_Z b0) (Z.shiftl (byte_to_Z b1) 8)
  | _ => 0
  end.

Definition Uint32 (b : list byte) : Z :=
  match b with
  | b0 :: b1 :: b2 :: b3 :: _ =>
      Z.lor (Z.lor (Z.lor (byte_to_Z b0) (Z.shiftl (byte_to_Z b1) 8))
                   (Z.shiftl (byte_to_Z b2) 16))
            (Z.shiftl (byte_to_Z b3) 24)
  | _ => 0
  end.

End LittleEndian.

(** ** hash/crc32, IEEE polynomial

    The table-driven byte-at-a-time algorithm of Go's [hash/crc32]
    ([simplePopulateTable] and [simpleUpdate]); the faster implementations
    the package may select compute the same function. *)

Module crc32.

Definition IEEE : Z := 0xedb88320.

Definition bit_step (crc : Z) : Z :=
  if Z.testbit crc 0 then Z.lxor (Z.shiftr crc 1) IEEE else Z.shiftr crc 1.

(** [t[i]] of [simplePopulateTable]: eight bit steps from [uint32(i)]. *)
Definition table (i : Z) : Z := Nat.iter 8 bit_step i.

Definition not32 (crc : Z) : Z := Z.lxor crc 0xffffffff.

Definition update_byte (crc : Z) (v : byte) : Z :=
  Z.lxor (table (Z.lxor (crc mod 256) (byte_to_Z v))) (Z.shiftr crc 8).

Definition simpleUpdate (crc : Z) (p : list byte) : Z :=
  not32 (fold_left update_byte p (not32 crc)).

Definition ChecksumIEEE (data : list byte) : Z := simpleUpdate 0 data.

End crc32.

(** ** Errors *)

Inductive error : Type :=
| ErrIterationDone
| errKeyTooLarge
| errFull
| errCorrupted
| errLocked
| errBusy
| io_EOF
| io_ErrUnexpectedEOF
| os_ErrExist
| os_ErrNotExist
| Wrap (e : error) (msg : string)
| IOError (msg : string).

Inductive result (A : Type) : Type :=
| Ok (a : A)
| Err (e : error).
Arguments Ok {A} a.
Arguments Err {A} e.

(** ** io.ReadFull on a buffered reader

    A reader over a file is the list of the file's bytes not yet consumed;
    the end of the list is end of file. [ReadFull r buf] is
    [io.ReadFull(r, buf)]: the error, the contents of [buf] afterwards and
    the reader afterwards. It fills [buf], or fails with [io.EOF] when no
    byte is left and with [io.ErrUnexpectedEOF] when some but too few
    are. *)

Definition Reader : Type := list byte.

Definition ReadFull (r : Reader) (buf : list byte)
    : option error * list byte * Reader :=
  match buf with
  | [] => (None, buf, r)
  | _ :: _ =>
      match r with
      | [] => (Some io_EOF, buf, r)
      | _ :: _ =>
          if (length r <? length buf)%nat
          then (Some io_ErrUnexpectedEOF, copy buf r, [])
          else (None, take (length buf) r, drop (length buf) r)
      end
  end.

(** ** segment.go *)

Record record : Type := mkRecord {
  rec_segmentID : Z;
  rec_offset : Z;
  rec_data : list byte;
  rec_key : list byte
}.

Definition encodedRecordSize (kvSize : Z) : Z := uint32 (2 + kvSize + 4).

(** [data[lo:hi]] rewritten in place by [f]. *)
Definition with_slice (data : list byte) (lo hi : nat)
    (f : list byte -> list byte) : list byte :=
  take lo data ++ f (take (hi - lo) (drop lo data)) ++ drop hi data.

Definition encodePutRecord (key : list byte) : list byte :=
  let size := Z.to_nat (encodedRecordSize (uint32 (len key))) in
  let data := replicate size x00 in
  let data := with_slice data 0 2
                (fun s => LittleEndian.PutUint16 s (uint16 (len key))) in
  let data := with_slice data 2 size (fun s => copy s key) in
  let checksum := crc32.ChecksumIEEE (take (2 + length key) data) in
  with_slice data (size - 4) size
    (fun s => LittleEndian.PutUint32 s checksum).

(** The open segment file: its physical identifier and its bytes, header
    included. *)
Record segment : Type := mkSegment {
  seg_id : Z;
  seg_bytes : list byte
}.

Record segmentIterator : Type := mkSegmentIterator {
  it_f : segment;
  it_offset : Z;
  it_r : Reader;
  it_buf : list byte   (** key size and crc32 reusable buffer *)
}.

(** [f.Seek(offset, io.SeekStart)]: the new position; a negative position
    is refused. *)
Definition Seek (f : segment) (offset : Z) : result Z :=
  if offset <? 0 then Err (IOError "seek: invalid argument") else Ok offset.

Section Segment.

(** [headerSize] is declared with the file header, in a file that is not
    part of this development: the size in bytes of the fixed header every
    segment file starts with. *)
Variable headerSize : Z.

Definition newSegmentIterator (f : segment) : result segmentIterator :=
  match Seek f headerSize with
  | Err e => Err e
  | Ok pos =>
      Ok {| it_f := f;
            it_offset := uint32 headerSize;
            it_r := drop (Z.to_nat pos) (seg_bytes f);
            it_buf := replicate 6 x00 |}
  end.

End Segment.

Definition set_reader (it : segmentIterator) (r : Reader) (buf : list byte)
    : segmentIterator :=
  {| it_f := it_f it; it_offset := it_offset it; it_r := r; it_buf := buf |}.

(** The checksum verification and the construction of the record, the last
    part of [next], on the record bytes [data] read from the stream. *)
Definition finishRecord (it : segmentIterator) (keySize recordSize : Z)
    (data : list byte) : result record * segmentIterator :=
  let checksum := LittleEndian.Uint32 (drop (length data - 4) data) in
  if negb (checksum =? crc32.ChecksumIEEE (take (length data - 4) data))
  then (Err errCorrupted, it)
  else
    let offset := it_offset it in
    (Ok {| rec_segmentID := seg_id (it_f it);
           rec_offset := offset;
           rec_data := data;
           rec_key := take (Z.to_nat keySize) (drop 2 data) |},
     {| it_f := it_f it;
        it_offset := uint32 (it_offset it + recordSize);
        it_r := it_r it;
        it_buf := it_buf it |}).

Definition next (it : segmentIterator) : result record * segmentIterator :=
  let kvSizeBuf := it_buf it in
  match ReadFull (it_r it) kvSizeBuf with
  | (Some e, buf, r) =>
      match e with
      | io_EOF => (Err ErrIterationDone, set_reader it r buf)
      | _ => (Err e, set_reader it r buf)
      end
  | (None, kvSizeBuf, r) =>
      let keySize := uint32 (LittleEndian.Uint16 (take 2 kvSizeBuf)) in
      let recordSize := encodedRecordSize keySize in
      let data := replicate (Z.to_nat recordSize) x00 in
      let data := copy data kvSizeBuf in
      match ReadFull r (drop 2 data) with
      | (Some e, _, r') => (Err e, set_reader it r' kvSizeBuf)
      | (None, tail, r') =>
          let data := take 2 data ++ tail in
          finishRecord (set_reader it r' kvSizeBuf) keySize recordSize data
      end
  end.

(** ** Keys and slots *)

Definition MaxKeyLength : Z := 65535.
Definition MaxKeys : Z := 4294967295.

#[global] Instance byte_eq_dec : EqDecision byte := Byte.byte_eq_dec.

(** [bytes.Equal]. *)
Definition bytes_Equal (a b : list byte) : bool := bool_decide (a = b).

Record slot : Type := mkSlot {
  sl_hash : Z;
  sl_segmentID : Z;
  sl_keySize : Z;
  sl_offset : Z
}.

(** ** The datalog *)

(** Modelled from the spec: the datalog ([datalog.go]) is not part of this
    development. It is an ordered collection of segments with one writable
    segment, the last one. A segment is held as its record stream, the bytes
    from just past its header, and its physical identifier is its position
    in the collection. [dl_threshold] is the size, a 32-bit number, beyond
    which the writable segment is full. *)
Record datalog : Type := mkDatalog {
  dl_segments : list (list byte);
  dl_threshold : Z
}.

(** Modelled from the spec: [datalog.put] encodes the key as a record,
    appends it to the writable segment and returns its location; when the
    writable segment would exceed its threshold a new segment is rotated in
    first, and the store is full once the 16-bit physical identifiers are
    used up. *)
Definition datalog_put (dl : datalog) (key : list byte)
    : result (Z * Z * datalog) :=
  let data := encodePutRecord key in
  let segs := dl_segments dl in
  let rotate :=
    if Z.of_nat (length segs) <? 2 ^ 16
    then Ok (Z.of_nat (length segs), 0,
             {| dl_segments := segs ++ [data];
                dl_threshold := dl_threshold dl |})
    else Err errFull in
  match segs !! (length segs - 1)%nat with
  | Some cur =>
      if len cur + len data <=? uint32 (dl_threshold dl)
      then Ok (Z.of_nat (length segs) - 1, uint32 (len cur),
               {| dl_segments := <[(length segs - 1)%nat := cur ++ data]> segs;
                  dl_threshold := dl_threshold dl |})
      else rotate
  | None => rotate
  end.

(** Modelled from the spec: decoding one record laid out as
    key size (2 bytes, little endian), key bytes, CRC32 (4 bytes, little
    endian) of what precedes it, for a slot that declares [keySize]. *)
Definition decodeRecordAt (stream : list byte) (keySize : Z)
    : result (list byte) :=
  if (length stream <? 2)%nat then Err io_ErrUnexpectedEOF
  else if negb (LittleEndian.Uint16 (take 2 stream) =? keySize)
  then Err errCorrupted
  else if len stream <? 2 + keySize + 4 then Err io_ErrUnexpectedEOF
  else
    let data := take (Z.to_nat (2 + keySize + 4)) stream in
    let payload := take (Z.to_nat (2 + keySize)) data in
    let checksum := LittleEndian.Uint32 (drop (Z.to_nat (2 + keySize)) data) in
    if negb (checksum =? crc32.ChecksumIEEE payload) then Err errCorrupted
    else Ok (drop 2 payload).

(** Modelled from the spec: [datalog.readKey] seeks to the slot's offset in
    the segment the slot names, decodes exactly one record, verifies its
    checksum and returns the key; a slot naming no segment is a structural
    violation. *)
Definition datalog_readKey (dl : datalog) (sl : slot) : result (list byte) :=
  match dl_segments dl !! Z.to_nat (sl_segmentID sl) with
  | None => Err errCorrupted
  | Some seg =>
      decodeRecordAt (drop (Z.to_nat (sl_offset sl)) seg) (sl_keySize sl)
  end.

(** ** The index *)

(** Modelled from the spec: the index ([index.go]) is not part of this
    development. The slots are kept in insertion order; the candidates for a
    hash are the slots carrying it, in that order. *)
Record index : Type := mkIndex {
  ix_slots : list slot
}.

Section IndexWalk.

(** The state the equality callback closes over. *)
Context {S : Type}.
Variable resolve : slot -> S -> (bool * option error) * S.

(** Modelled from the spec: the candidate walk shared by [get] and [put].
    It calls [resolve] on each candidate once and stops at the first match
    or the first error; the result is the position of the matching slot,
    if any. *)
Fixpoint walk (hash : Z) (slots : list slot) (i : nat) (s : S)
    : (option nat * option error) * S :=
  match slots with
  | [] => ((None, None), s)
  | sl :: rest =>
      if sl_hash sl =? hash then
        match resolve sl s with
        | ((_, Some e), s') => ((None, Some e), s')
        | ((true, None), s') => ((Some i, None), s')
        | ((false, None), s') => walk hash rest (Datatypes.S i) s'
        end
      else walk hash rest (Datatypes.S i) s
  end.

(** Modelled from the spec: [index.get]. *)
Definition index_get (ix : index) (hash : Z) (s : S) : option error * S :=
  let '((_, err), s') := walk hash (ix_slots ix) 0 s in (err, s').

(** Modelled from the spec: [index.put] replaces the matching slot in
    place, or appends the new slot when no candidate matches; the index is
    full at [MaxKeys] slots. *)
Definition index_put (ix : index) (newSlot : slot) (s : S)
    : (index * option error) * S :=
  match walk (sl_hash newSlot) (ix_slots ix) 0 s with
  | ((_, Some e), s') => ((ix, Some e), s')
  | ((Some i, None), s') =>
      (({| ix_slots := <[i := newSlot]> (ix_slots ix) |}, None), s')
  | ((None, None), s') =>
      if Z.of_nat (length (ix_slots ix)) <? MaxKeys
      then (({| ix_slots := ix_slots ix ++ [newSlot] |}, None), s')
      else ((ix, Some errFull), s')
  end.

End IndexWalk.

(** Modelled from the spec: [index.count], the number of live slots. *)
Definition index_count (ix : index) : Z := Z.of_nat (length (ix_slots ix)).

(** ** db.go: the engine *)

Record Options : Type := mkOptions {
  BackgroundSyncInterval : Z;
  BackgroundCompactionInterval : Z
}.

Record Metrics : Type := mkMetrics {
  Puts : Z
}.

(** The handle of the advisory lock file. *)
Inductive LockFile : Type := mkLockFile (name : string).

Record DB : Type := mkDB {
  db_opts : Options;
  db_index : index;
  db_datalog : datalog;
  db_lock : LockFile;
  db_hashSeed : Z;
  db_metrics : Metrics;
  db_syncWrites : bool;
  (** whether [cancelBgWorker] is set, that is, the background worker runs *)
  db_cancelBgWorker : bool
}.

Record dbMeta : Type := mkDbMeta {
  HashSeed : Z
}.

Definition set_index (db : DB) (ix : index) : DB :=
  {| db_opts := db_opts db; db_index := ix; db_datalog := db_datalog db;
     db_lock := db_lock db; db_hashSeed := db_hashSeed db;
     db_metrics := db_metrics db; db_syncWrites := db_syncWrites db;
     db_cancelBgWorker := db_cancelBgWorker db |}.

Definition set_datalog (db : DB) (dl : datalog) : DB :=
  {| db_opts := db_opts db; db_index := db_index db; db_datalog := dl;
     db_lock := db_lock db; db_hashSeed := db_hashSeed db;
     db_metrics := db_metrics db; db_syncWrites := db_syncWrites db;
     db_cancelBgWorker := db_cancelBgWorker db |}.

Definition set_hashSeed (db : DB) (seed : Z) : DB :=
  {| db_opts := db_opts db; db_index := db_index db;
     db_datalog := db_datalog db;
     db_lock := db_lock db; db_hashSeed := seed;
     db_metrics := db_metrics db; db_syncWrites := db_syncWrites db;
     db_cancelBgWorker := db_cancelBgWorker db |}.

Definition set_metrics (db : DB) (m : Metrics) : DB :=
  {| db_opts := db_opts db; db_index := db_index db;
     db_datalog := db_datalog db;
     db_lock := db_lock db; db_hashSeed := db_hashSeed db;
     db_metrics := m; db_syncWrites := db_syncWrites db;
     db_cancelBgWorker := db_cancelBgWorker db |}.

Definition set_cancelBgWorker (db : DB) (b : bool) : DB :=
  {| db_opts := db_opts db; db_index := db_index db;
     db_datalog := db_datalog db;
     db_lock := db_lock db; db_hashSeed := db_hashSeed db;
     db_metrics := db_metrics db; db_syncWrites := db_syncWrites db;
     db_cancelBgWorker := b |}.

Section Operations.

(** The pluggable seeded 32-bit hash, [hash.Sum32WithSeed]. *)
Variable Sum32WithSeed : list byte -> Z -> Z.

(** The outcome of flushing the writable segment, [datalog.sync]. *)
Variable datalog_sync : datalog -> option error.

Definition DB_hash (db : DB) (data : list byte) : Z :=
  Sum32WithSeed data (db_hashSeed db).

(** The callback of [Has] and [HasOrPut]; the state is the captured
    variable [found]. *)
Definition matchKeyFound (dl : datalog) (key : list byte) (sl : slot)
    (found : bool) : (bool * option error) * bool :=
  if negb (uint16 (len key) =? sl_keySize sl) then ((false, None), found)
  else
    match datalog_readKey dl sl with
    | Err e => ((true, Some e), found)
    | Ok slKey =>
        if bytes_Equal key slKey then ((true, None), true)
        else ((false, None), found)
    end.

(** The callback of [DB.put]; it captures no variable it writes. *)
Definition matchKey (dl : datalog) (key : list byte) (cursl : slot)
    (s : unit) : (bool * option error) * unit :=
  if negb (uint16 (len key) =? sl_keySize cursl) then ((false, None), s)
  else
    match datalog_readKey dl cursl with
    | Err e => ((true, Some e), s)
    | Ok slKey =>
        if bytes_Equal key slKey then ((true, None), s)
        else ((false, None), s)
    end.

Definition Has (db : DB) (key : list byte) : bool * option error :=
  let h := DB_hash db key in
  let found := false in
  let '(err, found) :=
    index_get (matchKeyFound (db_datalog db) key) (db_index db) h found in
  match err with
  | Some e => (false, Some e)
  | None => (found, None)
  end.

Definition DB_put (db : DB) (sl : slot) (key : list byte)
    : DB * option error :=
  let '((ix, err), _) :=
    index_put (matchKey (db_datalog db) key) (db_index db) sl tt in
  (set_index db ix, err).

Definition DB_sync (db : DB) : option error :=
  datalog_sync (db_datalog db).

Definition HasOrPut (db : DB) (key : list byte)
    : DB * (bool * option error) :=
  if len key >? MaxKeyLength then (db, (false, Some errKeyTooLarge))
  else
    let found := false in
    let h := DB_hash db key in
    let '(err, found) :=
      index_get (matchKeyFound (db_datalog db) key) (db_index db) h found in
    match err with
    | Some e => (db, (false, Some e))
    | None =>
        if negb found then
          match datalog_put (db_datalog db) key with
          | Err e => (db, (false, Some e))
          | Ok (segID, offset, dl) =>
              let db := set_datalog db dl in
              let sl := {| sl_hash := h;
                           sl_segmentID := segID;
                           sl_keySize := uint16 (len key);
                           sl_offset := offset |} in
              match DB_put db sl key with
              | (db, Some e) => (db, (false, Some e))
              | (db, None) =>
                  if db_syncWrites db then (db, (found, DB_sync db))
                  else (db, (found, None))
              end
          end
        else (db, (found, None))
    end.

Definition Put (db : DB) (key : list byte) : DB * option error :=
  if len key >? MaxKeyLength then (db, Some errKeyTooLarge)
  else
    let h := DB_hash db key in
    let db := set_metrics db {| Puts := Puts (db_metrics db) + 1 |} in
    match datalog_put (db_datalog db) key with
    | Err e => (db, Some e)
    | Ok (segID, offset, dl) =>
        let db := set_datalog db dl in
        let sl := {| sl_hash := h;
                     sl_segmentID := segID;
                     sl_keySize := uint16 (len key);
                     sl_offset := offset |} in
        match DB_put db sl key with
        | (db, Some e) => (db, Some e)
        | (db, None) =>
            if db_syncWrites db then (db, DB_sync db) else (db, None)
        end
    end.

Definition Count (db : DB) : Z := index_count (db_index db).

End Operations.

(** ** db.go: opening and closing

    [Open] and [Close] act on the world outside the process (the file
    system, the advisory lock, the source of randomness) through
    collaborators defined elsewhere in the repository. They are taken as
    parameters: each is a function on the state [W] of that world. *)

Record Collaborators (W : Type) : Type := mkCollaborators {
  copyWithDefaults : option Options -> string -> Options;
  MkdirAll : string -> W -> option error * W;
  CreateLockFile : Options -> W -> result (LockFile * bool) * W;
  Unlock : LockFile -> W -> option error * W;
  backupNonsegmentFiles : W -> option error * W;
  openIndex : Options -> W -> result index * W;
  openDatalog : Options -> W -> result datalog * W;
  RandSeed : W -> result Z * W;
  readGobFile : W -> result dbMeta * W;
  writeGobFile : dbMeta -> W -> option error * W;
  DB_recover : DB -> W -> (DB * option error) * W;
  datalog_close : datalog -> W -> option error * W;
  index_close : index -> W -> option error * W
}.
Arguments copyWithDefaults {W} _.
Arguments MkdirAll {W} _.
Arguments CreateLockFile {W} _.
Arguments Unlock {W} _.
Arguments backupNonsegmentFiles {W} _.
Arguments openIndex {W} _.
Arguments openDatalog {W} _.
Arguments RandSeed {W} _.
Arguments readGobFile {W} _.
Arguments writeGobFile {W} _.
Arguments DB_recover {W} _.
Arguments datalog_close {W} _.
Arguments index_close {W} _.

(** The calls a run makes, in order. *)
Inductive Event : Type :=
| CallMkdirAll
| CallCreateLockFile
| CallUnlock (l : LockFile)
| CallBackupNonsegmentFiles
| CallOpenIndex
| CallOpenDatalog
| CallRandSeed
| CallReadGobFile
| CallWriteGobFile (m : dbMeta)
| CallRecover
| CallStartBackgroundWorker
| CallCancelBgWorker
| CallDatalogClose
| CallIndexClose.

(** The error a call returned, if any. *)
Class Outcome (A : Type) : Type := outcome : A -> option error.

#[global] Instance outcome_error : Outcome (option error) := fun r => r.

#[global] Instance outcome_result {A : Type} : Outcome (result A) :=
  fun r => match r with Ok _ => None | Err e => Some e end.

#[global] Instance outcome_pair {A : Type} : Outcome (A * option error) :=
  fun r => snd r.

(** The history of a run: the calls made, each with its outcome. *)
Definition History : Type := list (Event * option error).

(** A computation on the world that also records the calls it makes. *)
Definition M (W A : Type) : Type := W * History -> A * (W * History).

Definition ret {W A} (a : A) : M W A := fun st => (a, st).

Definition bind {W A B} (c : M W A) (k : A -> M W B) : M W B :=
  fun st => let '(a, st') := c st in k a st'.

Definition call {W A} `{Outcome A} (ev : Event) (op : W -> A * W) : M W A :=
  fun '(w, calls) =>
    let '(a, w') := op w in (a, (w', calls ++ [(ev, outcome a)])).

Definition note {W} (ev : Event) : M W unit :=
  fun '(w, calls) => (tt, (w, calls ++ [(ev, None)])).

Declare Scope engine_scope.
Delimit Scope engine_scope with engine.
Notation "'let*' x ':=' c 'in' k" := (bind c (fun x => k))
  (at level 10, x pattern, c at level 200, k at level 200) : engine_scope.

Section Lifecycle.

Context {W : Type}.
Variable env : Collaborators W.

Local Open Scope engine_scope.

Definition createLockFile (opts : Options)
    : M W (result (LockFile * bool)) :=
  call CallCreateLockFile (CreateLockFile env opts).

Definition writeMeta (db : DB) : M W (option error) :=
  let m := {| HashSeed := db_hashSeed db |} in
  call (CallWriteGobFile m) (writeGobFile env m).

Definition readMeta (db : DB) : M W (DB * option error) :=
  let* r := call CallReadGobFile (readGobFile env) in
  match r with
  | Err e => ret (db, Some e)
  | Ok m => ret (set_hashSeed db (HashSeed m), None)
  end.

Definition startBackgroundWorker (db : DB) : M W DB :=
  let* _ := note CallStartBackgroundWorker in
  ret (set_cancelBgWorker db true).

(** The part of [Open] that runs with the lock acquired. It returns what
    [Open] returns together with the value of the variable [clean] at the
    return: [Some lock] while it is [lock.Unlock], [None] once it is nil. *)
Definition Open_locked (opts : Options) (lock : LockFile)
    (acquiredExistingLock : bool) : M W (result DB * option LockFile) :=
  let clean := Some lock in
  let* r := (if acquiredExistingLock
             then call CallBackupNonsegmentFiles (backupNonsegmentFiles env)
             else ret None) in
  match r with
  | Some e => ret (Err e, clean)
  | None =>
  let* r := call CallOpenIndex (openIndex env opts) in
  match r with
  | Err e => ret (Err (Wrap e "opening index"), clean)
  | Ok index =>
  let* r := call CallOpenDatalog (openDatalog env opts) in
  match r with
  | Err e => ret (Err (Wrap e "opening datalog"), clean)
  | Ok datalog =>
  let db := {| db_opts := opts;
               db_index := index;
               db_datalog := datalog;
               db_lock := lock;
               db_hashSeed := 0;
               db_metrics := {| Puts := 0 |};
               db_syncWrites := BackgroundSyncInterval opts =? -1;
               db_cancelBgWorker := false |} in
  let* r := (if index_count index =? 0 then
               (* The index is empty, make a new hash seed. *)
               let* r := call CallRandSeed (RandSeed env) in
               match r with
               | Err e => ret (Err e)
               | Ok seed => ret (Ok (set_hashSeed db seed))
               end
             else
               let* r := readMeta db in
               match r with
               | (_, Some e) => ret (Err (Wrap e "reading db meta"))
               | (db, None) => ret (Ok db)
               end) in
  match r with
  | Err e => ret (Err e, clean)
  | Ok db =>
  let* r := (if acquiredExistingLock
             then call CallRecover (DB_recover env db)
             else ret (db, None)) in
  match r with
  | (_, Some e) => ret (Err (Wrap e "recovering"), clean)
  | (db, None) =>
  let* db := (if (BackgroundSyncInterval (db_opts db) >? 0)
                 || (BackgroundCompactionInterval (db_opts db) >? 0)
              then startBackgroundWorker db
              else ret db) in
  let clean := None in
  ret (Ok db, clean)
  end end end end end.

Definition Open (path : string) (opts : option Options) : M W (result DB) :=
  let opts := copyWithDefaults env opts path in
  let* r := call CallMkdirAll (MkdirAll env path) in
  match r with
  | Some e => ret (Err e)
  | None =>
  let* r := createLockFile opts in
  match r with
  | Err e =>
      let e := match e with os_ErrExist => errLocked | _ => e end in
      ret (Err (Wrap e "creating lock file"))
  | Ok (lock, acquiredExistingLock) =>
      let* (res, clean) := Open_locked opts lock acquiredExistingLock in
      (* the deferred function *)
      let* _ := match clean with
                | Some l =>
                    let* _ := call (CallUnlock l) (Unlock env l) in ret tt
                | None => ret tt
                end in
      ret res
  end end.

Definition Close (db : DB) : M W (option error) :=
  let* _ := (if db_cancelBgWorker db
             then note CallCancelBgWorker else ret tt) in
  let* r := writeMeta db in
  match r with
  | Some e => ret (Some e)
  | None =>
  let* r := call CallDatalogClose (datalog_close env (db_datalog db)) in
  match r with
  | Some e => ret (Some e)
  | None =>
  let* r := call CallIndexClose (index_close env (db_index db)) in
  match r with
  | Some e => ret (Some e)
  | None =>
  let* r := call (CallUnlock (db_lock db)) (Unlock env (db_lock db)) in
  match r with
  | Some e => ret (Some e)
  | None => ret None
  end end end end.

End Lifecycle.

(** ** A store directory

    Modelled from the spec: the file system, the advisory lock and the
    metadata file are collaborators that are not part of this development
    ([fs], [gobfile.go]). The directory
    holds the lock file, the metadata file with the persisted hash seed, the
    index file and the segment files; [d_faults] tells which operations
    fail, and [d_entropy] is what the random source will deliver. *)

Inductive LockState : Type :=
| LockAbsent    (** no lock file *)
| LockStale     (** left behind by a process that is gone *)
| LockHeld.     (** held by a live process *)

Inductive Op : Type :=
| OpMkdirAll | OpCreateLockFile | OpUnlock | OpBackup | OpOpenIndex
| OpOpenDatalog | OpRandSeed | OpReadGobFile | OpWriteGobFile
| OpDatalogClose | OpIndexClose.

Record Disk : Type := mkDisk {
  d_lock : LockState;
  d_meta : option dbMeta;
  d_index : index;
  d_datalog : datalog;
  d_backup : option (index * option dbMeta);
  d_entropy : list Z;
  d_faults : Op -> option error
}.

Definition faulty {A} (op : Op) (fail : error -> A) (run : Disk -> A * Disk)
    (d : Disk) : A * Disk :=
  match d_faults d op with
  | Some e => (fail e, d)
  | None => run d
  end.

Definition disk_set_lock (d : Disk) (l : LockState) : Disk :=
  {| d_lock := l; d_meta := d_meta d; d_index := d_index d;
     d_datalog := d_datalog d; d_backup := d_backup d;
     d_entropy := d_entropy d; d_faults := d_faults d |}.

Definition disk_set_meta (d : Disk) (m : option dbMeta) : Disk :=
  {| d_lock := d_lock d; d_meta := m; d_index := d_index d;
     d_datalog := d_datalog d; d_backup := d_backup d;
     d_entropy := d_entropy d; d_faults := d_faults d |}.

Definition disk_set_index (d : Disk) (ix : index) : Disk :=
  {| d_lock := d_lock d; d_meta := d_meta d; d_index := ix;
     d_datalog := d_datalog d; d_backup := d_backup d;
     d_entropy := d_entropy d; d_faults := d_faults d |}.

Definition disk_set_datalog (d : Disk) (dl : datalog) : Disk :=
  {| d_lock := d_lock d; d_meta := d_meta d; d_index := d_index d;
     d_datalog := dl; d_backup := d_backup d;
     d_entropy := d_entropy d; d_faults := d_faults d |}.

Definition disk_CreateLockFile (_ : Options)
    : Disk -> result (LockFile * bool) * Disk :=
  faulty OpCreateLockFile Err (fun d =>
    match d_lock d with
    | LockAbsent => (Ok (mkLockFile "lock", false), disk_set_lock d LockHeld)
    | LockStale => (Ok (mkLockFile "lock", true), disk_set_lock d LockHeld)
    | LockHeld => (Err os_ErrExist, d)
    end).

Definition disk_backupNonsegmentFiles : Disk -> option error * Disk :=
  faulty OpBackup Some (fun d =>
    (None,
     {| d_lock := d_lock d; d_meta := None; d_index := {| ix_slots := [] |};
        d_datalog := d_datalog d;
        d_backup := Some (d_index d, d_meta d);
        d_entropy := d_entropy d; d_faults := d_faults d |})).

Definition disk_RandSeed : Disk -> result Z * Disk :=
  faulty OpRandSeed Err (fun d =>
    match d_entropy d with
    | [] => (Err io_ErrUnexpectedEOF, d)
    | seed :: rest =>
        (Ok (uint32 seed),
         {| d_lock := d_lock d; d_meta := d_meta d; d_index := d_index d;
            d_datalog := d_datalog d; d_backup := d_backup d;
            d_entropy := rest; d_faults := d_faults d |})
    end).

Definition disk_readGobFile : Disk -> result dbMeta * Disk :=
  faulty OpReadGobFile Err (fun d =>
    match d_meta d with
    | Some m => (Ok m, d)
    | None => (Err os_ErrNotExist, d)
    end).

(** The collaborators over a [Disk]; the recovery procedure stays a
    parameter. *)
Definition disk_env (recover : DB -> Disk -> (DB * option error) * Disk)
    : Collaborators Disk :=
  {| copyWithDefaults := fun opts _ =>
       default {| BackgroundSyncInterval := 0;
                  BackgroundCompactionInterval := 0 |} opts;
     MkdirAll := fun _ => faulty OpMkdirAll Some (fun d => (None, d));
     CreateLockFile := disk_CreateLockFile;
     Unlock := fun _ =>
       faulty OpUnlock Some (fun d => (None, disk_set_lock d LockAbsent));
     backupNonsegmentFiles := disk_backupNonsegmentFiles;
     openIndex := fun _ =>
       faulty OpOpenIndex Err (fun d => (Ok (d_index d), d));
     openDatalog := fun _ =>
       faulty OpOpenDatalog Err (fun d => (Ok (d_datalog d), d));
     RandSeed := disk_RandSeed;
     readGobFile := disk_readGobFile;
     writeGobFile := fun m =>
       faulty OpWriteGobFile Some (fun d => (None, disk_set_meta d (Some m)));
     DB_recover := recover;
     datalog_close := fun dl =>
       faulty OpDatalogClose Some (fun d => (None, disk_set_datalog d dl));
     index_close := fun ix =>
       faulty OpIndexClose Some (fun d => (None, disk_set_index d ix)) |}.

(** ** Notions the properties are stated with *)

(** The two size bytes and the four checksum bytes of a record. *)
Definition sizeBytes (key : list byte) : list byte :=
  [byte_of_Z (len key); byte_of_Z (Z.shiftr (len key) 8)].

Definition crcBytes (payload : list byte) : list byte :=
  let c := crc32.ChecksumIEEE payload in
  [byte_of_Z c; byte_of_Z (Z.shiftr c 8);
   byte_of_Z (Z.shiftr c 16); byte_of_Z (Z.shiftr c 24)].

Definition below256 : list Z := map Z.of_nat (seq 0 256).

(** The key size the first two bytes of a stream declare (zero when there
    are fewer than two). *)
Definition declaredKeySize (r : Reader) : Z :=
  LittleEndian.Uint16 (take 2 r).

(** Bit [bit] of byte [i] of [data] inverted. *)
Definition flipBit (i : nat) (bit : Z) (data : list byte) : list byte :=
  alter (fun x => byte_of_Z (Z.lxor (byte_to_Z x) (Z.shiftl 1 bit))) i data.

(** [n] successive calls of [next], all of which produce a record. *)
Fixpoint nextN (n : nat) (it : segmentIterator)
    : result (list record) * segmentIterator :=
  match n with
  | O => (Ok [], it)
  | S n =>
      match next it with
      | (Err e, it') => (Err e, it')
      | (Ok rec, it') =>
          match nextN n it' with
          | (Err e, it'') => (Err e, it'')
          | (Ok recs, it'') => (Ok (rec :: recs), it'')
          end
      end
  end.

(** The bytes the records [recs] occupy. *)
Definition dataSize (recs : list record) : Z :=
  foldr (fun rec acc => len (rec_data rec) + acc) 0 recs.

(** An iterator on segment [f] at [offset] with [r] left to read. *)
Definition reader (f : segment) (offset : Z) (r : Reader) : segmentIterator :=
  {| it_f := f; it_offset := offset; it_r := r; it_buf := replicate 6 x00 |}.

(** A segment file: a header of [headerSize] bytes, then the records. *)
Definition segmentFile (headerSize id : Z) (records : list byte) : segment :=
  {| seg_id := id;
     seg_bytes := replicate (Z.to_nat headerSize) x00 ++ records |}.

(** A key whose record, written after the record of the empty key, makes
    the iterator accept what it reads at the start of the segment. *)
Definition longKey : list byte := xd9 :: x41 :: replicate 4861 x00.

(** What the callbacks of [Has], [HasOrPut] and [DB.put] answer on a slot. *)
Definition classify (dl : datalog) (key : list byte) (sl : slot)
    : bool * option error :=
  fst (matchKey dl key sl tt).

(** The cleanup steps of [Close], in order. *)
Definition closeSteps (db : DB) : list Event :=
  [CallWriteGobFile {| HashSeed := db_hashSeed db |};
   CallDatalogClose; CallIndexClose; CallUnlock (db_lock db)].

Definition isUnlock (c : Event * option error) : bool :=
  match fst c with
  | CallUnlock _ => true
  | _ => false
  end.

(** A seeded hash to run the engine with. *)
Definition crcHash (data : list byte) (seed : Z) : Z :=
  crc32.simpleUpdate (uint32 seed) data.

(** A store with no key: one empty segment, an empty index. *)
Definition emptyDB : DB :=
  {| db_opts := {| BackgroundSyncInterval := 0;
                   BackgroundCompactionInterval := 0 |};
     db_index := {| ix_slots := [] |};
     db_datalog := {| dl_segments := [[]]; dl_threshold := 4096 |};
     db_lock := mkLockFile "lock";
     db_hashSeed := 7;
     db_metrics := {| Puts := 0 |};
     db_syncWrites := false;
     db_cancelBgWorker := false |}.

(** The store after [Put "a"] and [Put "b"] on the empty store. *)
Definition storeAB : DB :=
  fst (Put crcHash (fun _ => None)
         (fst (Put crcHash (fun _ => None) emptyDB [x61])) [x62]).

(** A store directory that was never opened. *)
Definition freshDisk (entropy : list Z) (faults : Op -> option error) : Disk :=
  {| d_lock := LockAbsent;
     d_meta := None;
     d_index := {| ix_slots := [] |};
     d_datalog := {| dl_segments := [[]]; dl_threshold := 4096 |};
     d_backup := None;
     d_entropy := entropy;
     d_faults := faults |}.

Definition noFaults : Op -> option error := fun _ => None.

(** A recovery that finds nothing to repair. *)
Definition trivialRecover (db : DB) (d : Disk) : (DB * option error) * Disk :=
  ((db, None), d).

(** A store directory in use: the lock is held, and writing the metadata
    file fails. *)
Definition metaWriteFails : Op -> option error :=
  fun op =>
    match op with
    | OpWriteGobFile => Some (IOError "no space left on device")
    | _ => None
    end.

Definition indexOpenFails : Op -> option error :=
  fun op =>
    match op with
    | OpOpenIndex => Some (IOError "permission denied")
    | _ => None
    end.

Definition diskInUse (faults : Op -> option error) : Disk :=
  {| d_lock := LockHeld;
     d_meta := None;
     d_index := {| ix_slots := [] |};
     d_datalog := {| dl_segments := [[]]; dl_threshold := 4096 |};
     d_backup := None;
     d_entropy := [];
     d_faults := faults |}.

(** ** segment.go: file names

    A Go string is a sequence of bytes; file names are lists of bytes. *)

Definition segmentExt : list byte := list_byte_of_string ".psg".
Definition metaExt : list byte := list_byte_of_string ".pmt".
Definition dbMetaName : list byte := list_byte_of_string "db" ++ metaExt.
Definition lockName : list byte := list_byte_of_string "lock".

(** The character of a decimal digit. *)
Definition digit (d : Z) : byte := byte_of_Z (48 + d).

Fixpoint decimal_go (fuel : nat) (n : Z) (acc : list byte) : list byte :=
  match fuel with
  | O => acc
  | S fuel =>
      let acc := digit (n mod 10) :: acc in
      if n / 10 =? 0 then acc else decimal_go fuel (n / 10) acc
  end.

(** [%d] of an unsigned integer: its decimal digits. Twenty digits cover
    every [uint64]. *)
Definition decimal (n : Z) : list byte := decimal_go 20 n [].

(** [%05d]: the decimal digits, padded with zeros on the left to a width of
    five. *)
Definition decimal05 (n : Z) : list byte :=
  let s := decimal n in replicate (5 - length s) x30 ++ s.

(** [fmt.Sprintf("%05d-%d%s", id, sequenceID, segmentExt)] *)
Definition segmentName (id sequenceID : Z) : list byte :=
  decimal05 id ++ list_byte_of_string "-" ++ decimal sequenceID ++ segmentExt.

Definition segmentMetaName (id sequenceID : Z) : list byte :=
  segmentName id sequenceID ++ metaExt.

(** The number a string of decimal digits denotes. *)
Definition digitsValue (s : list byte) : Z :=
  fold_left (fun acc c => 10 * acc + (byte_to_Z c - 48)) s 0.

(** ** segment.go: reading a file whose reads can fail

    [io.ReadFull] over a file that delivers the bytes [r] and then fails
    with [tail]: [io.EOF] at the end of a file that reads well, any other
    error when the read itself fails. [io.ReadFull] turns [io.EOF] into
    [io.ErrUnexpectedEOF] when it has read some bytes but too few, and
    returns every other error as it is. With [tail] = [io.EOF] this is
    [ReadFull]. *)
Definition ReadFull_io (tail : error) (r : Reader) (buf : list byte)
    : option error * list byte * Reader :=
  match buf with
  | [] => (None, buf, r)
  | _ :: _ =>
      if (length r <? length buf)%nat
      then
        match r with
        | [] => (Some tail, buf, r)
        | _ :: _ =>
            (Some match tail with
                  | io_EOF => io_ErrUnexpectedEOF
                  | _ => tail
                  end,
             copy buf r, [])
        end
      else (None, take (length buf) r, drop (length buf) r)
  end.

(** [segmentIterator.next] over such a file. *)
Definition next_io (tail : error) (it : segmentIterator)
    : result record * segmentIterator :=
  let kvSizeBuf := it_buf it in
  match ReadFull_io tail (it_r it) kvSizeBuf with
  | (Some e, buf, r) =>
      match e with
      | io_EOF => (Err ErrIterationDone, set_reader it r buf)
      | _ => (Err e, set_reader it r buf)
      end
  | (None, kvSizeBuf, r) =>
      let keySize := uint32 (LittleEndian.Uint16 (take 2 kvSizeBuf)) in
      let recordSize := encodedRecordSize keySize in
      let data := replicate (Z.to_nat recordSize) x00 in
      let data := copy data kvSizeBuf in
      match ReadFull_io tail r (drop 2 data) with
      | (Some e, _, r') => (Err e, set_reader it r' kvSizeBuf)
      | (None, tail, r') =>
          let data := take 2 data ++ tail in
          finishRecord (set_reader it r' kvSizeBuf) keySize recordSize data
      end
  end.

(** ** db.go: the size of the store *)

(** Go's [int64]: the integers modulo 2^64, from -2^63. *)
Definition int64 (z : Z) : Z := (z + 2 ^ 63) mod 2 ^ 64 - 2 ^ 63.

(** What [os.FileInfo] tells of a file. *)
Record FileInfo : Type := mkFileInfo {
  fi_name : list byte;
  fi_size : Z
}.

Section FileSize.

Context {W : Type}.

(** [db.opts.FileSystem.ReadDir], a collaborator. *)
Variable ReadDir : list byte -> W -> result (list FileInfo) * W.

Definition FileSize (db : DB) (w : W) : (Z * option error) * W :=
  let size := 0 in
  match ReadDir (list_byte_of_string ".") w with
  | (Err e, w') => ((0, Some e), w')
  | (Ok files, w') =>
      let size :=
        fold_left (fun size file => int64 (size + fi_size file))
          files size in
      ((size, None), w')
  end.

End FileSize.


(** The slot [Put] and [HasOrPut] build for the record they appended. *)
Definition newSlot (Sum32WithSeed : list byte -> Z -> Z) (db : DB)
    (key : list byte) (segID offset : Z) : slot :=
  {| sl_hash := DB_hash Sum32WithSeed db key;
     sl_segmentID := segID;
     sl_keySize := uint16 (len key);
     sl_offset := offset |}.

(** The store [storeAB] opened with synchronous writes
    ([BackgroundSyncInterval] = -1). *)
Definition storeABSync : DB :=
  {| db_opts := {| BackgroundSyncInterval := -1;
                   BackgroundCompactionInterval := 0 |};
     db_index := db_index storeAB;
     db_datalog := db_datalog storeAB;
     db_lock := db_lock storeAB;
     db_hashSeed := db_hashSeed storeAB;
     db_metrics := db_metrics storeAB;
     db_syncWrites := true;
     db_cancelBgWorker := false |}.

(** A store whose datalog has used up its 2^16 segment identifiers and
    whose writable segment takes no more record. *)
Definition fullDatalogDB : DB :=
  {| db_opts := {| BackgroundSyncInterval := 0;
                   BackgroundCompactionInterval := 0 |};
     db_index := {| ix_slots := [] |};
     db_datalog := {| dl_segments := replicate (Z.to_nat (2 ^ 16)) [];
                      dl_threshold := 0 |};
     db_lock := mkLockFile "lock";
     db_hashSeed := 7;
     db_metrics := {| Puts := 0 |};
     db_syncWrites := false;
     db_cancelBgWorker := false |}.

(** The calls of the recovery procedure. *)
Definition isRecoveryCall (c : Event * option error) : bool :=
  match fst c with
  | CallBackupNonsegmentFiles | CallRecover => true
  | _ => false
  end.

(** The error [Open] returns when the call [ev] failed with [e] while the
    lock was held. *)
Definition openError (ev : Event) (e : error) : error :=
  match ev with
  | CallOpenIndex => Wrap e "opening index"
  | CallOpenDatalog => Wrap e "opening datalog"
  | CallReadGobFile => Wrap e "reading db meta"
  | CallRecover => Wrap e "recovering"
  | _ => e
  end.

(** A store directory left behind by a process that did not close it: the
    lock file is still there. *)
Definition staleDisk : Disk :=
  {| d_lock := LockStale;
     d_meta := Some {| HashSeed := 7 |};
     d_index := db_index storeAB;
     d_datalog := db_datalog storeAB;
     d_backup := None;
     d_entropy := [9];
     d_faults := noFaults |}.

(** The sizes of [files] added up, as a number. *)
Definition totalSize (files : list FileInfo) : Z :=
  foldr (fun file acc => fi_size file + acc) 0 files.

(** A directory listing: the lock, the metadata, one segment and its
    metadata. *)
Definition listing : list FileInfo :=
  [ {| fi_name := lockName; fi_size := 0 |};
    {| fi_name := dbMetaName; fi_size := 64 |};
    {| fi_name := segmentName 0 1; fi_size := 4096 |};
    {| fi_name := segmentMetaName 0 1; fi_size := 128 |} ].
(** The check value of CRC-32/IEEE. *)
Example crc32_check_value :
  crc32.ChecksumIEEE [x31; x32; x33; x34; x35; x36; x37; x38; x39]
  = 0xcbf43926.
Proof. vm_compute. reflexivity. Qed.

Example encode_empty :
  encodePutRecord [] = [x00; x00; xff; x12; xd9; x41].
Proof. vm_compute. reflexivity. Qed.

Example encode_a :
  encodePutRecord [x61] = [x01; x00; x61; xeb; xe2; x36; xc4].
Proof. vm_compute. reflexivity. Qed.

(** Two records in a row: the iterator reads past the first one and finds
    a checksum that does not match. *)
Example next_on_two_records :
  fst (next (reader (segmentFile 0 1 []) 0
               (encodePutRecord [x61] ++ encodePutRecord [x62])))
  = Err errCorrupted.
Proof. vm_compute. reflexivity. Qed.

Example put_two_keys :
  Count storeAB = 2 /\
  Has crcHash storeAB [x61] = (true, None) /\
  Has crcHash storeAB [x62] = (true, None) /\
  Has crcHash storeAB [x63] = (false, None) /\
  dl_segments (db_datalog storeAB)
  = [encodePutRecord [x61] ++ encodePutRecord [x62]].
Proof. vm_compute. repeat split. Qed.

Example hasOrPut_new_key :
  let '(db, r) := HasOrPut crcHash (fun _ => None) storeAB [x63] in
  r = (false, None) /\ Count db = 3 /\
  Has crcHash db [x63] = (true, None).
Proof. vm_compute. repeat split. Qed.

(** A segment that is full is followed by a new one. *)
Example put_rotates_segment :
  let small := {| dl_segments := [[]]; dl_threshold := 10 |} in
  let db := fst (Put crcHash (fun _ => None) (set_datalog emptyDB small)
                   [x61]) in
  dl_segments (db_datalog (fst (Put crcHash (fun _ => None) db [x62])))
  = [encodePutRecord [x61]; encodePutRecord [x62]].
Proof. vm_compute. reflexivity. Qed.

(** * Properties *)

(** ** Bytes and little-endian words *)

Lemma byte_to_Z_range (b : byte) : 0 <= byte_to_Z b < 256.
Proof.
  unfold byte_to_Z. pose proof (Byte.to_N_bounded b). lia.
Qed.

Lemma byte_of_to_Z (b : byte) : byte_of_Z (byte_to_Z b) = b.
Proof.
  unfold byte_of_Z. pose proof (byte_to_Z_range b).
  rewrite Z.mod_small by lia. unfold byte_to_Z.
  rewrite N2Z.id, Byte.of_to_N. reflexivity.
Qed.

Lemma byte_to_of_Z (z : Z) : byte_to_Z (byte_of_Z z) = z mod 256.
Proof.
  unfold byte_of_Z, byte_to_Z.
  pose proof (Z.mod_pos_bound z 256 ltac:(lia)) as Hr.
  destruct (Byte.of_N (Z.to_N (z mod 256))) as [b|] eqn:E.
  - apply Byte.to_of_N in E. rewrite E. lia.
  - apply Byte.of_N_None_iff in E. lia.
Qed.

Lemma byte_to_Z_inj (a b : byte) : byte_to_Z a = byte_to_Z b -> a = b.
Proof.
  intros H. rewrite <- (byte_of_to_Z a), <- (byte_of_to_Z b), H. reflexivity.
Qed.

Lemma testbit_byte_high (b : byte) (n : Z) :
  8 <= n -> Z.testbit (byte_to_Z b) n = false.
Proof.
  intros Hn. pose proof (byte_to_Z_range b) as Hr.
  destruct (Z.eq_dec (byte_to_Z b) 0) as [->|Hz]; [apply Z.testbit_0_l|].
  apply Z.bits_above_log2; [lia|].
  assert (Z.log2 (byte_to_Z b) < 8); [|lia].
  apply Z.log2_lt_pow2; lia.
Qed.

(** Reading bit [n] of the bytes of a word written in little-endian order. *)
Ltac bits :=
  repeat first
    [ rewrite Z.lor_spec | rewrite Z.lxor_spec | rewrite Z.land_spec
    | rewrite Z.shiftl_spec by lia | rewrite Z.shiftr_spec by lia
    | rewrite Z.testbit_mod_pow2 by lia ].

Ltac split_ltb :=
  repeat match goal with
  | |- context [?a <? ?b] => destruct (Z.ltb_spec a b); try lia
  end;
  cbn [andb orb negb xorb];
  repeat match goal with
  | |- context [Z.testbit ?a ?m] => rewrite (Z.testbit_neg_r a m) by lia
  end;
  rewrite ?Z.shiftr_spec by lia;
  rewrite ?andb_false_r, ?orb_false_r, ?orb_false_l, ?andb_true_r;
  try reflexivity; try (f_equal; lia).

Lemma Uint16_bytes (v : Z) :
  LittleEndian.Uint16 [byte_of_Z v; byte_of_Z (Z.shiftr v 8)] = v mod 2 ^ 16.
Proof.
  cbn [LittleEndian.Uint16]. rewrite !byte_to_of_Z.
  apply Z.bits_inj'. intros n Hn. change 256 with (2 ^ 8). bits.
  split_ltb.
Qed.

Lemma Uint32_bytes (v : Z) :
  LittleEndian.Uint32
    [byte_of_Z v; byte_of_Z (Z.shiftr v 8);
     byte_of_Z (Z.shiftr v 16); byte_of_Z (Z.shiftr v 24)] = v mod 2 ^ 32.
Proof.
  cbn [LittleEndian.Uint32]. rewrite !byte_to_of_Z.
  apply Z.bits_inj'. intros n Hn. change 256 with (2 ^ 8). bits.
  split_ltb.
Qed.

Lemma Uint32_byte (a b c d : byte) (k : Z) :
  let U := LittleEndian.Uint32 [a; b; c; d] in
  (Z.shiftr U 0) mod 2 ^ 8 = byte_to_Z a /\
  (Z.shiftr U 8) mod 2 ^ 8 = byte_to_Z b /\
  (Z.shiftr U 16) mod 2 ^ 8 = byte_to_Z c /\
  (Z.shiftr U 24) mod 2 ^ 8 = byte_to_Z d.
Proof.
  cbn [LittleEndian.Uint32].
  repeat split; apply Z.bits_inj'; intros n Hn; bits;
    destruct (Z.ltb_spec n 8);
    rewrite ?(testbit_byte_high _ n) by lia;
    rewrite ?(testbit_byte_high _ (n + 8)) by lia;
    rewrite ?(testbit_byte_high _ (n + 16)) by lia;
    rewrite ?(testbit_byte_high _ (n + 24)) by lia;
    repeat match goal with
    | |- context [Z.testbit (byte_to_Z ?x) ?m] =>
        first [ rewrite (Z.testbit_neg_r (byte_to_Z x) m) by lia
              | rewrite (testbit_byte_high x m) by lia ]
    end;
    cbn [andb orb]; rewrite ?orb_false_r; try reflexivity;
    f_equal; lia.
Qed.

Lemma Uint32_inj (a b c d a' b' c' d' : byte) :
  LittleEndian.Uint32 [a; b; c; d] = LittleEndian.Uint32 [a'; b'; c'; d'] ->
  [a; b; c; d] = [a'; b'; c'; d'].
Proof.
  intros H.
  destruct (Uint32_byte a b c d 0) as (Ha & Hb & Hc & Hd).
  destruct (Uint32_byte a' b' c' d' 0) as (Ha' & Hb' & Hc' & Hd').
  cbv zeta in *. rewrite H in Ha, Hb, Hc, Hd.
  repeat f_equal; apply byte_to_Z_inj; congruence.
Qed.

(** ** CRC-32 *)

Lemma lxor_range (n a b : Z) :
  0 <= n -> 0 <= a < 2 ^ n -> 0 <= b < 2 ^ n -> 0 <= Z.lxor a b < 2 ^ n.
Proof.
  intros Hn Ha Hb. split; [apply Z.lxor_nonneg; lia|].
  destruct (Z.eq_dec (Z.lxor a b) 0) as [->|Hz]; [lia|].
  assert (0 < Z.lxor a b) by (pose proof (proj2 (Z.lxor_nonneg a b)); lia).
  assert (0 < n).
  { destruct (Z.eq_dec n 0) as [->|]; [|lia].
    assert (a = 0) as -> by lia. assert (b = 0) as -> by lia.
    exfalso. apply Hz. reflexivity. }
  apply Z.log2_lt_pow2; [lia|].
  eapply Z.le_lt_trans; [apply Z.log2_lxor; lia|].
  apply Z.max_lub_lt.
  - destruct (Z.eq_dec a 0) as [->|]; [cbn; lia|]. apply Z.log2_lt_pow2; lia.
  - destruct (Z.eq_dec b 0) as [->|]; [cbn; lia|]. apply Z.log2_lt_pow2; lia.
Qed.

Lemma lxor_cancel_l (t a b : Z) : Z.lxor t a = Z.lxor t b -> a = b.
Proof.
  intros H. apply (f_equal (Z.lxor t)) in H.
  rewrite <- !Z.lxor_assoc, !Z.lxor_nilpotent, !Z.lxor_0_l in H. exact H.
Qed.

Lemma lxor_cancel_r (t a b : Z) : Z.lxor a t = Z.lxor b t -> a = b.
Proof. rewrite !(Z.lxor_comm _ t). apply lxor_cancel_l. Qed.

Lemma below256_spec (i : Z) : 0 <= i < 256 -> In i below256.
Proof.
  intros Hi. unfold below256. apply in_map_iff. exists (Z.to_nat i).
  split; [lia|]. apply in_seq. lia.
Qed.

Lemma forall_below256 (P : Z -> bool) :
  forallb P below256 = true -> forall i, 0 <= i < 256 -> P i = true.
Proof.
  intros H i Hi. rewrite forallb_forall in H. apply H, below256_spec, Hi.
Qed.

Module crc32_facts.
Import crc32.

Lemma table_range (i : Z) : 0 <= i < 256 -> 0 <= table i < 2 ^ 32.
Proof.
  intros Hi.
  assert (H : ((0 <=? table i) && (table i <? 2 ^ 32))%bool = true).
  { revert i Hi. apply forall_below256. vm_compute. reflexivity. }
  apply andb_true_iff in H. lia.
Qed.

(** The top bytes of the table entries are pairwise distinct. *)
Lemma table_top_inj (i j : Z) :
  0 <= i < 256 -> 0 <= j < 256 ->
  Z.shiftr (table i) 24 = Z.shiftr (table j) 24 -> i = j.
Proof.
  intros Hi Hj.
  assert (H : forallb (fun j =>
                implb (Z.shiftr (table i) 24 =? Z.shiftr (table j) 24)
                      (i =? j)) below256 = true).
  { revert i Hi.
    apply (forall_below256 (fun i => forallb (fun j =>
                implb (Z.shiftr (table i) 24 =? Z.shiftr (table j) 24)
                      (i =? j)) below256)).
    vm_compute. reflexivity. }
  rewrite forallb_forall in H. specialize (H j (below256_spec j Hj)).
  intros E. rewrite E, Z.eqb_refl in H. cbn in H. lia.
Qed.

Lemma index_range (crc : Z) (v : byte) :
  0 <= Z.lxor (crc mod 256) (byte_to_Z v) < 256.
Proof.
  change 256 with (2 ^ 8). apply lxor_range; [lia| |].
  - apply Z.mod_pos_bound. lia.
  - apply byte_to_Z_range.
Qed.

Lemma update_byte_range (crc : Z) (v : byte) :
  0 <= crc < 2 ^ 32 -> 0 <= update_byte crc v < 2 ^ 32.
Proof.
  intros Hc. unfold update_byte. apply lxor_range; [lia| |].
  - apply table_range, index_range.
  - rewrite Z.shiftr_div_pow2 by lia. split.
    + apply Z.div_pos; lia.
    + apply Z.div_lt_upper_bound; lia.
Qed.

Lemma update_byte_top (crc : Z) (v : byte) :
  0 <= crc < 2 ^ 32 ->
  Z.shiftr (update_byte crc v) 24
  = Z.shiftr (table (Z.lxor (crc mod 256) (byte_to_Z v))) 24.
Proof.
  intros Hc. unfold update_byte. rewrite Z.shiftr_lxor.
  rewrite Z.shiftr_shiftr by lia. cbn [Z.add Pos.add].
  rewrite (Z.shiftr_div_pow2 crc) by lia.
  rewrite Z.div_small by lia. apply Z.lxor_0_r.
Qed.

(** Two runs that differ in their state or in the byte they consume
    differ in the state they reach. *)
Lemma update_byte_inj (c1 c2 : Z) (v1 v2 : byte) :
  0 <= c1 < 2 ^ 32 -> 0 <= c2 < 2 ^ 32 ->
  update_byte c1 v1 = update_byte c2 v2 ->
  c1 / 256 = c2 / 256 /\
  Z.lxor (c1 mod 256) (byte_to_Z v1) = Z.lxor (c2 mod 256) (byte_to_Z v2).
Proof.
  intros H1 H2 E.
  assert (Hi : Z.lxor (c1 mod 256) (byte_to_Z v1)
               = Z.lxor (c2 mod 256) (byte_to_Z v2)).
  { apply table_top_inj; try apply index_range.
    rewrite <- !update_byte_top by assumption. congruence. }
  split; [|exact Hi].
  unfold update_byte in E. rewrite Hi in E. apply lxor_cancel_l in E.
  rewrite !Z.shiftr_div_pow2 in E by lia. exact E.
Qed.

Lemma update_byte_state_inj (c1 c2 : Z) (v : byte) :
  0 <= c1 < 2 ^ 32 -> 0 <= c2 < 2 ^ 32 ->
  update_byte c1 v = update_byte c2 v -> c1 = c2.
Proof.
  intros H1 H2 E. destruct (update_byte_inj _ _ _ _ H1 H2 E) as [Hd Hm].
  apply lxor_cancel_r in Hm.
  rewrite (Z.div_mod c1 256), (Z.div_mod c2 256) by lia. congruence.
Qed.

Lemma update_byte_byte_inj (c : Z) (v1 v2 : byte) :
  0 <= c < 2 ^ 32 -> update_byte c v1 = update_byte c v2 -> v1 = v2.
Proof.
  intros H E. destruct (update_byte_inj _ _ _ _ H H E) as [_ Hm].
  apply lxor_cancel_l in Hm. apply byte_to_Z_inj, Hm.
Qed.

Lemma fold_update_range (p : list byte) (c : Z) :
  0 <= c < 2 ^ 32 -> 0 <= fold_left update_byte p c < 2 ^ 32.
Proof.
  revert c. induction p as [|v p IH]; intros c Hc; cbn; [exact Hc|].
  apply IH, update_byte_range, Hc.
Qed.

Lemma fold_update_inj (p : list byte) (c1 c2 : Z) :
  0 <= c1 < 2 ^ 32 -> 0 <= c2 < 2 ^ 32 ->
  fold_left update_byte p c1 = fold_left update_byte p c2 -> c1 = c2.
Proof.
  revert c1 c2. induction p as [|v p IH]; intros c1 c2 H1 H2; cbn; [auto|].
  intros E. apply IH in E; try (apply update_byte_range; assumption).
  eapply update_byte_state_inj; eassumption.
Qed.

Lemma not32_range (c : Z) : 0 <= c < 2 ^ 32 -> 0 <= not32 c < 2 ^ 32.
Proof. intros Hc. apply lxor_range; lia. Qed.

Lemma ChecksumIEEE_range (data : list byte) :
  0 <= ChecksumIEEE data < 2 ^ 32.
Proof.
  unfold ChecksumIEEE, simpleUpdate.
  apply not32_range, fold_update_range, not32_range. lia.
Qed.

(** CRC-32 tells apart two messages that differ in exactly one byte. *)
Lemma ChecksumIEEE_one_byte (pre post : list byte) (x y : byte) :
  ChecksumIEEE (pre ++ x :: post) = ChecksumIEEE (pre ++ y :: post) ->
  x = y.
Proof.
  unfold ChecksumIEEE, simpleUpdate. intros E.
  apply lxor_cancel_r in E. rewrite !fold_left_app in E. cbn in E.
  assert (H0 : 0 <= fold_left update_byte pre (not32 0) < 2 ^ 32).
  { apply fold_update_range, not32_range. lia. }
  apply fold_update_inj in E; try (apply update_byte_range; exact H0).
  eapply update_byte_byte_inj; eassumption.
Qed.

End crc32_facts.


(** ** The record encoder *)

Lemma with_slice_app (a b c : list byte) (lo hi : nat) f :
  lo = length a -> hi = (lo + length b)%nat ->
  with_slice (a ++ b ++ c) lo hi f = a ++ f b ++ c.
Proof.
  intros -> ->. unfold with_slice.
  rewrite take_app_length, (drop_app_length a (b ++ c)).
  replace (length a + length b - length a)%nat with (length b) by lia.
  rewrite take_app_length.
  rewrite (app_assoc a b c), <- length_app, (drop_app_length (a ++ b) c).
  reflexivity.
Qed.

Lemma copy_zeros (m : nat) (src : list byte) :
  copy (replicate (length src + m) x00) src
  = src ++ replicate m x00.
Proof.
  unfold copy. rewrite length_replicate.
  rewrite take_ge by lia. rewrite drop_replicate.
  replace (length src + m - length src)%nat with m by lia. reflexivity.
Qed.

(** The layout of an encoded record: key size, key, CRC of both. *)
Lemma encodePutRecord_layout (key : list byte) :
  len key <= MaxKeyLength ->
  encodePutRecord key
  = sizeBytes key ++ key ++ crcBytes (sizeBytes key ++ key).
Proof.
  unfold MaxKeyLength, len. intros Hlen.
  unfold encodePutRecord, encodedRecordSize, uint32, uint16, len.
  rewrite (Z.mod_small (Z.of_nat (length key))) by lia.
  rewrite (Z.mod_small (Z.of_nat (length key)) (2 ^ 16)) by lia.
  rewrite Z.mod_small by lia.
  replace (Z.to_nat (2 + Z.of_nat (length key) + 4))
    with (2 + (length key + 4))%nat by lia.
  set (n := length key).
  rewrite replicate_add.
  change (replicate 2 x00 ++ replicate (n + 4) x00)
    with ([] ++ replicate 2 x00 ++ replicate (n + 4) x00).
  rewrite (with_slice_app [] (replicate 2 x00) _ 0 2) by reflexivity.
  change (LittleEndian.PutUint16 (replicate 2 x00) (Z.of_nat n))
    with (sizeBytes key).
  rewrite !app_nil_l.
  rewrite <- (app_nil_r (replicate (n + 4) x00)).
  rewrite (with_slice_app (sizeBytes key) (replicate (n + 4) x00) [] 2)
    by (rewrite ?length_replicate; reflexivity || lia).
  subst n. rewrite !copy_zeros, !app_nil_r.
  rewrite !(app_assoc (sizeBytes key) key).
  rewrite (take_app_length' (sizeBytes key ++ key))
    by (rewrite length_app; reflexivity).
  rewrite <- (app_nil_r (replicate 4 x00)).
  rewrite (with_slice_app (sizeBytes key ++ key) (replicate 4 x00) [])
    by (rewrite ?length_app, ?length_replicate; cbn [length sizeBytes];
        lia).
  rewrite app_nil_r, <- app_assoc. reflexivity.
Qed.

Lemma encodePutRecord_length (key : list byte) :
  len key <= MaxKeyLength ->
  length (encodePutRecord key) = (length key + 6)%nat.
Proof.
  intros H. rewrite encodePutRecord_layout by exact H.
  rewrite !length_app. cbn. lia.
Qed.

Lemma Uint16_sizeBytes (key : list byte) (rest : list byte) :
  len key <= MaxKeyLength ->
  LittleEndian.Uint16 (take 2 (sizeBytes key ++ rest)) = len key.
Proof.
  unfold MaxKeyLength, len. intros H. cbn [sizeBytes app take].
  rewrite Uint16_bytes. apply Z.mod_small. unfold len. lia.
Qed.

(** ** Reading from the stream *)

Lemma copy_length (dst src : list byte) :
  length (copy dst src) = length dst.
Proof.
  unfold copy. rewrite length_app, length_take, length_drop. lia.
Qed.

Lemma ReadFull_enough (r : Reader) (buf : list byte) :
  (length buf <= length r)%nat ->
  ReadFull r buf = (None, take (length buf) r, drop (length buf) r).
Proof.
  intros H. destruct buf as [|b buf]; [reflexivity|].
  destruct r as [|x r]; [cbn in H; lia|].
  unfold ReadFull.
  destruct (Nat.ltb_spec (length (x :: r)) (length (b :: buf))); [lia|].
  reflexivity.
Qed.

Lemma ReadFull_short (r : Reader) (buf : list byte) :
  (length r < length buf)%nat ->
  ReadFull r buf
  = (Some (match r with [] => io_EOF | _ => io_ErrUnexpectedEOF end),
     copy buf r, []).
Proof.
  intros H. destruct buf as [|b buf]; [cbn in H; lia|].
  destruct r as [|x r]; [reflexivity|].
  unfold ReadFull.
  destruct (Nat.ltb_spec (length (x :: r)) (length (b :: buf))); [|lia].
  reflexivity.
Qed.

Lemma lor_range (n a b : Z) :
  0 <= n -> 0 <= a < 2 ^ n -> 0 <= b < 2 ^ n -> 0 <= Z.lor a b < 2 ^ n.
Proof.
  intros Hn Ha Hb. split; [apply Z.lor_nonneg; lia|].
  destruct (Z.eq_dec (Z.lor a b) 0) as [->|Hz]; [lia|].
  assert (0 < Z.lor a b) by (pose proof (proj2 (Z.lor_nonneg a b)); lia).
  assert (0 < n).
  { destruct (Z.eq_dec n 0) as [->|]; [|lia].
    assert (a = 0) as -> by lia. assert (b = 0) as -> by lia.
    exfalso. apply Hz. reflexivity. }
  apply Z.log2_lt_pow2; [lia|].
  rewrite Z.log2_lor by lia.
  apply Z.max_lub_lt.
  - destruct (Z.eq_dec a 0) as [->|]; [cbn; lia|]. apply Z.log2_lt_pow2; lia.
  - destruct (Z.eq_dec b 0) as [->|]; [cbn; lia|]. apply Z.log2_lt_pow2; lia.
Qed.

Lemma Uint16_range (b : list byte) : 0 <= LittleEndian.Uint16 b < 2 ^ 16.
Proof.
  destruct b as [|b0 [|b1 b]]; cbn [LittleEndian.Uint16]; try lia.
  pose proof (byte_to_Z_range b0). pose proof (byte_to_Z_range b1).
  apply lor_range; [lia|lia|].
  rewrite Z.shiftl_mul_pow2 by lia. lia.
Qed.

Lemma declaredKeySize_range (r : Reader) : 0 <= declaredKeySize r < 2 ^ 16.
Proof. apply Uint16_range. Qed.

(** Fewer than six bytes left: the first read fails. *)
Lemma next_short (it : segmentIterator) :
  length (it_buf it) = 6%nat ->
  (length (it_r it) < 6)%nat ->
  fst (next it)
  = Err (match it_r it with
         | [] => ErrIterationDone
         | _ => io_ErrUnexpectedEOF
         end).
Proof.
  intros Hb H. unfold next. rewrite ReadFull_short by lia.
  destruct (it_r it); reflexivity.
Qed.

(** What [next] computes from the six bytes of the prefix. *)
Lemma next_prefix (it : segmentIterator) :
  length (it_buf it) = 6%nat ->
  (6 <= length (it_r it))%nat ->
  next it
  = let keySize := declaredKeySize (it_r it) in
    let data := take 6 (it_r it) ++ replicate (Z.to_nat keySize) x00 in
    match ReadFull (drop 6 (it_r it)) (drop 2 data) with
    | (Some e, _, r') => (Err e, set_reader it r' (take 6 (it_r it)))
    | (None, tail, r') =>
        finishRecord (set_reader it r' (take 6 (it_r it)))
          keySize (2 + keySize + 4) (take 2 (it_r it) ++ tail)
    end.
Proof.
  intros Hb H6. unfold next. rewrite ReadFull_enough by lia.
  rewrite Hb. rewrite take_take. change (2 `min` 6)%nat with 2%nat.
  fold (declaredKeySize (it_r it)).
  pose proof (declaredKeySize_range (it_r it)) as Hk.
  cbv zeta. set (keySize := declaredKeySize (it_r it)) in *.
  unfold encodedRecordSize, uint32.
  rewrite (Z.mod_small keySize) by lia.
  rewrite Z.mod_small by lia.
  assert (Hd : copy (replicate (Z.to_nat (2 + keySize + 4)) x00)
                 (take 6 (it_r it))
               = take 6 (it_r it) ++ replicate (Z.to_nat keySize) x00).
  { unfold copy. rewrite length_replicate, length_take.
    rewrite take_take, drop_replicate. f_equal.
    - f_equal. lia.
    - f_equal. lia. }
  rewrite Hd.
  rewrite (take_app_le (take 6 (it_r it))) by (rewrite length_take; lia).
  rewrite take_take. change (2 `min` 6)%nat with 2%nat.
  reflexivity.
Qed.

Lemma next_truncated (it : segmentIterator) :
  length (it_buf it) = 6%nat ->
  (6 <= length (it_r it))%nat ->
  len (it_r it) < 6 + declaredKeySize (it_r it) + 4 ->
  fst (next it)
  = Err (match drop 6 (it_r it) with
         | [] => io_EOF
         | _ => io_ErrUnexpectedEOF
         end).
Proof.
  intros Hb H6 Hlen. rewrite next_prefix by assumption. cbv zeta.
  pose proof (declaredKeySize_range (it_r it)) as Hk.
  rewrite ReadFull_short; [reflexivity|].
  rewrite !length_drop, length_app, length_take, length_replicate.
  unfold len in Hlen. lia.
Qed.

Lemma next_complete (it : segmentIterator) :
  length (it_buf it) = 6%nat ->
  let keySize := declaredKeySize (it_r it) in
  6 + keySize + 4 <= len (it_r it) ->
  next it
  = finishRecord
      (set_reader it (drop (Z.to_nat (6 + keySize + 4)) (it_r it))
         (take 6 (it_r it)))
      keySize (2 + keySize + 4)
      (take 2 (it_r it) ++ take (Z.to_nat (keySize + 4)) (drop 6 (it_r it))).
Proof.
  intros Hb keySize Hlen.
  pose proof (declaredKeySize_range (it_r it)) as Hk. fold keySize in Hk.
  unfold len in Hlen.
  rewrite next_prefix by (assumption || lia). cbv zeta. fold keySize.
  assert (Hl : length (drop 2 (take 6 (it_r it)
                                 ++ replicate (Z.to_nat keySize) x00))
               = Z.to_nat (keySize + 4)).
  { rewrite length_drop, length_app, length_take, length_replicate. lia. }
  rewrite ReadFull_enough by (rewrite Hl, length_drop; lia).
  rewrite Hl, drop_drop.
  replace (6 + Z.to_nat (keySize + 4))%nat
    with (Z.to_nat (6 + keySize + 4)) by lia.
  reflexivity.
Qed.

(** ** Decoding what the encoder wrote *)

Lemma declaredKeySize_encoded (key rest : list byte) :
  len key <= MaxKeyLength ->
  declaredKeySize (encodePutRecord key ++ rest) = len key.
Proof.
  intros H. unfold declaredKeySize.
  rewrite encodePutRecord_layout by exact H.
  rewrite <- !app_assoc. apply Uint16_sizeBytes, H.
Qed.

(** On a stream that holds one encoded record and nothing else the iterator
    asks for four bytes more than there are. *)
Lemma next_rejects_encoded_record (f : segment) (offset : Z)
    (key : list byte) :
  len key <= MaxKeyLength ->
  fst (next (reader f offset (encodePutRecord key)))
  = Err (match key with [] => io_EOF | _ => io_ErrUnexpectedEOF end).
Proof.
  intros H.
  pose proof (encodePutRecord_length key H) as Hl.
  pose proof (declaredKeySize_encoded key [] H) as Hk.
  rewrite app_nil_r in Hk.
  rewrite next_truncated; cbn [it_r it_buf reader fst].
  - destruct key as [|k0 key]; [reflexivity|].
    destruct (drop 6 (encodePutRecord (k0 :: key))) eqn:E; [|reflexivity].
    apply (f_equal length) in E. rewrite length_drop, Hl in E.
    cbn in E. lia.
  - reflexivity.
  - lia.
  - rewrite Hk. unfold len. lia.
Qed.

(** ** The checksum verification *)

Lemma flip_ne (x : byte) (bit : Z) :
  0 <= bit < 8 ->
  byte_of_Z (Z.lxor (byte_to_Z x) (Z.shiftl 1 bit)) <> x.
Proof.
  intros Hb E. apply (f_equal byte_to_Z) in E. rewrite byte_to_of_Z in E.
  apply (f_equal (fun z => Z.testbit z bit)) in E. cbv beta in E.
  change 256 with (2 ^ 8) in E.
  rewrite Z.testbit_mod_pow2, Z.lxor_spec, Z.shiftl_spec in E by lia.
  destruct (Z.ltb_spec bit 8); [|lia].
  replace (bit - bit) with 0 in E by lia. cbn in E.
  destruct (Z.testbit (byte_to_Z x) bit); discriminate.
Qed.

Lemma alter_middle (f : byte -> byte) (l : list byte) (i : nat) :
  (i < length l)%nat ->
  exists pre x post, l = pre ++ x :: post /\
    alter f i l = pre ++ f x :: post.
Proof.
  intros Hi. destruct (lookup_lt_is_Some_2 l i Hi) as [x Hx].
  exists (take i l), x, (drop (S i) l). split.
  - symmetry. apply take_drop_middle, Hx.
  - rewrite <- (take_drop_middle l i x Hx) at 1.
    rewrite alter_app_r_alt by (rewrite length_take; lia).
    rewrite length_take. replace (i - i `min` length l)%nat with 0%nat by lia.
    reflexivity.
Qed.

Lemma finishRecord_mismatch (it : segmentIterator)
    (keySize recordSize : Z) (payload crc : list byte) :
  length crc = 4%nat ->
  LittleEndian.Uint32 crc <> crc32.ChecksumIEEE payload ->
  fst (finishRecord it keySize recordSize (payload ++ crc))
  = Err errCorrupted.
Proof.
  intros Hc Hne. unfold finishRecord.
  rewrite length_app, Hc.
  replace (length payload + 4 - 4)%nat with (length payload) by lia.
  rewrite drop_app_length, take_app_length.
  destruct (Z.eqb_spec (LittleEndian.Uint32 crc)
              (crc32.ChecksumIEEE payload)); [contradiction|reflexivity].
Qed.

Lemma finishRecord_match (it : segmentIterator)
    (keySize recordSize : Z) (payload crc : list byte) :
  length crc = 4%nat ->
  LittleEndian.Uint32 crc = crc32.ChecksumIEEE payload ->
  finishRecord it keySize recordSize (payload ++ crc)
  = (Ok {| rec_segmentID := seg_id (it_f it);
           rec_offset := it_offset it;
           rec_data := payload ++ crc;
           rec_key := take (Z.to_nat keySize) (drop 2 (payload ++ crc)) |},
     {| it_f := it_f it;
        it_offset := uint32 (it_offset it + recordSize);
        it_r := it_r it;
        it_buf := it_buf it |}).
Proof.
  intros Hc He. unfold finishRecord.
  rewrite length_app, Hc.
  replace (length payload + 4 - 4)%nat with (length payload) by lia.
  rewrite drop_app_length, take_app_length.
  rewrite He, Z.eqb_refl. reflexivity.
Qed.

Lemma Uint32_crcBytes (payload : list byte) :
  LittleEndian.Uint32 (crcBytes payload) = crc32.ChecksumIEEE payload.
Proof.
  unfold crcBytes. rewrite Uint32_bytes.
  apply Z.mod_small, crc32_facts.ChecksumIEEE_range.
Qed.

(** A flipped record, cut into what the checksum covers and the checksum:
    the two no longer agree. *)
Lemma flipped_record_split (key : list byte) (i : nat) (bit : Z) :
  len key <= MaxKeyLength ->
  (i < length (encodePutRecord key))%nat ->
  0 <= bit < 8 ->
  exists payload crc : list byte,
    flipBit i bit (encodePutRecord key) = payload ++ crc /\
    length payload = (2 + length key)%nat /\ length crc = 4%nat /\
    LittleEndian.Uint32 crc <> crc32.ChecksumIEEE payload /\
    ((2 <= i)%nat -> take 2 payload = sizeBytes key).
Proof.
  intros Hlen Hi Hbit.
  rewrite encodePutRecord_layout in * by exact Hlen.
  rewrite app_assoc in *.
  set (payload := sizeBytes key ++ key) in *.
  assert (Hpl : length payload = (2 + length key)%nat)
    by (unfold payload; rewrite length_app; reflexivity).
  set (flip := fun x => byte_of_Z (Z.lxor (byte_to_Z x) (Z.shiftl 1 bit))).
  unfold flipBit. fold flip.
  destruct (Nat.lt_ge_cases i (length payload)) as [Hp|Hp].
  - rewrite alter_app_l by exact Hp.
    exists (alter flip i payload), (crcBytes payload).
    split; [reflexivity|].
    split; [rewrite length_alter; exact Hpl|].
    split; [reflexivity|]. split.
    + destruct (alter_middle flip payload i Hp) as (pre & x & post & E & ->).
      rewrite Uint32_crcBytes, E. intros Hcrc.
      apply crc32_facts.ChecksumIEEE_one_byte in Hcrc.
      symmetry in Hcrc. revert Hcrc. apply flip_ne, Hbit.
    + intros H2. unfold payload.
      destruct i as [|[|i]]; [lia|lia|]. reflexivity.
  - rewrite alter_app_r_alt by exact Hp.
    rewrite length_app in Hi.
    change (length (crcBytes payload)) with 4%nat in Hi.
    assert (Hj : (i - length payload < length (crcBytes payload))%nat)
      by (change (length (crcBytes payload)) with 4%nat; lia).
    destruct (alter_middle flip _ _ Hj) as (pre & x & post & E & E').
    exists payload, (alter flip (i - length payload)%nat (crcBytes payload)).
    split; [reflexivity|]. split; [exact Hpl|].
    split; [rewrite length_alter; reflexivity|]. split.
    + rewrite <- Uint32_crcBytes. intros Hcrc.
      assert (Hfx : alter flip (i - length payload)%nat (crcBytes payload)
                    = crcBytes payload).
      { remember (alter flip (i - length payload)%nat (crcBytes payload))
          as c'.
        assert (Hl : length c' = 4%nat)
          by (subst c'; rewrite length_alter; reflexivity).
        destruct c' as [|a' [|b' [|c' [|d' [|]]]]]; try discriminate Hl.
        unfold crcBytes in *. cbv zeta in *. apply Uint32_inj, Hcrc. }
      rewrite E', E in Hfx. apply app_inv_head in Hfx.
      injection Hfx as Hfx. revert Hfx. apply flip_ne, Hbit.
    + intros _. reflexivity.
Qed.

Lemma flipped_record_mismatch (key : list byte) (i : nat) (bit : Z)
    (it : segmentIterator) (keySize recordSize : Z) :
  len key <= MaxKeyLength ->
  (i < length (encodePutRecord key))%nat ->
  0 <= bit < 8 ->
  fst (finishRecord it keySize recordSize
         (flipBit i bit (encodePutRecord key)))
  = Err errCorrupted.
Proof.
  intros Hlen Hi Hbit.
  destruct (flipped_record_split key i bit Hlen Hi Hbit)
    as (payload & crc & -> & _ & Hc & Hne & _).
  apply finishRecord_mismatch; assumption.
Qed.

(** ** Offsets *)

Lemma next_Ok_inv (it it' : segmentIterator) (rec : record) :
  length (it_buf it) = 6%nat ->
  next it = (Ok rec, it') ->
  rec_offset rec = it_offset it /\
  it_offset it' = uint32 (it_offset it + len (rec_data rec)) /\
  length (it_buf it') = 6%nat.
Proof.
  intros Hb Hn. apply (f_equal fst) in Hn as Hf. cbn [fst] in Hf.
  destruct (Nat.lt_ge_cases (length (it_r it)) 6) as [H6|H6].
  { rewrite next_short in Hf by assumption.
    destruct (it_r it); discriminate Hf. }
  destruct (Z.lt_ge_cases (len (it_r it))
              (6 + declaredKeySize (it_r it) + 4)) as [Hl|Hl].
  { rewrite next_truncated in Hf by assumption.
    destruct (drop 6 (it_r it)); discriminate Hf. }
  pose proof (declaredKeySize_range (it_r it)) as Hk.
  rewrite next_complete in Hn by assumption. unfold finishRecord in Hn.
  destruct (negb _) in Hn; [discriminate Hn|].
  injection Hn as <- <-.
  cbn [rec_offset rec_data it_offset it_buf set_reader].
  split; [reflexivity|]. split.
  - f_equal. f_equal. unfold len in *.
    rewrite length_app, !length_take, length_drop. lia.
  - rewrite length_take. lia.
Qed.

Lemma nextN_offsets (n : nat) :
  forall (it it' : segmentIterator) (recs : list record),
  length (it_buf it) = 6%nat ->
  it_offset it = uint32 (it_offset it) ->
  nextN n it = (Ok recs, it') ->
  forall (i : nat) (rec : record),
  recs !! i = Some rec ->
  rec_offset rec = uint32 (it_offset it + dataSize (take i recs)).
Proof.
  induction n as [|n IH]; intros it it' recs Hb Hr Hn i rec Hi.
  { cbn in Hn. injection Hn as <- <-. discriminate Hi. }
  cbn [nextN] in Hn.
  destruct (next it) as [[rec0|e] it1] eqn:E1; [|discriminate Hn].
  destruct (nextN n it1) as [[recs1|e] it2] eqn:E2; [|discriminate Hn].
  injection Hn as <- <-.
  destruct (next_Ok_inv _ _ _ Hb E1) as (Ho & Ho' & Hb').
  destruct i as [|i].
  - injection Hi as <-. cbn [take dataSize foldr].
    rewrite Z.add_0_r, <- Hr. exact Ho.
  - cbn [lookup list_lookup] in Hi.
    assert (Hr1 : it_offset it1 = uint32 (it_offset it1)).
    { rewrite Ho'. unfold uint32. rewrite Z.mod_mod by lia. reflexivity. }
    rewrite (IH _ _ _ Hb' Hr1 E2 i rec Hi).
    cbn [take dataSize foldr]. fold (dataSize (take i recs1)).
    rewrite Ho'. unfold uint32.
    rewrite Zplus_mod_idemp_l. f_equal. lia.
Qed.

(** The prefix buffer keeps the six bytes [newSegmentIterator] gave it. *)
Lemma newSegmentIterator_buffer (headerSize : Z) (f : segment)
    (it : segmentIterator) :
  newSegmentIterator headerSize f = Ok it -> length (it_buf it) = 6%nat.
Proof.
  unfold newSegmentIterator. destruct (Seek f headerSize); [|discriminate].
  intros [= <-]. reflexivity.
Qed.

Lemma next_keeps_buffer (it : segmentIterator) :
  length (it_buf it) = 6%nat -> length (it_buf (snd (next it))) = 6%nat.
Proof.
  intros Hb.
  destruct (Nat.lt_ge_cases (length (it_r it)) 6) as [H6|H6].
  - unfold next. rewrite ReadFull_short by lia.
    destruct (it_r it); cbn [snd set_reader it_buf];
      rewrite copy_length; exact Hb.
  - rewrite next_prefix by assumption. cbv zeta.
    destruct (ReadFull _ _) as [[[e|] tail] r'];
      cbn [snd set_reader it_buf].
    + rewrite length_take. lia.
    + unfold finishRecord. destruct (negb _);
        cbn [snd set_reader it_buf]; rewrite length_take; lia.
Qed.

(** ** The spec-level record decoder *)

Lemma decodeRecordAt_Ok_inv (stream : list byte) (keySize : Z)
    (key : list byte) :
  decodeRecordAt stream keySize = Ok key ->
  0 <= keySize < 2 ^ 16 /\ 2 + keySize + 4 <= len stream /\
  len key = keySize.
Proof.
  unfold decodeRecordAt. intros H.
  destruct (Nat.ltb_spec (length stream) 2); [discriminate H|].
  destruct (Z.eqb_spec (LittleEndian.Uint16 (take 2 stream)) keySize)
    as [Hk|]; [|discriminate H]. cbn [negb] in H.
  pose proof (Uint16_range (take 2 stream)) as Hr. rewrite Hk in Hr.
  destruct (Z.ltb_spec (len stream) (2 + keySize + 4)); [discriminate H|].
  destruct (negb _) in H; [discriminate H|]. injection H as <-.
  split; [exact Hr|]. split; [assumption|].
  unfold len in *. rewrite length_drop, !length_take. lia.
Qed.

Lemma decodeRecordAt_app (stream rest : list byte) (keySize : Z)
    (key : list byte) :
  decodeRecordAt stream keySize = Ok key ->
  decodeRecordAt (stream ++ rest) keySize = Ok key.
Proof.
  intros H. destruct (decodeRecordAt_Ok_inv _ _ _ H) as (Hk & Hl & _).
  revert H. unfold decodeRecordAt, len in *.
  rewrite length_app.
  destruct (Nat.ltb_spec (length stream) 2); [discriminate|].
  destruct (Nat.ltb_spec (length stream + length rest) 2); [lia|].
  rewrite (take_app_le stream rest 2) by lia.
  destruct (negb (LittleEndian.Uint16 (take 2 stream) =? keySize));
    [discriminate|].
  destruct (Z.ltb_spec (Z.of_nat (length stream)) (2 + keySize + 4)); [lia|].
  destruct (Z.ltb_spec (Z.of_nat (length stream + length rest))
              (2 + keySize + 4)); [lia|].
  rewrite (take_app_le stream rest) by lia. auto.
Qed.

Lemma decodeRecordAt_encoded (key rest : list byte) :
  len key <= MaxKeyLength ->
  decodeRecordAt (encodePutRecord key ++ rest) (len key) = Ok key.
Proof.
  intros H. apply decodeRecordAt_app.
  pose proof (encodePutRecord_length key H) as Hl.
  pose proof (declaredKeySize_encoded key [] H) as Hk.
  rewrite app_nil_r in Hk. unfold declaredKeySize in Hk.
  unfold decodeRecordAt. rewrite Hk, Z.eqb_refl. cbn [negb].
  destruct (Nat.ltb_spec (length (encodePutRecord key)) 2); [lia|].
  unfold len in *.
  destruct (Z.ltb_spec (Z.of_nat (length (encodePutRecord key)))
              (2 + Z.of_nat (length key) + 4)); [lia|].
  rewrite (take_ge (encodePutRecord key)) by lia.
  rewrite encodePutRecord_layout by exact H.
  rewrite app_assoc.
  replace (Z.to_nat (2 + Z.of_nat (length key)))
    with (length (sizeBytes key ++ key))
    by (rewrite length_app; cbn [length sizeBytes]; lia).
  rewrite take_app_length, drop_app_length.
  rewrite Uint32_crcBytes, Z.eqb_refl. cbn [negb].
  rewrite drop_app_length'; reflexivity.
Qed.

(** ** The datalog only grows *)

Lemma datalog_put_keeps_reads (dl dl' : datalog) (key : list byte)
    (segID offset : Z) (sl : slot) (k : list byte) :
  datalog_put dl key = Ok (segID, offset, dl') ->
  datalog_readKey dl sl = Ok k ->
  datalog_readKey dl' sl = Ok k.
Proof.
  unfold datalog_put, datalog_readKey. intros Hput Hread.
  set (id := Z.to_nat (sl_segmentID sl)) in *.
  destruct (dl_segments dl !! id) as [seg|] eqn:Hseg; [|discriminate Hread].
  pose proof (lookup_lt_Some _ _ _ Hseg) as Hid.
  assert (Hrot : forall r,
    (if Z.of_nat (length (dl_segments dl)) <? 2 ^ 16
     then Ok (Z.of_nat (length (dl_segments dl)), 0,
              {| dl_segments := dl_segments dl ++ [encodePutRecord key];
                 dl_threshold := dl_threshold dl |})
     else Err errFull) = Ok r ->
    dl_segments (snd r) !! id = Some seg).
  { intros r Hr. destruct (_ <? _) in Hr; [|discriminate Hr].
    injection Hr as <-. cbn. rewrite lookup_app_l by exact Hid. exact Hseg. }
  destruct (dl_segments dl !! (length (dl_segments dl) - 1)%nat)
    as [cur|] eqn:Hcur.
  - destruct (len cur + len (encodePutRecord key) <=? uint32 (dl_threshold dl)).
    + injection Hput as <- <- <-. cbn [dl_segments].
      destruct (decide (id = (length (dl_segments dl) - 1)%nat)) as [E|E].
      * rewrite E, list_lookup_insert_eq by lia.
        rewrite E, Hcur in Hseg. injection Hseg as <-.
        destruct (decodeRecordAt_Ok_inv _ _ _ Hread) as (Hk & Hl & _).
        unfold len in Hl. rewrite length_drop in Hl.
        rewrite drop_app_le by lia.
        apply decodeRecordAt_app, Hread.
      * rewrite list_lookup_insert_ne by congruence. rewrite Hseg.
        exact Hread.
    + pose proof (Hrot _ Hput) as Hs. cbn [snd] in Hs. rewrite Hs.
      exact Hread.
  - pose proof (Hrot _ Hput) as Hs. cbn [snd] in Hs. rewrite Hs.
    exact Hread.
Qed.

Lemma datalog_put_then_read (dl dl' : datalog) (key : list byte)
    (segID offset h : Z) :
  len key <= MaxKeyLength ->
  datalog_put dl key = Ok (segID, offset, dl') ->
  datalog_readKey dl'
    {| sl_hash := h; sl_segmentID := segID;
       sl_keySize := uint16 (len key); sl_offset := offset |} = Ok key.
Proof.
  intros Hlen. unfold datalog_put, datalog_readKey.
  cbn [sl_segmentID sl_offset sl_keySize].
  assert (Hks : uint16 (len key) = len key).
  { unfold uint16, MaxKeyLength, len in *. apply Z.mod_small. lia. }
  rewrite Hks.
  assert (Hrot :
    (if Z.of_nat (length (dl_segments dl)) <? 2 ^ 16
     then Ok (Z.of_nat (length (dl_segments dl)), 0,
              {| dl_segments := dl_segments dl ++ [encodePutRecord key];
                 dl_threshold := dl_threshold dl |})
     else Err errFull) = Ok (segID, offset, dl') ->
    match dl_segments dl' !! Z.to_nat segID with
    | Some seg => decodeRecordAt (drop (Z.to_nat offset) seg) (len key)
    | None => Err errCorrupted
    end = Ok key).
  { intros Hr. destruct (_ <? _) in Hr; [|discriminate Hr].
    injection Hr as <- <- <-. cbn [dl_segments].
    rewrite Nat2Z.id, lookup_app_r by lia.
    rewrite Nat.sub_diag. cbn [lookup list_lookup drop Z.to_nat].
    rewrite <- (app_nil_r (encodePutRecord key)).
    apply decodeRecordAt_encoded, Hlen. }
  destruct (dl_segments dl !! (length (dl_segments dl) - 1)%nat)
    as [cur|] eqn:Hcur; [|exact Hrot].
  destruct (Z.leb_spec (len cur + len (encodePutRecord key))
              (uint32 (dl_threshold dl))) as [Hfit|]; [|exact Hrot].
  pose proof (Z.mod_pos_bound (dl_threshold dl) (2 ^ 32) ltac:(lia)) as Hth.
  fold (uint32 (dl_threshold dl)) in Hth.
  intros Hput. injection Hput as <- <- <-. cbn [dl_segments].
  pose proof (lookup_lt_Some _ _ _ Hcur) as Hid.
  replace (Z.to_nat (Z.of_nat (length (dl_segments dl)) - 1))
    with (length (dl_segments dl) - 1)%nat by lia.
  rewrite list_lookup_insert_eq by lia.
  unfold len in *. unfold uint32 at 1. rewrite Z.mod_small by lia.
  rewrite Nat2Z.id, drop_app_length.
  rewrite <- (app_nil_r (encodePutRecord key)).
  apply decodeRecordAt_encoded, Hlen.
Qed.

Lemma Uint16_inj (a b a' b' : byte) :
  LittleEndian.Uint16 [a; b] = LittleEndian.Uint16 [a'; b'] ->
  [a; b] = [a'; b'].
Proof.
  intros H.
  assert (Hlo : forall x y : byte,
            LittleEndian.Uint16 [x; y] mod 2 ^ 8 = byte_to_Z x).
  { intros x y. cbn [LittleEndian.Uint16].
    apply Z.bits_inj'. intros n Hn. bits.
    destruct (Z.ltb_spec n 8); cbn [andb].
    - rewrite (Z.testbit_neg_r _ (n - 8)) by lia. apply orb_false_r.
    - symmetry. apply testbit_byte_high. lia. }
  assert (Hhi : forall x y : byte,
            Z.shiftr (LittleEndian.Uint16 [x; y]) 8 = byte_to_Z y).
  { intros x y. cbn [LittleEndian.Uint16].
    apply Z.bits_inj'. intros n Hn. bits.
    rewrite (testbit_byte_high x) by lia.
    replace (n + 8 - 8) with n by lia. reflexivity. }
  pose proof (Hlo a b) as Ha. pose proof (Hhi a b) as Hb.
  rewrite H, Hlo in Ha. rewrite H, Hhi in Hb.
  f_equal; [|f_equal]; apply byte_to_Z_inj; congruence.
Qed.

(** Under the record layout of the specification, reading a record with a
    flipped bit through a slot that still carries the original key size
    fails with the corrupted error, wherever the bit is. *)
Lemma decodeRecordAt_flipped (key rest : list byte) (i : nat) (bit : Z) :
  len key <= MaxKeyLength ->
  (i < length (encodePutRecord key))%nat ->
  0 <= bit < 8 ->
  decodeRecordAt (flipBit i bit (encodePutRecord key) ++ rest) (len key)
  = Err errCorrupted.
Proof.
  intros Hlen Hi Hbit.
  pose proof (encodePutRecord_length key Hlen) as Hl.
  assert (Hfl : length (flipBit i bit (encodePutRecord key))
                = (length key + 6)%nat)
    by (unfold flipBit; rewrite length_alter; exact Hl).
  unfold decodeRecordAt.
  destruct (Nat.ltb_spec
              (length (flipBit i bit (encodePutRecord key) ++ rest)) 2)
    as [H2|_]; [rewrite length_app in H2; lia|].
  rewrite take_app_le by lia.
  destruct (Nat.lt_ge_cases i 2) as [Hsz|Hsz].
  - (* the flip is in the size prefix *)
    assert (Hne : LittleEndian.Uint16
                    (take 2 (flipBit i bit (encodePutRecord key)))
                  <> len key).
    { rewrite encodePutRecord_layout by exact Hlen. unfold flipBit.
      rewrite alter_app_l by (cbn; lia).
      rewrite take_app_length' by (rewrite length_alter; reflexivity).
      rewrite <- (Uint16_sizeBytes key [] Hlen) at 1.
      rewrite app_nil_r. cbn [take sizeBytes].
      intros E.
      destruct i as [|[|i]]; [| |lia]; cbn [alter list_alter] in E;
        apply Uint16_inj in E; injection E as E;
        revert E; apply flip_ne, Hbit. }
    destruct (Z.eqb_spec
                (LittleEndian.Uint16
                   (take 2 (flipBit i bit (encodePutRecord key))))
                (len key)); [contradiction|reflexivity].
  - destruct (flipped_record_split key i bit Hlen Hi Hbit)
      as (payload & crc & E & Hpl & Hc & Hne & Hsize).
    rewrite E in *. rewrite take_app_le by lia.
    rewrite (Hsize Hsz).
    change (sizeBytes key) with (take 2 (sizeBytes key ++ [])).
    rewrite (Uint16_sizeBytes key [] Hlen).
    rewrite Z.eqb_refl. cbn [negb].
    unfold len in *. rewrite !length_app, Hpl, Hc.
    destruct (Z.ltb_spec (Z.of_nat (2 + length key + 4 + length rest))
                (2 + Z.of_nat (length key) + 4)); [lia|].
    replace (Z.to_nat (2 + Z.of_nat (length key) + 4))
      with (length (payload ++ crc)) by (rewrite length_app; lia).
    rewrite take_app_length.
    replace (Z.to_nat (2 + Z.of_nat (length key)))
      with (length payload) by lia.
    rewrite take_app_length, drop_app_length.
    destruct (Z.eqb_spec (LittleEndian.Uint32 crc)
                (crc32.ChecksumIEEE payload)); [contradiction|reflexivity].
Qed.

(** ** The candidate walk *)

Lemma matchKey_classify (dl : datalog) (key : list byte) (sl : slot)
    (s : unit) :
  matchKey dl key sl s = (classify dl key sl, tt).
Proof.
  destruct s. unfold classify, matchKey.
  destruct (negb _); [reflexivity|].
  destruct (datalog_readKey dl sl); [|reflexivity].
  destruct (bytes_Equal key a); reflexivity.
Qed.

Lemma matchKeyFound_classify (dl : datalog) (key : list byte) (sl : slot)
    (found : bool) :
  matchKeyFound dl key sl found
  = (classify dl key sl,
     match classify dl key sl with
     | (true, None) => true
     | _ => found
     end).
Proof.
  unfold classify, matchKey, matchKeyFound.
  destruct (negb _); [reflexivity|].
  destruct (datalog_readKey dl sl); [|reflexivity].
  destruct (bytes_Equal key a); reflexivity.
Qed.

Lemma walk_found (dl : datalog) (key : list byte) (h : Z)
    (slots : list slot) :
  forall (i : nat) (found : bool),
  walk (matchKeyFound dl key) h slots i found
  = (fst (walk (matchKey dl key) h slots i tt),
     match fst (walk (matchKey dl key) h slots i tt) with
     | (Some _, None) => true
     | _ => found
     end).
Proof.
  induction slots as [|sl slots IH]; intros i found; cbn [walk].
  { reflexivity. }
  destruct (sl_hash sl =? h); [|apply IH].
  rewrite matchKeyFound_classify, matchKey_classify.
  destruct (classify dl key sl) as [[|] [e|]]; cbn [fst]; try reflexivity.
  apply IH.
Qed.

Lemma walk_match_inv (dl : datalog) (key : list byte) (h : Z)
    (slots : list slot) :
  forall (i j : nat),
  fst (walk (matchKey dl key) h slots i tt) = (Some j, None) ->
  exists pre sl post,
    slots = pre ++ sl :: post /\ j = (i + length pre)%nat /\
    sl_hash sl = h /\ classify dl key sl = (true, None) /\
    Forall (fun s => sl_hash s = h -> classify dl key s = (false, None)) pre.
Proof.
  induction slots as [|sl slots IH]; intros i j; cbn [walk].
  { discriminate. }
  destruct (Z.eqb_spec (sl_hash sl) h) as [Hh|Hh].
  - rewrite matchKey_classify.
    destruct (classify dl key sl) as [[|] [e|]] eqn:Hc; cbn [fst];
      try discriminate.
    + intros [= <-]. exists [], sl, slots. cbn.
      repeat split; auto; lia.
    + intros Hw. destruct (IH _ _ Hw) as (pre & s & post & -> & -> & ? & ? & ?).
      exists (sl :: pre), s, post. cbn.
      repeat split; auto; try lia; constructor; auto.
  - intros Hw. destruct (IH _ _ Hw) as (pre & s & post & -> & -> & ? & ? & ?).
    exists (sl :: pre), s, post. cbn.
    repeat split; auto; try lia; constructor; auto; intros; contradiction.
Qed.

Lemma walk_match_intro (dl : datalog) (key : list byte) (h : Z)
    (pre : list slot) (sl : slot) (post : list slot) :
  sl_hash sl = h -> classify dl key sl = (true, None) ->
  Forall (fun s => sl_hash s = h -> classify dl key s = (false, None)) pre ->
  forall i : nat,
  walk (matchKey dl key) h (pre ++ sl :: post) i tt
  = ((Some (i + length pre)%nat, None), tt).
Proof.
  intros Hh Hc Hpre. induction Hpre as [|s pre Hs Hpre IH]; intros i.
  - cbn [app walk length]. rewrite Hh, Z.eqb_refl, matchKey_classify, Hc.
    rewrite Nat.add_0_r. reflexivity.
  - cbn [app walk length].
    destruct (Z.eqb_spec (sl_hash s) h) as [E|E].
    + rewrite matchKey_classify, (Hs E), IH. do 3 f_equal. lia.
    + rewrite IH. do 3 f_equal. lia.
Qed.

Lemma walk_nomatch_inv (dl : datalog) (key : list byte) (h : Z)
    (slots : list slot) :
  forall i : nat,
  fst (walk (matchKey dl key) h slots i tt) = (None, None) ->
  Forall (fun s => sl_hash s = h -> classify dl key s = (false, None)) slots.
Proof.
  induction slots as [|sl slots IH]; intros i; cbn [walk].
  { constructor. }
  destruct (Z.eqb_spec (sl_hash sl) h) as [Hh|Hh].
  - rewrite matchKey_classify.
    destruct (classify dl key sl) as [[|] [e|]] eqn:Hc; cbn [fst];
      try discriminate.
    intros Hw. constructor; eauto.
  - intros Hw. constructor; [intros; contradiction|eauto].
Qed.

Lemma classify_match_inv (dl : datalog) (key : list byte) (sl : slot) :
  classify dl key sl = (true, None) ->
  uint16 (len key) = sl_keySize sl /\ datalog_readKey dl sl = Ok key.
Proof.
  unfold classify, matchKey.
  destruct (Z.eqb_spec (uint16 (len key)) (sl_keySize sl)); cbn [negb fst];
    [|discriminate].
  destruct (datalog_readKey dl sl) as [k|]; [|discriminate].
  unfold bytes_Equal. destruct (bool_decide_reflect (key = k));
    cbn [fst]; [|discriminate].
  subst k. auto.
Qed.

Lemma classify_grows (dl dl' : datalog) (key key' : list byte)
    (segID offset : Z) (sl : slot) (b : bool) :
  datalog_put dl key' = Ok (segID, offset, dl') ->
  classify dl key sl = (b, None) ->
  classify dl' key sl = (b, None).
Proof.
  intros Hput. unfold classify, matchKey.
  destruct (negb _); [auto|].
  destruct (datalog_readKey dl sl) as [k|] eqn:Hr; [|discriminate].
  rewrite (datalog_put_keeps_reads _ _ _ _ _ _ _ Hput Hr). auto.
Qed.

Lemma classify_new_slot (dl dl' : datalog) (key : list byte)
    (segID offset h : Z) :
  len key <= MaxKeyLength ->
  datalog_put dl key = Ok (segID, offset, dl') ->
  classify dl' key
    {| sl_hash := h; sl_segmentID := segID;
       sl_keySize := uint16 (len key); sl_offset := offset |} = (true, None).
Proof.
  intros Hlen Hput. unfold classify, matchKey.
  rewrite (datalog_put_then_read _ _ _ _ _ h Hlen Hput).
  cbn [sl_keySize]. rewrite Z.eqb_refl. cbn [negb].
  unfold bytes_Equal. rewrite bool_decide_eq_true_2 by reflexivity.
  reflexivity.
Qed.

Section OperationsFacts.

Variable Sum32WithSeed : list byte -> Z -> Z.
Variable datalog_sync : datalog -> option error.

Local Abbreviation Has' := (Has Sum32WithSeed).
Local Abbreviation Put' := (Put Sum32WithSeed datalog_sync).
Local Abbreviation HasOrPut' := (HasOrPut Sum32WithSeed datalog_sync).
Local Abbreviation DB_hash' := (DB_hash Sum32WithSeed).

Lemma Has_walk (db : DB) (key : list byte) :
  Has' db key
  = match fst (walk (matchKey (db_datalog db) key) (DB_hash' db key)
                 (ix_slots (db_index db)) 0 tt) with
    | (_, Some e) => (false, Some e)
    | (Some _, None) => (true, None)
    | (None, None) => (false, None)
    end.
Proof.
  unfold Has, index_get. rewrite walk_found.
  destruct (fst _) as [[j|] [e|]]; reflexivity.
Qed.

Lemma Has_true_inv (db : DB) (key : list byte) :
  Has' db key = (true, None) ->
  exists j, fst (walk (matchKey (db_datalog db) key) (DB_hash' db key)
                   (ix_slots (db_index db)) 0 tt) = (Some j, None).
Proof.
  rewrite Has_walk. destruct (fst _) as [[j|] [e|]]; try discriminate.
  eauto.
Qed.

Lemma Has_true_length (db : DB) (key : list byte) :
  Has' db key = (true, None) -> len key <= MaxKeyLength.
Proof.
  intros H. destruct (Has_true_inv _ _ H) as [j Hj].
  destruct (walk_match_inv _ _ _ _ _ _ Hj)
    as (pre & sl & post & _ & _ & _ & Hc & _).
  destruct (classify_match_inv _ _ _ Hc) as [Hk Hr].
  unfold datalog_readKey in Hr.
  destruct (_ !! _) in Hr; [|discriminate Hr].
  destruct (decodeRecordAt_Ok_inv _ _ _ Hr) as (Hks & _ & Hl).
  unfold MaxKeyLength. lia.
Qed.

Lemma HasOrPut_present (db : DB) (key : list byte) :
  Has' db key = (true, None) -> HasOrPut' db key = (db, (true, None)).
Proof.
  intros H. pose proof (Has_true_length _ _ H) as Hlen.
  destruct (Has_true_inv _ _ H) as [j Hj].
  unfold HasOrPut.
  destruct (Z.gtb_spec (len key) MaxKeyLength); [lia|].
  unfold index_get. rewrite walk_found, Hj. reflexivity.
Qed.

Lemma HasOrPut_existed_inv (db db' : DB) (key : list byte)
    (err : option error) :
  HasOrPut' db key = (db', (true, err)) -> db' = db /\ err = None.
Proof.
  unfold HasOrPut.
  destruct (len key >? MaxKeyLength); [intros [= <- <-]; discriminate|].
  destruct (index_get _ _ _ _) as [[e|] found].
  { intros [=]. }
  destruct found; cbn [negb].
  { intros [= <- <-]. auto. }
  destruct (datalog_put _ _) as [[[segID offset] dl]|e]; [|intros [=]].
  destruct (DB_put _ _ _) as [db1 [e|]]; [intros [=]|].
  destruct (db_syncWrites db1); intros [=].
Qed.

Lemma Has_of_match (db : DB) (key : list byte) (pre post : list slot)
    (sl : slot) :
  ix_slots (db_index db) = pre ++ sl :: post ->
  sl_hash sl = DB_hash' db key ->
  classify (db_datalog db) key sl = (true, None) ->
  Forall (fun s => sl_hash s = DB_hash' db key ->
            classify (db_datalog db) key s = (false, None)) pre ->
  Has' db key = (true, None).
Proof.
  intros Hslots Hh Hc Hpre. rewrite Has_walk, Hslots.
  rewrite (walk_match_intro _ key _ pre sl post Hh Hc Hpre 0).
  reflexivity.
Qed.

Lemma Put_then_Has (db : DB) (key : list byte) :
  len key <= MaxKeyLength ->
  snd (Put' db key) = None ->
  Has' (fst (Put' db key)) key = (true, None).
Proof.
  intros Hlen. unfold Put.
  destruct (Z.gtb_spec (len key) MaxKeyLength); [lia|].
  destruct (datalog_put (db_datalog _) key)
    as [[[segID offset] dl']|e] eqn:Hput; cbn [set_metrics db_datalog] in Hput;
    [|discriminate].
  set (h := DB_hash' db key) in *.
  set (new := {| sl_hash := h; sl_segmentID := segID;
                 sl_keySize := uint16 (len key); sl_offset := offset |}).
  assert (Hnew : classify dl' key new = (true, None))
    by (apply (classify_new_slot (db_datalog db)); assumption).
  unfold DB_put, index_put.
  cbn [set_datalog set_metrics db_datalog db_index sl_hash].
  fold h. fold new. change (sl_hash new) with h.
  destruct (walk (matchKey dl' key) h (ix_slots (db_index db)) 0 tt)
    as [[[j|] [e|]] []] eqn:Hw; cbn [fst snd]; try discriminate.
  - apply (f_equal fst) in Hw. cbn [fst] in Hw.
    destruct (walk_match_inv _ _ _ _ _ _ Hw)
      as (pre & sl & post & Hslots & -> & Hh & Hc & Hpre).
    intros _.
    apply (Has_of_match _ key pre post new); cbn; auto.
    + destruct (db_syncWrites db); cbn; rewrite Hslots;
        rewrite insert_app_r_alt by lia;
        rewrite Nat.sub_diag; reflexivity.
    + destruct (db_syncWrites db); reflexivity.
    + destruct (db_syncWrites db); exact Hnew.
    + destruct (db_syncWrites db); exact Hpre.
  - apply (f_equal fst) in Hw. cbn [fst] in Hw.
    apply walk_nomatch_inv in Hw.
    destruct (Z.of_nat (length (ix_slots (db_index db))) <? MaxKeys);
      cbn [fst snd]; [|discriminate].
    intros _.
    apply (Has_of_match _ key (ix_slots (db_index db)) [] new); cbn; auto.
    + destruct (db_syncWrites db); reflexivity.
    + destruct (db_syncWrites db); reflexivity.
    + destruct (db_syncWrites db); exact Hnew.
    + destruct (db_syncWrites db); exact Hw.
Qed.

Lemma Put_present (db : DB) (key : list byte) :
  len key <= MaxKeyLength ->
  Has' db key = (true, None) ->
  Count (fst (Put' db key)) = Count db /\
  Has' (fst (Put' db key)) key = (true, None).
Proof.
  intros Hlen HHas. unfold Put.
  destruct (Z.gtb_spec (len key) MaxKeyLength); [lia|].
  destruct (datalog_put (db_datalog _) key)
    as [[[segID offset] dl']|e] eqn:Hput; cbn [set_metrics db_datalog] in Hput.
  2: { cbn [fst]. split; [reflexivity|exact HHas]. }
  destruct (Has_true_inv _ _ HHas) as [j Hj].
  destruct (walk_match_inv _ _ _ _ _ _ Hj)
    as (pre & sl & post & Hslots & -> & Hh & Hc & Hpre).
  set (h := DB_hash' db key) in *.
  set (new := {| sl_hash := h; sl_segmentID := segID;
                 sl_keySize := uint16 (len key); sl_offset := offset |}).
  assert (Hc' : classify dl' key sl = (true, None))
    by (eapply classify_grows; eassumption).
  assert (Hpre' : Forall (fun s => sl_hash s = h ->
                    classify dl' key s = (false, None)) pre).
  { eapply Forall_impl; [|exact Hpre]. cbn beta. intros s Hs E.
    eapply classify_grows; [exact Hput|]. auto. }
  assert (Hnew : classify dl' key new = (true, None))
    by (apply (classify_new_slot (db_datalog db)); assumption).
  unfold DB_put, index_put.
  cbn [set_datalog set_metrics db_datalog db_index sl_hash].
  fold h. fold new. change (sl_hash new) with h.
  rewrite Hslots, (walk_match_intro dl' key h pre sl post Hh Hc' Hpre' 0).
  cbn [Nat.add ix_slots].
  replace (<[length pre := new]> (pre ++ sl :: post))
    with (pre ++ new :: post).
  2: { rewrite insert_app_r_alt by lia.
       rewrite Nat.sub_diag. reflexivity. }
  assert (Hfinal : forall (db1 : DB),
    db_index db1 = {| ix_slots := pre ++ new :: post |} ->
    db_datalog db1 = dl' -> db_hashSeed db1 = db_hashSeed db ->
    Count db1 = Count db /\ Has' db1 key = (true, None)).
  { intros db1 Hix Hdl Hseed. split.
    - unfold Count, index_count. rewrite Hix, Hslots. cbn [ix_slots].
      rewrite !length_app. reflexivity.
    - rewrite Has_walk, Hix, Hdl. cbn [ix_slots].
      unfold DB_hash. rewrite Hseed. fold (DB_hash' db key). fold h.
      rewrite (walk_match_intro dl' key h pre new post eq_refl Hnew Hpre' 0).
      reflexivity. }
  cbn [set_index db_syncWrites set_datalog set_metrics].
  destruct (db_syncWrites db); cbn [fst]; apply Hfinal; reflexivity.
Qed.

End OperationsFacts.

(** ** The claims on the record codec *)

(** C2, the round trip of a record: decoding [encodePutRecord k] with the
    segment iterator should return [k]. The code does not do so. On the
    segment that holds the record of the key "a" and nothing else, [next]
    reads the six-byte prefix, then asks for [keySize + 4] more bytes where
    only [keySize] are left, and returns [io.ErrUnexpectedEOF]. *)
Theorem C2_next_fails_on_encoded_record :
  exists it,
    newSegmentIterator 512 (segmentFile 512 1 (encodePutRecord [x61]))
    = Ok it /\
    encodePutRecord [x61] = [x01; x00; x61; xeb; xe2; x36; xc4] /\
    fst (next it) = Err io_ErrUnexpectedEOF.
Proof.
  eexists. split; [reflexivity|]. split; vm_compute; reflexivity.
Qed.

(** C3, the detection of a flipped bit: a flip in the checksum of a
    persisted record should make the read of that record fail with
    [errCorrupted]. The code does not do so. On the segment that holds the
    record of the empty key followed by the record of [longKey], [next]
    takes the size prefix of the first record, skips the four bytes that
    follow it, which are the checksum of the first record, and verifies the
    checksum it finds in the four bytes after them. Whichever bit of the
    checksum of the first record is flipped, [next] returns the record of
    the empty key, as it does on the intact segment. *)
Theorem C3_next_accepts_flipped_checksum :
  let stream := encodePutRecord [] ++ encodePutRecord longKey in
  let first := {| rec_segmentID := 1;
                  rec_offset := 512;
                  rec_data := encodePutRecord [];
                  rec_key := [] |} in
  (exists it,
     newSegmentIterator 512 (segmentFile 512 1 stream) = Ok it /\
     fst (next it) = Ok first) /\
  Forall (fun i =>
    Forall (fun bit =>
      flipBit i bit stream
      = flipBit i bit (encodePutRecord []) ++ encodePutRecord longKey /\
      flipBit i bit (encodePutRecord []) <> encodePutRecord [] /\
      exists it,
        newSegmentIterator 512 (segmentFile 512 1 (flipBit i bit stream))
        = Ok it /\
        fst (next it) = Ok first)
      [0; 1; 2; 3; 4; 5; 6; 7])
    [2; 3; 4; 5]%nat.
Proof.
  cbv zeta. split.
  { eexists. split; [reflexivity|]. vm_compute. reflexivity. }
  repeat match goal with
         | |- Forall _ _ => constructor
         end;
    (split; [vm_compute; reflexivity|]);
    (split; [vm_compute; discriminate|]);
    eexists; (split; [reflexivity|]); vm_compute; reflexivity.
Qed.

(** C4: at a position where no byte remains [next] returns
    [ErrIterationDone]; where at least one byte remains but fewer than the
    record declares, it returns an error other than [ErrIterationDone].
    The declared size is [encodedRecordSize] of the key size in the first
    two bytes (of zero when there are fewer than two). The iterator is any
    iterator at any position: its buffer has the six bytes
    [newSegmentIterator] gave it. *)
Theorem C4_end_of_stream_and_truncation (it : segmentIterator) :
  length (it_buf it) = 6%nat ->
  (it_r it = [] -> fst (next it) = Err ErrIterationDone) /\
  (it_r it <> [] ->
   len (it_r it) < encodedRecordSize (declaredKeySize (it_r it)) ->
   exists e, fst (next it) = Err e /\ e <> ErrIterationDone).
Proof.
  intros Hb. split.
  - intros Hr. rewrite next_short by (rewrite ?Hr; cbn; lia).
    rewrite Hr. reflexivity.
  - intros Hne Hlen.
    pose proof (declaredKeySize_range (it_r it)) as Hk.
    unfold encodedRecordSize, uint32 in Hlen.
    rewrite Z.mod_small in Hlen by lia.
    destruct (Nat.lt_ge_cases (length (it_r it)) 6) as [H6|H6].
    + rewrite next_short by assumption.
      destruct (it_r it); [contradiction|].
      eexists. split; [reflexivity|discriminate].
    + rewrite next_truncated by (assumption || lia).
      destruct (drop 6 (it_r it));
        (eexists; split; [reflexivity|discriminate]).
Qed.

Lemma C4_end_of_stream_and_truncation_witness :
  fst (next (reader (segmentFile 0 1 []) 0 [])) = Err ErrIterationDone /\
  exists e,
    fst (next (reader (segmentFile 0 1 []) 0
                 [x03; x00; x61; x62; x63; x00; x00])) = Err e /\
    e <> ErrIterationDone.
Proof.
  split.
  - apply (proj1 (C4_end_of_stream_and_truncation
                    (reader (segmentFile 0 1 []) 0 []) eq_refl)).
    reflexivity.
  - apply (proj2 (C4_end_of_stream_and_truncation
                    (reader (segmentFile 0 1 []) 0
                       [x03; x00; x61; x62; x63; x00; x00]) eq_refl)).
    + discriminate.
    + vm_compute. reflexivity.
Defined.

(** C8 as stated fails: with a header of 512 bytes, the first record the
    iterator produces carries offset 512, not 0. *)
Lemma C8_first_offset_counterexample :
  exists it rec it',
    newSegmentIterator 512
      (segmentFile 512 1 (encodePutRecord [] ++ encodePutRecord longKey))
    = Ok it /\
    next it = (Ok rec, it') /\
    rec_key rec = [] /\
    rec_offset rec = 512 /\
    rec_offset rec <> 0.
Proof.
  eexists. eexists. eexists. split; [reflexivity|].
  split; [vm_compute; reflexivity|].
  cbn. repeat split. discriminate.
Qed.

(** C8, amended: the offset stored in a record is the iterator's running
    offset, which starts at [headerSize], the position of the first record
    in the file, and grows by the length of each record produced, modulo
    2^32. The first record of a segment has offset [headerSize]. *)
Theorem C8_record_offsets (headerSize : Z) (f : segment)
    (it it' : segmentIterator) (n : nat) (recs : list record)
    (i : nat) (rec : record) :
  newSegmentIterator headerSize f = Ok it ->
  nextN n it = (Ok recs, it') ->
  recs !! i = Some rec ->
  rec_offset rec = uint32 (headerSize + dataSize (take i recs)).
Proof.
  intros Hit Hn Hi. unfold newSegmentIterator in Hit.
  destruct (Seek f headerSize) as [pos|e]; [|discriminate Hit].
  injection Hit as <-.
  assert (Hr : uint32 headerSize = uint32 (uint32 headerSize)).
  { unfold uint32. rewrite Z.mod_mod by lia. reflexivity. }
  match type of Hn with
  | nextN _ ?it0 = _ =>
      rewrite (nextN_offsets n it0 _ _ eq_refl Hr Hn i rec Hi)
  end.
  cbn [it_offset]. unfold uint32. rewrite Zplus_mod_idemp_l. reflexivity.
Qed.

Lemma C8_record_offsets_witness :
  exists (it it' : segmentIterator) (rec : record),
    newSegmentIterator 512
      (segmentFile 512 1 (encodePutRecord [] ++ encodePutRecord longKey))
    = Ok it /\
    nextN 1 it = (Ok [rec], it') /\
    rec_offset rec = 512.
Proof.
  assert (H : exists it it' rec,
    newSegmentIterator 512
      (segmentFile 512 1 (encodePutRecord [] ++ encodePutRecord longKey))
    = Ok it /\ nextN 1 it = (Ok [rec], it')).
  { do 3 eexists. split; [reflexivity|]. vm_compute. reflexivity. }
  destruct H as (it & it' & rec & Hit & Hn).
  exists it, it', rec. split; [exact Hit|]. split; [exact Hn|].
  exact (C8_record_offsets 512 _ it it' 1 [rec] 0 rec Hit Hn eq_refl).
Defined.

(** ** The claims on the engine's operations *)

(** C1: for a key [k] of at most [MaxKeyLength] bytes, a [Put k] that
    succeeds makes [Has k] true; and on a store that already contains [k],
    one on which [Has k] is true, [Put k] leaves [Count] unchanged and
    [Has k] is true afterwards: the existing slot is replaced, no slot is
    added. *)
Theorem C1_put_existing_key (Sum32WithSeed : list byte -> Z -> Z)
    (datalog_sync : datalog -> option error) (db : DB) (key : list byte) :
  len key <= MaxKeyLength ->
  (snd (Put Sum32WithSeed datalog_sync db key) = None ->
   Has Sum32WithSeed (fst (Put Sum32WithSeed datalog_sync db key)) key
   = (true, None)) /\
  (Has Sum32WithSeed db key = (true, None) ->
   Count (fst (Put Sum32WithSeed datalog_sync db key)) = Count db /\
   Has Sum32WithSeed (fst (Put Sum32WithSeed datalog_sync db key)) key
   = (true, None)).
Proof.
  intros Hlen. split.
  - apply Put_then_Has, Hlen.
  - apply Put_present, Hlen.
Qed.

Lemma C1_put_existing_key_witness :
  let db := fst (Put crcHash (fun _ => None) emptyDB [x61]) in
  Has crcHash db [x61] = (true, None) /\
  Count db = 1 /\
  Count (fst (Put crcHash (fun _ => None) db [x61])) = Count db /\
  Has crcHash (fst (Put crcHash (fun _ => None) db [x61])) [x61]
  = (true, None).
Proof.
  cbv zeta.
  assert (Hlen : len [x61] <= MaxKeyLength) by (vm_compute; discriminate).
  pose proof (proj1 (C1_put_existing_key crcHash (fun _ => None) emptyDB
                       [x61] Hlen) eq_refl) as Hfirst.
  split; [exact Hfirst|]. split; [vm_compute; reflexivity|].
  exact (proj2 (C1_put_existing_key crcHash (fun _ => None) _ [x61] Hlen)
           Hfirst).
Defined.

(** C5: for a key longer than [MaxKeyLength], [Put] returns
    [errKeyTooLarge] and [HasOrPut] returns [(false, errKeyTooLarge)], and
    the store is as it was: the same index (hence [Count]), the same
    datalog. *)
Theorem C5_key_too_large (Sum32WithSeed : list byte -> Z -> Z)
    (datalog_sync : datalog -> option error) (db : DB) (key : list byte) :
  len key > MaxKeyLength ->
  Put Sum32WithSeed datalog_sync db key = (db, Some errKeyTooLarge) /\
  HasOrPut Sum32WithSeed datalog_sync db key
  = (db, (false, Some errKeyTooLarge)).
Proof.
  intros H. unfold Put, HasOrPut.
  destruct (Z.gtb_spec (len key) MaxKeyLength); [auto|lia].
Qed.

Lemma C5_key_too_large_witness :
  let key := replicate (Z.to_nat (MaxKeyLength + 1)) x00 in
  len key = MaxKeyLength + 1 /\
  Put crcHash (fun _ => None) emptyDB key = (emptyDB, Some errKeyTooLarge) /\
  HasOrPut crcHash (fun _ => None) emptyDB key
  = (emptyDB, (false, Some errKeyTooLarge)).
Proof.
  cbv zeta. split; [vm_compute; reflexivity|].
  apply C5_key_too_large. vm_compute. reflexivity.
Defined.

(** C6: when [Has k] is true, [HasOrPut k] returns [existed = true] and
    leaves the store as it was: no record appended, no slot added or
    replaced, [Count] unchanged. Whenever [HasOrPut] returns
    [existed = true] the store is unchanged, so a record is appended only
    when [existed = false]. *)
Theorem C6_HasOrPut_existing_key (Sum32WithSeed : list byte -> Z -> Z)
    (datalog_sync : datalog -> option error) (db : DB) (key : list byte) :
  (Has Sum32WithSeed db key = (true, None) ->
   HasOrPut Sum32WithSeed datalog_sync db key = (db, (true, None))) /\
  (forall (db' : DB) (err : option error),
   HasOrPut Sum32WithSeed datalog_sync db key = (db', (true, err)) ->
   db' = db).
Proof.
  split.
  - apply HasOrPut_present.
  - intros db' err H. eapply HasOrPut_existed_inv. exact H.
Qed.

Lemma C6_HasOrPut_existing_key_witness :
  let db := fst (Put crcHash (fun _ => None) emptyDB [x61]) in
  HasOrPut crcHash (fun _ => None) db [x61] = (db, (true, None)).
Proof.
  cbv zeta.
  apply (proj1 (C6_HasOrPut_existing_key crcHash (fun _ => None)
                  (fst (Put crcHash (fun _ => None) emptyDB [x61])) [x61])).
  vm_compute. reflexivity.
Defined.

(** ** The claims on opening and closing *)

Ltac run_engine :=
  unfold Open, Open_locked, Close, createLockFile, writeMeta, readMeta,
    startBackgroundWorker, bind, call, note, ret, outcome,
    outcome_error, outcome_result, outcome_pair;
  cbn [fst snd].

(** C7 as stated fails: when writing the metadata fails, [Close] returns
    that failure at once; the datalog and the index are not closed and the
    lock is not released. *)
Lemma C7_close_stops_at_first_failure_counterexample :
  Close (disk_env trivialRecover) emptyDB (diskInUse metaWriteFails, [])
  = (Some (IOError "no space left on device"),
     (diskInUse metaWriteFails,
      [(CallWriteGobFile {| HashSeed := 7 |},
        Some (IOError "no space left on device"))])) /\
  d_lock (diskInUse metaWriteFails) = LockHeld.
Proof. split; reflexivity. Qed.

(** C7, amended: [Close] runs its cleanup steps in order (write the
    metadata, close the datalog, close the index, release the lock) and
    stops at the first step that fails: the steps attempted are the first
    [k] of the four, every one but the last succeeded, [Close] returns the
    outcome of the last one, and fewer than four steps are attempted only
    when that outcome is a failure. *)
Theorem C7_close_runs_steps_until_first_failure {W : Type}
    (env : Collaborators W) (db : DB) (w : W) :
  let '(err, (_, calls)) := Close env db (w, []) in
  exists (k : nat) (init : History) (ev : Event),
    (1 <= k <= 4)%nat /\
    calls = init ++ [(ev, err)] /\
    Forall (fun c => snd c = None) init /\
    map fst calls
    = (if db_cancelBgWorker db then [CallCancelBgWorker] else [])
      ++ take k (closeSteps db) /\
    (k = 4%nat \/ err <> None).
Proof.
  run_engine. unfold closeSteps.
  destruct (db_cancelBgWorker db); cbn [app];
  destruct (writeGobFile env _ w) as [[e1|] w1]; cbn [app];
  try (destruct (datalog_close env _ w1) as [[e2|] w2]; cbn [app]);
  try (destruct (index_close env _ w2) as [[e3|] w3]; cbn [app]);
  try (destruct (Unlock env _ w3) as [[e4|] w4]; cbn [app]);
  match goal with
  | |- exists _ _ _, _ /\ ?calls = _ /\ _ =>
      let n := eval cbv in (length calls) in
      let finish k :=
        (exists k, (take (n - 1) calls); eexists; cbn;
         (split; [lia|]); (split; [reflexivity|]);
         (split; [repeat constructor|]);
         (split; [reflexivity|]);
         first [left; reflexivity | right; discriminate]) in
      first [finish 1%nat | finish 2%nat | finish 3%nat | finish 4%nat]
  end.
Qed.

(** C10: once the advisory lock is acquired, every failure of [Open]
    releases it before [Open] returns, [lock.Unlock] being the last call
    made and the only release; when [Open] returns a DB the lock was not
    released. *)
Theorem C10_open_releases_lock_on_failure {W : Type}
    (env : Collaborators W) (path : string) (opts : option Options)
    (w w0 w1 : W) (lock : LockFile) (acquiredExistingLock : bool) :
  MkdirAll env path w = (None, w0) ->
  CreateLockFile env (copyWithDefaults env opts path) w0
  = (Ok (lock, acquiredExistingLock), w1) ->
  let '(res, (_, calls)) := Open env path opts (w, []) in
  match res with
  | Err _ =>
      exists (init : History) (o : option error),
        calls = init ++ [(CallUnlock lock, o)] /\
        Forall (fun c => isUnlock c = false) init
  | Ok _ => Forall (fun c => isUnlock c = false) calls
  end.
Proof.
  intros Hmk Hlock. run_engine. rewrite Hmk. cbn [app]. rewrite Hlock.
  cbn [app].
  destruct acquiredExistingLock;
  repeat match goal with
  | |- context [backupNonsegmentFiles env ?x] =>
      destruct (backupNonsegmentFiles env x) as [[?|] ?]; cbn [app]
  | |- context [openIndex env ?o ?x] =>
      destruct (openIndex env o x) as [[?|?] ?]; cbn [app]
  | |- context [openDatalog env ?o ?x] =>
      destruct (openDatalog env o x) as [[?|?] ?]; cbn [app]
  | |- context [index_count ?ix =? 0] =>
      destruct (index_count ix =? 0); cbn [app]
  | |- context [RandSeed env ?x] =>
      destruct (RandSeed env x) as [[?|?] ?]; cbn [app]
  | |- context [readGobFile env ?x] =>
      destruct (readGobFile env x) as [[?|?] ?]; cbn [app]
  | |- context [DB_recover env ?d ?x] =>
      destruct (DB_recover env d x) as [[? [?|]] ?]; cbn [app]
  | |- context [(?a >? 0) || (?b >? 0)] =>
      destruct ((a >? 0) || (b >? 0)); cbn [app]
  | |- context [Unlock env ?l ?x] =>
      destruct (Unlock env l x) as [? ?]; cbn [app]
  end;
  cbn;
  lazymatch goal with
  | |- exists _ _, ?calls = _ /\ _ =>
      let n := eval cbv in (length calls) in
      exists (take (n - 1) calls); eexists; cbn;
      split; [reflexivity | repeat constructor]
  | |- Forall _ _ => repeat constructor
  end.
Qed.

Lemma C10_open_releases_lock_on_failure_witness :
  exists (d' : Disk) (e : error) (init : History) (o : option error),
    Open (disk_env trivialRecover) "db" None
      (freshDisk [7] indexOpenFails, [])
    = (Err e, (d', init ++ [(CallUnlock (mkLockFile "lock"), o)])) /\
    Forall (fun c => isUnlock c = false) init /\
    d_lock d' = LockAbsent.
Proof.
  pose proof (C10_open_releases_lock_on_failure (disk_env trivialRecover)
                "db" None (freshDisk [7] indexOpenFails) _ _ _ _
                eq_refl eq_refl) as H.
  cbv beta iota zeta delta [Open Open_locked createLockFile bind call ret
    note fst snd] in H.
  cbn in H. destruct H as (init & o & Hc & Hi).
  eexists. eexists. exists init, o. cbn. rewrite <- Hc.
  split; [reflexivity|]. split; [exact Hi|reflexivity].
Defined.

(** C9 as stated fails: a store that was created and closed without any
    key is reopened with a newly generated seed, although its directory is
    not empty (it holds the metadata file with the first seed). *)
Lemma C9_seed_regenerated_counterexample :
  exists (db1 db2 : DB) (d1 d2 d3 : Disk) (h1 h2 h3 : History),
    Open (disk_env trivialRecover) "db" None (freshDisk [7; 9] noFaults, [])
    = (Ok db1, (d1, h1)) /\
    Close (disk_env trivialRecover) db1 (d1, h1) = (None, (d2, h2)) /\
    d_meta d2 = Some {| HashSeed := 7 |} /\
    Open (disk_env trivialRecover) "db" None (d2, h2) = (Ok db2, (d3, h3)) /\
    db_hashSeed db1 = 7 /\ db_hashSeed db2 = 9.
Proof.
  do 8 eexists.
  split; [vm_compute; reflexivity|].
  split; [vm_compute; reflexivity|].
  split; [reflexivity|].
  split; [vm_compute; reflexivity|].
  split; reflexivity.
Qed.

Lemma Close_disk_ok (recover : DB -> Disk -> (DB * option error) * Disk)
    (db : DB) (d d1 : Disk) (h h1 : History) :
  Close (disk_env recover) db (d, h) = (None, (d1, h1)) ->
  d1 = {| d_lock := LockAbsent;
          d_meta := Some {| HashSeed := db_hashSeed db |};
          d_index := db_index db;
          d_datalog := db_datalog db;
          d_backup := d_backup d;
          d_entropy := d_entropy d;
          d_faults := d_faults d |}.
Proof.
  run_engine. unfold disk_env, faulty.
  cbn [writeGobFile datalog_close index_close Unlock].
  destruct (db_cancelBgWorker db);
  destruct (d_faults d OpWriteGobFile) eqn:F1; cbn; try discriminate;
  destruct (d_faults d OpDatalogClose) eqn:F2; cbn; try discriminate;
  destruct (d_faults d OpIndexClose) eqn:F3; cbn; try discriminate;
  destruct (d_faults d OpUnlock) eqn:F4; cbn; try discriminate;
  intros [= <- _]; reflexivity.
Qed.

(** C9, amended: [Open] generates a seed exactly when the index it opens
    is empty, and reads the seed from the metadata file otherwise; [Close]
    writes the seed to that file. So, across a [Close] that succeeds and
    the next [Open] that succeeds, a store whose index holds at least one
    key keeps its seed, and a store whose index is empty gets the next
    seed of the random source. *)
Theorem C9_seed_across_restart
    (recover : DB -> Disk -> (DB * option error) * Disk)
    (db db' : DB) (d d1 d2 : Disk) (h h1 h2 : History)
    (path : string) (opts : option Options) :
  Close (disk_env recover) db (d, h) = (None, (d1, h1)) ->
  Open (disk_env recover) path opts (d1, h1) = (Ok db', (d2, h2)) ->
  if index_count (db_index db) =? 0
  then exists (seed : Z) (rest : list Z),
         d_entropy d = seed :: rest /\ db_hashSeed db' = uint32 seed
  else db_hashSeed db' = db_hashSeed db.
Proof.
  intros Hclose Hopen. apply Close_disk_ok in Hclose. subst d1.
  revert Hopen. run_engine.
  unfold disk_env, faulty, disk_CreateLockFile, disk_RandSeed,
    disk_readGobFile.
  cbn [MkdirAll CreateLockFile Unlock openIndex openDatalog RandSeed
       readGobFile copyWithDefaults d_faults d_lock d_index d_datalog
       d_meta d_entropy disk_set_lock faulty].
  destruct (d_faults d OpMkdirAll); cbn; [discriminate|].
  unfold faulty. cbn [d_faults d_lock disk_set_lock].
  destruct (d_faults d OpCreateLockFile); cbn.
  { destruct e; discriminate. }
  destruct (d_faults d OpOpenIndex); cbn.
  { destruct (d_faults d OpUnlock); discriminate. }
  destruct (d_faults d OpOpenDatalog); cbn.
  { destruct (d_faults d OpUnlock); discriminate. }
  destruct (index_count (db_index db) =? 0); cbn.
  - destruct (d_faults d OpRandSeed); cbn.
    { destruct (d_faults d OpUnlock); discriminate. }
    destruct (d_entropy d) as [|seed rest]; cbn.
    { destruct (d_faults d OpUnlock); discriminate. }
    destruct (_ || _); cbn; intros [= <- _ _]; eauto.
  - destruct (d_faults d OpReadGobFile); cbn.
    { destruct (d_faults d OpUnlock); discriminate. }
    destruct (_ || _); cbn; intros [= <- _ _]; reflexivity.
Qed.

Lemma C9_seed_across_restart_witness :
  let db := fst (Put crcHash (fun _ => None) emptyDB [x61]) in
  exists (db' : DB) (d1 d2 : Disk) (h1 h2 : History),
    Close (disk_env trivialRecover) db (diskInUse noFaults, [])
    = (None, (d1, h1)) /\
    Open (disk_env trivialRecover) "db" None (d1, h1) = (Ok db', (d2, h2)) /\
    db_hashSeed db' = db_hashSeed db.
Proof.
  cbv zeta.
  destruct (Close (disk_env trivialRecover)
              (fst (Put crcHash (fun _ => None) emptyDB [x61]))
              (diskInUse noFaults, [])) as [err [d1 h1]] eqn:Hclose.
  destruct (Open (disk_env trivialRecover) "db" None (d1, h1))
    as [res [d2 h2]] eqn:Hopen.
  assert (Herr : err = None).
  { vm_compute in Hclose. injection Hclose as <- _ _. reflexivity. }
  subst err.
  assert (Hres : exists db', res = Ok db').
  { vm_compute in Hclose. injection Hclose as <- <-.
    vm_compute in Hopen. injection Hopen as <- _ _. eauto. }
  destruct Hres as [db' ->].
  exists db', d1, d2, h1, h2. split; [reflexivity|]. split; [exact Hopen|].
  exact (C9_seed_across_restart trivialRecover _ db' _ d1 d2 _ h1 h2
           "db" None Hclose Hopen).
Defined.

(** * Further properties *)

(** ** The record codec *)

(** The parts of an encoded record, read back from its bytes. *)
Lemma encodePutRecord_parts (key : list byte) :
  len key <= MaxKeyLength ->
  let data := encodePutRecord key in
  len data = encodedRecordSize (len key) /\
  LittleEndian.Uint16 (take 2 data) = len key /\
  take (length key) (drop 2 data) = key /\
  LittleEndian.Uint32 (drop (2 + length key) data)
  = crc32.ChecksumIEEE (take (2 + length key) data).
Proof.
  intros Hlen. cbv zeta.
  pose proof (encodePutRecord_length key Hlen) as Hl.
  split.
  { unfold encodedRecordSize, uint32, len, MaxKeyLength in *.
    rewrite Z.mod_small by lia. lia. }
  split.
  { rewrite <- (app_nil_r (encodePutRecord key)).
    apply (declaredKeySize_encoded key [] Hlen). }
  rewrite encodePutRecord_layout by exact Hlen.
  split.
  { cbn [sizeBytes app drop]. apply take_app_length. }
  rewrite app_assoc.
  replace (2 + length key)%nat with (length (sizeBytes key ++ key))
    by (rewrite length_app; reflexivity).
  rewrite drop_app_length, take_app_length. apply Uint32_crcBytes.
Qed.

(** X1: the record [encodePutRecord] writes for a key of at most
    [MaxKeyLength] bytes has [encodedRecordSize (len key)] bytes: the key
    size in two bytes, little endian, then the key, then the CRC-32 of all
    that precedes it in four bytes, little endian. *)
Theorem X1_encoded_record_format (key : list byte) :
  len key <= MaxKeyLength ->
  let data := encodePutRecord key in
  len data = encodedRecordSize (len key) /\
  LittleEndian.Uint16 (take 2 data) = len key /\
  take (length key) (drop 2 data) = key /\
  LittleEndian.Uint32 (drop (2 + length key) data)
  = crc32.ChecksumIEEE (take (2 + length key) data).
Proof.
  intros Hlen. exact (encodePutRecord_parts key Hlen).
Qed.

Lemma X1_encoded_record_format_witness :
  let data := encodePutRecord [x61; x62] in
  data = [x02; x00; x61; x62; x05; x4d; x17; x54] /\
  len data = encodedRecordSize 2 /\
  LittleEndian.Uint16 (take 2 data) = 2 /\
  take 2 (drop 2 data) = [x61; x62] /\
  LittleEndian.Uint32 (drop 4 data) = crc32.ChecksumIEEE (take 4 data).
Proof.
  cbv zeta. split; [vm_compute; reflexivity|].
  apply (X1_encoded_record_format [x61; x62]). vm_compute. discriminate.
Defined.

(** X2: the checksum verification of [next] accepts the record the encoder
    wrote and hands back the key: on the bytes of [encodePutRecord key],
    with the key size they declare, it returns a record whose key is [key]
    and whose data are those bytes, at the iterator's offset, and advances
    the offset by the record size. *)
Theorem X2_verification_accepts_encoded_record (it : segmentIterator)
    (key : list byte) :
  len key <= MaxKeyLength ->
  finishRecord it (len key) (encodedRecordSize (len key))
    (encodePutRecord key)
  = (Ok {| rec_segmentID := seg_id (it_f it);
           rec_offset := it_offset it;
           rec_data := encodePutRecord key;
           rec_key := key |},
     {| it_f := it_f it;
        it_offset := uint32 (it_offset it + len (encodePutRecord key));
        it_r := it_r it;
        it_buf := it_buf it |}).
Proof.
  intros Hlen.
  destruct (encodePutRecord_parts key Hlen) as (Hsz & _ & _ & _).
  rewrite <- Hsz.
  rewrite encodePutRecord_layout by exact Hlen. rewrite app_assoc.
  rewrite finishRecord_match; [|reflexivity|apply Uint32_crcBytes].
  do 3 f_equal. rewrite <- app_assoc. cbn [sizeBytes app drop].
  unfold len. rewrite Nat2Z.id. apply take_app_length.
Qed.

Lemma X2_verification_accepts_encoded_record_witness :
  fst (finishRecord (reader (segmentFile 0 1 []) 512 []) 1 7
         (encodePutRecord [x61]))
  = Ok {| rec_segmentID := 1; rec_offset := 512;
          rec_data := encodePutRecord [x61]; rec_key := [x61] |}.
Proof.
  pose proof (X2_verification_accepts_encoded_record
                (reader (segmentFile 0 1 []) 512 []) [x61]
                ltac:(vm_compute; discriminate)) as H.
  apply (f_equal fst) in H. exact H.
Defined.

(** X3: [encodePutRecord] is injective on keys of at most [MaxKeyLength]
    bytes: two keys with the same record are the same key. *)
Theorem X3_encodePutRecord_injective (key1 key2 : list byte) :
  len key1 <= MaxKeyLength -> len key2 <= MaxKeyLength ->
  encodePutRecord key1 = encodePutRecord key2 -> key1 = key2.
Proof.
  intros H1 H2 E.
  destruct (encodePutRecord_parts key1 H1) as (_ & Hs1 & Hk1 & _).
  destruct (encodePutRecord_parts key2 H2) as (_ & Hs2 & Hk2 & _).
  rewrite E in Hs1, Hk1.
  assert (length key1 = length key2) by (unfold len in *; lia).
  congruence.
Qed.

Lemma X3_encodePutRecord_injective_witness :
  len [x61; x62] <= MaxKeyLength /\
  encodePutRecord [x61; x62] = [x02; x00; x61; x62; x05; x4d; x17; x54] /\
  [x61; x62] = [x61; x62].
Proof.
  assert (Hlen : len [x61; x62] <= MaxKeyLength)
    by (vm_compute; discriminate).
  split; [exact Hlen|]. split; [vm_compute; reflexivity|].
  exact (X3_encodePutRecord_injective [x61; x62] [x61; x62] Hlen Hlen
           eq_refl).
Defined.

(** ** The segment iterator *)

(** What a successful [next] read and returned. *)
Lemma next_Ok_shape (it it' : segmentIterator) (rec : record) :
  length (it_buf it) = 6%nat ->
  next it = (Ok rec, it') ->
  let r := it_r it in
  let keySize := declaredKeySize r in
  6 + keySize + 4 <= len r /\
  rec_data rec = take 2 r ++ take (Z.to_nat (keySize + 4)) (drop 6 r) /\
  rec_key rec = take (Z.to_nat keySize) (drop 6 r) /\
  rec_segmentID rec = seg_id (it_f it) /\
  rec_offset rec = it_offset it /\
  LittleEndian.Uint32 (drop (length (rec_data rec) - 4) (rec_data rec))
  = crc32.ChecksumIEEE (take (length (rec_data rec) - 4) (rec_data rec)) /\
  it' = {| it_f := it_f it;
           it_offset := uint32 (it_offset it + (2 + keySize + 4));
           it_r := drop (Z.to_nat (6 + keySize + 4)) r;
           it_buf := take 6 r |}.
Proof.
  intros Hb Hn. cbv zeta. apply (f_equal fst) in Hn as Hf. cbn [fst] in Hf.
  destruct (Nat.lt_ge_cases (length (it_r it)) 6) as [H6|H6].
  { rewrite next_short in Hf by assumption.
    destruct (it_r it); discriminate Hf. }
  destruct (Z.lt_ge_cases (len (it_r it))
              (6 + declaredKeySize (it_r it) + 4)) as [Hl|Hl].
  { rewrite next_truncated in Hf by assumption.
    destruct (drop 6 (it_r it)); discriminate Hf. }
  pose proof (declaredKeySize_range (it_r it)) as Hk.
  rewrite next_complete in Hn by assumption. unfold finishRecord in Hn.
  destruct (Z.eqb_spec
              (LittleEndian.Uint32
                 (drop (length (take 2 (it_r it) ++
                          take (Z.to_nat (declaredKeySize (it_r it) + 4))
                            (drop 6 (it_r it))) - 4)
                    (take 2 (it_r it) ++
                     take (Z.to_nat (declaredKeySize (it_r it) + 4))
                       (drop 6 (it_r it)))))
              (crc32.ChecksumIEEE
                 (take (length (take 2 (it_r it) ++
                          take (Z.to_nat (declaredKeySize (it_r it) + 4))
                            (drop 6 (it_r it))) - 4)
                    (take 2 (it_r it) ++
                     take (Z.to_nat (declaredKeySize (it_r it) + 4))
                       (drop 6 (it_r it)))))) as [Hcrc|Hcrc];
    cbn [negb] in Hn; [|discriminate Hn].
  injection Hn as <- <-.
  cbn [rec_data rec_key rec_segmentID rec_offset set_reader it_f it_offset
       it_r it_buf].
  unfold len in *.
  repeat split; try reflexivity; try assumption.
  rewrite drop_app_length' by (rewrite length_take; lia).
  rewrite take_take. f_equal. lia.
Qed.

(** X4: [next] never returns a record whose checksum does not match. The
    data of a record it returns are two size bytes declaring a key size,
    that many key bytes and four checksum bytes; the checksum bytes hold
    the CRC-32 of the others, and the key of the record is the key bytes. *)
Theorem X4_next_returns_verified_records (it it' : segmentIterator)
    (rec : record) :
  length (it_buf it) = 6%nat ->
  next it = (Ok rec, it') ->
  let data := rec_data rec in
  let keySize := LittleEndian.Uint16 (take 2 data) in
  len data = encodedRecordSize keySize /\
  rec_key rec = take (Z.to_nat keySize) (drop 2 data) /\
  len (rec_key rec) = keySize /\
  LittleEndian.Uint32 (drop (length data - 4) data)
  = crc32.ChecksumIEEE (take (length data - 4) data).
Proof.
  intros Hb Hn. cbv zeta.
  destruct (next_Ok_shape it it' rec Hb Hn)
    as (Hl & Hd & Hk & _ & _ & Hcrc & _).
  pose proof (declaredKeySize_range (it_r it)) as Hr.
  unfold len in *.
  assert (Hks : LittleEndian.Uint16 (take 2 (rec_data rec))
                = declaredKeySize (it_r it)).
  { rewrite Hd. rewrite take_app_length' by (rewrite length_take; lia).
    reflexivity. }
  rewrite Hks. split.
  { unfold encodedRecordSize, uint32. rewrite Z.mod_small by lia.
    rewrite Hd, length_app, !length_take, length_drop. lia. }
  split.
  { rewrite Hk, Hd.
    rewrite drop_app_length' by (rewrite length_take; lia).
    rewrite take_take. f_equal. lia. }
  split; [|exact Hcrc].
  rewrite Hk, length_take, length_drop. lia.
Qed.

Lemma X4_next_returns_verified_records_witness :
  exists (it' : segmentIterator) (rec : record),
    next (reader (segmentFile 0 1 []) 0
            (encodePutRecord [] ++ encodePutRecord longKey))
    = (Ok rec, it') /\
    len (rec_data rec) = 6 /\ rec_key rec = [] /\
    LittleEndian.Uint32 (drop 2 (rec_data rec))
    = crc32.ChecksumIEEE (take 2 (rec_data rec)).
Proof.
  assert (H : exists it' rec,
    next (reader (segmentFile 0 1 []) 0
            (encodePutRecord [] ++ encodePutRecord longKey))
    = (Ok rec, it') /\ rec_data rec = [x00; x00; xff; x12; xd9; x41]).
  { do 2 eexists. split; vm_compute; reflexivity. }
  destruct H as (it' & rec & Hn & Hd).
  exists it', rec. split; [exact Hn|].
  destruct (X4_next_returns_verified_records
              (reader (segmentFile 0 1 []) 0
                 (encodePutRecord [] ++ encodePutRecord longKey))
              it' rec eq_refl Hn)
    as (Hl & Hk & _ & Hc).
  rewrite Hd in *. cbn in Hl, Hk, Hc.
  repeat split; assumption.
Defined.

(** X5: how far a successful [next] moves. It takes the key size from the
    first two bytes of the stream, skips the four bytes that follow and
    takes the key and the checksum from the bytes after them: the stream
    moves on by [6 + keySize + 4] bytes while the offset grows by
    [2 + keySize + 4], the length of the record data. *)
Theorem X5_next_stream_and_offset (it it' : segmentIterator) (rec : record) :
  length (it_buf it) = 6%nat ->
  next it = (Ok rec, it') ->
  let keySize := declaredKeySize (it_r it) in
  rec_data rec
  = take 2 (it_r it) ++ take (Z.to_nat (keySize + 4)) (drop 6 (it_r it)) /\
  it_r it' = drop (Z.to_nat (6 + keySize + 4)) (it_r it) /\
  it_offset it' = uint32 (it_offset it + (2 + keySize + 4)) /\
  it_f it' = it_f it.
Proof.
  intros Hb Hn. cbv zeta.
  destruct (next_Ok_shape it it' rec Hb Hn)
    as (_ & Hd & _ & _ & _ & _ & ->).
  repeat split. exact Hd.
Qed.

Lemma X5_next_stream_and_offset_witness :
  exists (it' : segmentIterator) (rec : record),
    next (reader (segmentFile 0 1 []) 0
            (encodePutRecord [] ++ encodePutRecord longKey))
    = (Ok rec, it') /\
    it_offset it' = 6 /\
    it_r it' = drop 10 (encodePutRecord [] ++ encodePutRecord longKey).
Proof.
  assert (H : exists it' rec,
    next (reader (segmentFile 0 1 []) 0
            (encodePutRecord [] ++ encodePutRecord longKey))
    = (Ok rec, it')).
  { do 2 eexists. vm_compute. reflexivity. }
  destruct H as (it' & rec & Hn).
  exists it', rec. split; [exact Hn|].
  destruct (X5_next_stream_and_offset
              (reader (segmentFile 0 1 []) 0
                 (encodePutRecord [] ++ encodePutRecord longKey))
              it' rec eq_refl Hn)
    as (_ & Hr & Ho & _).
  split; [exact Ho|exact Hr].
Defined.

(** What a failing [next] returns and leaves behind. *)
Lemma next_Err_shape (it : segmentIterator) (e : error) :
  length (it_buf it) = 6%nat ->
  fst (next it) = Err e ->
  it_offset (snd (next it)) = it_offset it /\
  it_f (snd (next it)) = it_f it /\
  length (it_buf (snd (next it))) = 6%nat /\
  ((e = ErrIterationDone /\ it_r it = [] /\ it_r (snd (next it)) = []) \/
   (e = io_ErrUnexpectedEOF /\ it_r it <> [] /\ it_r (snd (next it)) = []) \/
   (e = io_EOF /\ it_r it <> [] /\ it_r (snd (next it)) = []) \/
   (e = errCorrupted /\
    it_r (snd (next it))
    = drop (Z.to_nat (6 + declaredKeySize (it_r it) + 4)) (it_r it))).
Proof.
  intros Hb. pose proof (next_keeps_buffer it Hb) as Hb'.
  destruct (Nat.lt_ge_cases (length (it_r it)) 6) as [H6|H6].
  - unfold next. rewrite ReadFull_short by lia.
    destruct (it_r it) as [|b r] eqn:Hr; cbn [fst snd set_reader it_offset
      it_f it_r]; intros [= <-].
    + repeat split; try reflexivity;
        try (cbn [set_reader it_buf]; rewrite copy_length; exact Hb);
        auto.
    + repeat split; try reflexivity;
        try (cbn [set_reader it_buf]; rewrite copy_length; exact Hb).
      right. left. repeat split. discriminate.
  - destruct (Z.lt_ge_cases (len (it_r it))
                (6 + declaredKeySize (it_r it) + 4)) as [Hl|Hl].
    + assert (Hne : it_r it <> []).
      { intros E. rewrite E in H6. cbn in H6. lia. }
      pose proof (declaredKeySize_range (it_r it)) as Hk.
      revert Hb'. rewrite next_prefix by assumption. cbv zeta.
      rewrite ReadFull_short
        by (rewrite !length_drop, length_app, length_take, length_replicate;
            unfold len in Hl; lia).
      cbn [fst snd set_reader it_offset it_f it_r it_buf].
      intros Hb' He.
      repeat split; try reflexivity; try exact Hb'.
      destruct (drop 6 (it_r it)); injection He as <-; auto 6.
    + revert Hb'. rewrite next_complete by assumption.
      unfold finishRecord. destruct (negb _);
        cbn [fst snd set_reader it_offset it_f it_r it_buf];
        intros Hb' [= <-].
      repeat split; try reflexivity; try exact Hb'. auto 6.
Qed.

(** X6: the end of the iteration is permanent. Once [next] has returned
    [ErrIterationDone] every later call returns [ErrIterationDone] as well,
    and the offset of the iterator stays where it was. *)
Theorem X6_iteration_done_is_permanent (it : segmentIterator) (n : nat) :
  length (it_buf it) = 6%nat ->
  fst (next it) = Err ErrIterationDone ->
  let later := Nat.iter n (fun i => snd (next i)) it in
  fst (next later) = Err ErrIterationDone /\
  it_offset later = it_offset it.
Proof.
  intros Hb Hdone. cbv zeta.
  assert (Hr : it_r it = []).
  { destruct (next_Err_shape it _ Hb Hdone)
      as (_ & _ & _ & [(_ & H & _)|[(H & _)|[(H & _)|(H & _)]]]);
      [exact H|discriminate H..]. }
  clear Hdone.
  assert (H : length (it_buf (Nat.iter n (fun i => snd (next i)) it)) = 6%nat
              /\ it_r (Nat.iter n (fun i => snd (next i)) it) = []
              /\ it_offset (Nat.iter n (fun i => snd (next i)) it)
                 = it_offset it).
  { induction n as [|n (IHb & IHr & IHo)]; [auto|].
    rewrite !Nat.iter_succ.
    set (prev := Nat.iter n (fun i => snd (next i)) it) in *.
    assert (Hd : fst (next prev) = Err ErrIterationDone).
    { rewrite next_short by (rewrite ?IHr; cbn; lia || exact IHb).
      rewrite IHr. reflexivity. }
    destruct (next_Err_shape prev _ IHb Hd)
      as (Ho & _ & Hb1 & [(_ & _ & H)|[(H & _)|[(H & _)|(H & _)]]]);
      [|discriminate H..].
    repeat split; [exact Hb1|exact H|rewrite Ho; exact IHo]. }
  destruct H as (Hb' & Hr' & Ho'). split; [|exact Ho'].
  rewrite next_short by (rewrite ?Hr'; cbn; lia || exact Hb').
  rewrite Hr'. reflexivity.
Qed.

Lemma X6_iteration_done_is_permanent_witness :
  fst (next (Nat.iter 8 (fun i => snd (next i))
               (reader (segmentFile 0 1 []) 512 [])))
  = Err ErrIterationDone.
Proof.
  apply (X6_iteration_done_is_permanent
           (reader (segmentFile 0 1 []) 512 []) 8 eq_refl eq_refl).
Defined.

(** [next] over a file whose reads can fail does what [next] does, but for
    the error of a failed read. *)
Lemma next_io_next (tail : error) (it : segmentIterator) :
  length (it_buf it) = 6%nat ->
  next_io tail it
  = match next it with
    | (Ok rec, it') => (Ok rec, it')
    | (Err ErrIterationDone, it') =>
        (Err match tail with
             | io_EOF => ErrIterationDone
             | _ => tail
             end, it')
    | (Err io_ErrUnexpectedEOF, it') =>
        (Err match tail with
             | io_EOF => io_ErrUnexpectedEOF
             | _ => tail
             end, it')
    | (Err io_EOF, it') => (Err tail, it')
    | (Err e, it') => (Err e, it')
    end.
Proof.
  intros Hb. unfold next_io, next.
  destruct (it_buf it) as [|b0 buf]; [discriminate Hb|].
  unfold ReadFull_io at 1, ReadFull at 1.
  destruct (it_r it) as [|x r].
  { cbn [length Nat.ltb Nat.leb]. destruct tail; reflexivity. }
  destruct (length (x :: r) <? length (b0 :: buf))%nat.
  { destruct tail; reflexivity. }
  cbv zeta.
  match goal with
  | |- context [ReadFull ?rest ?want] =>
      generalize want; generalize rest; intros r2 d
  end.
  unfold ReadFull_io, ReadFull.
  destruct d as [|d0 d].
  { unfold finishRecord. destruct (negb _); reflexivity. }
  destruct r2 as [|y r2].
  { cbn [length Nat.ltb Nat.leb]. destruct tail; reflexivity. }
  destruct (length (y :: r2) <? length (d0 :: d))%nat.
  { destruct tail; reflexivity. }
  unfold finishRecord. destruct (negb _); reflexivity.
Qed.

Lemma next_io_EOF (it : segmentIterator) :
  length (it_buf it) = 6%nat -> next_io io_EOF it = next it.
Proof.
  intros Hb. rewrite next_io_next by exact Hb.
  destruct (next it) as [[rec|e] it']; [reflexivity|].
  destruct e; reflexivity.
Qed.

(** X7: the errors of [next], on a file whose reads can fail. A call that
    fails leaves the offset of the iterator unchanged. The error of a
    failed read is returned as it is and never as the end of the
    iteration; at the end of a file that reads well the error is
    [ErrIterationDone], [io.ErrUnexpectedEOF] or [io.EOF]; otherwise it is
    [errCorrupted]. On a file that reads well, unless the error is
    [errCorrupted] the stream is exhausted, so that the call after it
    returns [ErrIterationDone]. *)
Theorem X7_next_errors (tail : error) (it : segmentIterator) (e : error) :
  length (it_buf it) = 6%nat ->
  fst (next_io tail it) = Err e ->
  it_offset (snd (next_io tail it)) = it_offset it /\
  ((tail = io_EOF /\
    (e = ErrIterationDone \/ e = io_ErrUnexpectedEOF \/ e = io_EOF)) \/
   (tail <> io_EOF /\ e = tail) \/
   e = errCorrupted) /\
  (tail = io_EOF -> e <> errCorrupted ->
   fst (next_io tail (snd (next_io tail it))) = Err ErrIterationDone).
Proof.
  intros Hb He.
  assert (Hshape : exists e0,
             fst (next it) = Err e0 /\
             snd (next_io tail it) = snd (next it) /\
             e = match e0 with
                 | ErrIterationDone =>
                     match tail with io_EOF => ErrIterationDone | _ => tail end
                 | io_ErrUnexpectedEOF =>
                     match tail with
                     | io_EOF => io_ErrUnexpectedEOF
                     | _ => tail
                     end
                 | io_EOF => tail
                 | _ => e0
                 end).
  { rewrite next_io_next in He |- * by exact Hb.
    destruct (next it) as [[rec|e0] it']; [discriminate He|].
    exists e0. split; [reflexivity|].
    destruct e0; cbn [fst snd] in He |- *; injection He as <-; auto. }
  destruct Hshape as (e0 & He0 & Hsnd & ->).
  destruct (next_Err_shape it e0 Hb He0) as (Ho & _ & Hb' & Hcases).
  split; [rewrite Hsnd; exact Ho|]. split.
  - destruct Hcases as [(-> & _)|[(-> & _)|[(-> & _)|(-> & _)]]];
      try (destruct tail; (left; split; [reflexivity|]; auto) ||
                          (right; left; split; [discriminate|reflexivity]));
      auto.
  - intros -> Hne. rewrite Hsnd.
    rewrite next_io_EOF by exact Hb'.
    assert (Hr : it_r (snd (next it)) = []).
    { destruct Hcases as [(_ & _ & H)|[(_ & _ & H)|[(_ & _ & H)|(-> & _)]]];
        [exact H..|contradiction]. }
    rewrite next_short by (rewrite ?Hr; cbn; lia || exact Hb').
    rewrite Hr. reflexivity.
Qed.

Lemma X7_next_errors_witness :
  let it := reader (segmentFile 0 1 []) 512
              [x03; x00; x61; x62; x63; x00; x00] in
  (fst (next_io (IOError "input/output error") it)
   = Err (IOError "input/output error") /\
   it_offset (snd (next_io (IOError "input/output error") it)) = 512) /\
  fst (next_io io_EOF it) = Err io_ErrUnexpectedEOF /\
  fst (next_io io_EOF (snd (next_io io_EOF it))) = Err ErrIterationDone.
Proof.
  cbv zeta.
  assert (He : fst (next_io (IOError "input/output error")
                      (reader (segmentFile 0 1 []) 512
                         [x03; x00; x61; x62; x63; x00; x00]))
               = Err (IOError "input/output error"))
    by (vm_compute; reflexivity).
  assert (He' : fst (next_io io_EOF
                       (reader (segmentFile 0 1 []) 512
                          [x03; x00; x61; x62; x63; x00; x00]))
                = Err io_ErrUnexpectedEOF) by (vm_compute; reflexivity).
  split.
  - destruct (X7_next_errors (IOError "input/output error")
                (reader (segmentFile 0 1 []) 512
                   [x03; x00; x61; x62; x63; x00; x00])
                _ eq_refl He) as (Ho & _).
    split; [exact He|exact Ho].
  - destruct (X7_next_errors io_EOF
                (reader (segmentFile 0 1 []) 512
                   [x03; x00; x61; x62; x63; x00; x00])
                _ eq_refl He') as (_ & _ & Hnext).
    split; [exact He'|]. apply Hnext; [reflexivity|discriminate].
Defined.

(** X8: a segment file that holds no more than its header has no record:
    the first [next] of a fresh iterator returns [ErrIterationDone]. *)
Theorem X8_header_only_segment (headerSize : Z) (f : segment) :
  0 <= headerSize ->
  len (seg_bytes f) <= headerSize ->
  exists it : segmentIterator,
    newSegmentIterator headerSize f = Ok it /\
    it_offset it = uint32 headerSize /\
    fst (next it) = Err ErrIterationDone.
Proof.
  intros H0 Hl. unfold newSegmentIterator, Seek.
  destruct (Z.ltb_spec headerSize 0); [lia|].
  eexists. split; [reflexivity|]. split; [reflexivity|].
  assert (Hr : drop (Z.to_nat headerSize) (seg_bytes f) = []).
  { apply drop_ge. unfold len in Hl. lia. }
  rewrite next_short; cbn [it_r it_buf]; rewrite ?Hr; cbn; auto; lia.
Qed.

Lemma X8_header_only_segment_witness :
  exists it : segmentIterator,
    newSegmentIterator 512 (segmentFile 512 1 []) = Ok it /\
    it_offset it = uint32 512 /\
    fst (next it) = Err ErrIterationDone.
Proof.
  apply (X8_header_only_segment 512 (segmentFile 512 1 [])).
  - lia.
  - vm_compute. discriminate.
Defined.

(** X25: where [next] reads the key and the checksum of a record, six
    bytes after the start of its size prefix, it detects every flipped
    bit. On a stream that holds the size prefix of the record of a key,
    four more bytes, and then the key and checksum bytes of that record
    with one bit flipped, [next] returns [errCorrupted]; it does not
    return a record. *)
Theorem X25_next_detects_flipped_bit (it : segmentIterator)
    (key gap rest : list byte) (i : nat) (bit : Z) :
  length (it_buf it) = 6%nat ->
  len key <= MaxKeyLength ->
  length gap = 4%nat ->
  (2 <= i < length (encodePutRecord key))%nat ->
  0 <= bit < 8 ->
  it_r it
  = take 2 (encodePutRecord key) ++ gap
    ++ drop 2 (flipBit i bit (encodePutRecord key)) ++ rest ->
  fst (next it) = Err errCorrupted.
Proof.
  intros Hb Hlen Hgap Hi Hbit Hr.
  pose proof (encodePutRecord_length key Hlen) as Hl.
  assert (Hfl : length (flipBit i bit (encodePutRecord key))
                = length (encodePutRecord key))
    by (unfold flipBit; apply length_alter).
  assert (Ht2 : take 2 (flipBit i bit (encodePutRecord key))
                = take 2 (encodePutRecord key))
    by (unfold flipBit; rewrite take_alter;
        destruct (decide (i < 2)%nat); [lia|reflexivity]).
  assert (Hk : declaredKeySize (it_r it) = len key).
  { unfold declaredKeySize. rewrite Hr.
    rewrite take_app_length'
      by (rewrite length_take; unfold len in *; lia).
    rewrite <- (app_nil_r (encodePutRecord key)).
    apply (declaredKeySize_encoded key [] Hlen). }
  assert (H2 : length (take 2 (encodePutRecord key)) = 2%nat)
    by (rewrite length_take; lia).
  rewrite next_complete; rewrite ?Hk.
  2: exact Hb.
  2: { unfold len in *. rewrite Hr, !length_app, H2, Hgap, length_drop, Hfl.
       lia. }
  replace (take 2 (it_r it)
           ++ take (Z.to_nat (len key + 4)) (drop 6 (it_r it)))
    with (flipBit i bit (encodePutRecord key)).
  { apply flipped_record_mismatch; [exact Hlen|lia|exact Hbit]. }
  rewrite Hr.
  rewrite take_app_length' by (symmetry; exact H2).
  rewrite (app_assoc (take 2 _) gap).
  rewrite drop_app_length' by (rewrite length_app, H2, Hgap; reflexivity).
  rewrite take_app_length'
    by (rewrite length_drop, Hfl; unfold len in *; lia).
  rewrite <- Ht2. symmetry. apply take_drop.
Qed.

Lemma X25_next_detects_flipped_bit_witness :
  flipBit 2 5 (encodePutRecord [x61]) = [x01; x00; x41; xeb; xe2; x36; xc4] /\
  fst (next (reader (segmentFile 0 1 []) 512
               [x01; x00; x00; x00; x00; x00; x41; xeb; xe2; x36; xc4]))
  = Err errCorrupted.
Proof.
  split; [vm_compute; reflexivity|].
  apply (X25_next_detects_flipped_bit
           (reader (segmentFile 0 1 []) 512
              [x01; x00; x00; x00; x00; x00; x41; xeb; xe2; x36; xc4])
           [x61] [x00; x00; x00; x00] [] 2 5).
  - reflexivity.
  - vm_compute. discriminate.
  - reflexivity.
  - vm_compute. lia.
  - lia.
  - vm_compute. reflexivity.
Defined.

(** ** File names *)

Lemma digitsValue_acc (s : list byte) (a : Z) :
  fold_left (fun acc c => 10 * acc + (byte_to_Z c - 48)) s a
  = a * 10 ^ len s + digitsValue s.
Proof.
  unfold digitsValue, len. revert a.
  induction s as [|c s IH]; intros a.
  - cbn. lia.
  - cbn [fold_left length]. rewrite IH, (IH (10 * 0 + _)).
    rewrite Nat2Z.inj_succ, Z.pow_succ_r by lia. lia.
Qed.

Lemma digitsValue_cons (c : byte) (s : list byte) :
  digitsValue (c :: s) = (byte_to_Z c - 48) * 10 ^ len s + digitsValue s.
Proof.
  unfold digitsValue at 1. cbn [fold_left]. rewrite digitsValue_acc. lia.
Qed.

Lemma digitsValue_zeros (k : nat) (s : list byte) :
  digitsValue (replicate k x30 ++ s) = digitsValue s.
Proof.
  induction k as [|k IH]; [reflexivity|].
  cbn [replicate app]. rewrite digitsValue_cons, IH.
  change (byte_to_Z x30) with 48. lia.
Qed.

Lemma byte_to_Z_digit (d : Z) : 0 <= d < 10 -> byte_to_Z (digit d) = 48 + d.
Proof.
  intros Hd. unfold digit. rewrite byte_to_of_Z. apply Z.mod_small. lia.
Qed.

Lemma decimal_go_value (fuel : nat) :
  forall (n : Z) (acc : list byte),
  0 <= n < 10 ^ Z.of_nat fuel -> (0 < fuel)%nat ->
  digitsValue (decimal_go fuel n acc) = n * 10 ^ len acc + digitsValue acc.
Proof.
  induction fuel as [|fuel IH]; intros n acc Hn Hf; [lia|].
  cbn [decimal_go].
  pose proof (Z.mod_pos_bound n 10 ltac:(lia)) as Hm.
  pose proof (Z.div_mod n 10 ltac:(lia)) as Hd.
  assert (Hv : digitsValue (digit (n mod 10) :: acc)
               = (n mod 10) * 10 ^ len acc + digitsValue acc).
  { rewrite digitsValue_cons, byte_to_Z_digit by lia. lia. }
  destruct (Z.eqb_spec (n / 10) 0) as [E|E].
  - rewrite Hv. replace (n mod 10) with n by lia. reflexivity.
  - assert (Hq : 0 <= n / 10 < 10 ^ Z.of_nat fuel).
    { split; [apply Z.div_pos; lia|].
      apply Z.div_lt_upper_bound; [lia|].
      rewrite Nat2Z.inj_succ, Z.pow_succ_r in Hn by lia. lia. }
    destruct fuel as [|fuel]; [cbn in Hq; lia|].
    rewrite IH by (assumption || lia). rewrite Hv.
    unfold len. cbn [length]. rewrite Nat2Z.inj_succ, Z.pow_succ_r by lia.
    fold (len acc). nia.
Qed.

Lemma decimal_value (n : Z) : 0 <= n < 2 ^ 64 -> digitsValue (decimal n) = n.
Proof.
  intros Hn. unfold decimal.
  assert (H20 : 2 ^ 64 < 10 ^ Z.of_nat 20) by (vm_compute; reflexivity).
  rewrite decimal_go_value by lia.
  change (len []) with 0. change (digitsValue []) with 0. lia.
Qed.

Lemma decimal_go_length (fuel : nat) :
  forall (k : nat) (n : Z) (acc : list byte),
  0 <= n < 10 ^ Z.of_nat k -> (0 < k <= fuel)%nat ->
  (length acc < length (decimal_go fuel n acc) <= k + length acc)%nat.
Proof.
  induction fuel as [|fuel IH]; intros k n acc Hn Hk; [lia|].
  cbn [decimal_go].
  destruct (Z.eqb_spec (n / 10) 0) as [E|E]; [cbn [length]; lia|].
  destruct k as [|k]; [lia|].
  assert (Hq : 0 <= n / 10 < 10 ^ Z.of_nat k).
  { split; [apply Z.div_pos; lia|].
    apply Z.div_lt_upper_bound; [lia|].
    rewrite Nat2Z.inj_succ, Z.pow_succ_r in Hn by lia. lia. }
  destruct k as [|k]; [cbn in Hq; lia|].
  specialize (IH (S k) (n / 10) (digit (n mod 10) :: acc) Hq ltac:(lia)).
  cbn [length] in IH. lia.
Qed.

Lemma decimal05_length (n : Z) :
  0 <= n < 2 ^ 16 -> length (decimal05 n) = 5%nat.
Proof.
  intros Hn. unfold decimal05. cbv zeta.
  rewrite length_app, length_replicate.
  assert (H5 : 2 ^ 16 < 10 ^ Z.of_nat 5) by (vm_compute; reflexivity).
  pose proof (decimal_go_length 20 5 n [] ltac:(lia) ltac:(lia)) as H.
  fold (decimal n) in H. cbn [length] in H. lia.
Qed.

Lemma decimal05_value (n : Z) :
  0 <= n < 2 ^ 16 -> digitsValue (decimal05 n) = n.
Proof.
  intros Hn. unfold decimal05. cbv zeta.
  rewrite digitsValue_zeros. apply decimal_value. lia.
Qed.

(** The two numbers can be read back from a segment's name. *)
Lemma segmentName_parts (id sequenceID : Z) :
  0 <= id < 2 ^ 16 -> 0 <= sequenceID < 2 ^ 64 ->
  digitsValue (take 5 (segmentName id sequenceID)) = id /\
  exists digits : list byte,
    drop 6 (segmentName id sequenceID) = digits ++ segmentExt /\
    digitsValue digits = sequenceID.
Proof.
  intros Hid Hseq. unfold segmentName.
  pose proof (decimal05_length id Hid) as Hl. split.
  - rewrite take_app_length' by (symmetry; exact Hl).
    apply decimal05_value, Hid.
  - exists (decimal sequenceID). split; [|apply decimal_value, Hseq].
    replace 6%nat with (length (decimal05 id) + 1)%nat by lia.
    rewrite <- drop_drop, drop_app_length. reflexivity.
Qed.

(** X9: distinct segments have distinct file names, and distinct names of
    metadata files: [segmentName] and [segmentMetaName] are injective on
    16-bit identifiers and 64-bit sequence numbers. *)
Theorem X9_segment_names_injective (id1 seq1 id2 seq2 : Z) :
  0 <= id1 < 2 ^ 16 -> 0 <= seq1 < 2 ^ 64 ->
  0 <= id2 < 2 ^ 16 -> 0 <= seq2 < 2 ^ 64 ->
  (segmentName id1 seq1 = segmentName id2 seq2 -> id1 = id2 /\ seq1 = seq2) /\
  (segmentMetaName id1 seq1 = segmentMetaName id2 seq2 ->
   id1 = id2 /\ seq1 = seq2).
Proof.
  intros Hi1 Hs1 Hi2 Hs2.
  assert (Hname : segmentName id1 seq1 = segmentName id2 seq2 ->
                  id1 = id2 /\ seq1 = seq2).
  { intros E.
    destruct (segmentName_parts id1 seq1 Hi1 Hs1) as (Ha & d1 & Hd1 & Hv1).
    destruct (segmentName_parts id2 seq2 Hi2 Hs2) as (Hb & d2 & Hd2 & Hv2).
    rewrite E in Ha, Hd1. split; [congruence|].
    rewrite Hd1 in Hd2. apply app_inv_tail in Hd2. congruence. }
  split; [exact Hname|].
  unfold segmentMetaName. intros E. apply app_inv_tail in E. auto.
Qed.

Lemma X9_segment_names_injective_witness :
  segmentName 3 17 = list_byte_of_string "00003-17.psg" /\
  (segmentName 3 17 = segmentName 3 17 -> 3 = 3 /\ 17 = 17).
Proof.
  split; [vm_compute; reflexivity|].
  apply (proj1 (X9_segment_names_injective 3 17 3 17
                  ltac:(lia) ltac:(lia) ltac:(lia) ltac:(lia))).
Defined.

Lemma segmentName_length (id sequenceID : Z) :
  0 <= id < 2 ^ 16 -> 0 <= sequenceID < 2 ^ 64 ->
  (11 <= length (segmentName id sequenceID))%nat.
Proof.
  intros Hid Hseq. unfold segmentName.
  rewrite !length_app, (decimal05_length id Hid).
  assert (H20 : 2 ^ 64 < 10 ^ Z.of_nat 20) by (vm_compute; reflexivity).
  pose proof (decimal_go_length 20 20 sequenceID [] ltac:(lia) ltac:(lia)).
  fold (decimal sequenceID) in *. cbn in *. lia.
Qed.

(** X10: the file names of the store do not clash. A segment's name ends in
    [.psg] and is at least eleven bytes long, the name of a segment's
    metadata file ends in [.pmt] and is longer still: no segment name is
    the name of a segment's metadata file, and neither is the name of the
    store's metadata file or of the lock file. *)
Theorem X10_file_names_do_not_clash (id1 seq1 id2 seq2 : Z) :
  0 <= id1 < 2 ^ 16 -> 0 <= seq1 < 2 ^ 64 ->
  0 <= id2 < 2 ^ 16 -> 0 <= seq2 < 2 ^ 64 ->
  segmentName id1 seq1 <> segmentMetaName id2 seq2 /\
  segmentName id1 seq1 <> dbMetaName /\
  segmentName id1 seq1 <> lockName /\
  segmentMetaName id1 seq1 <> dbMetaName /\
  segmentMetaName id1 seq1 <> lockName.
Proof.
  intros Hi1 Hs1 Hi2 Hs2.
  pose proof (segmentName_length id1 seq1 Hi1 Hs1) as Hl.
  assert (Hlast : forall a b x y : list byte,
            a ++ x = b ++ y -> length x = length y -> x = y).
  { intros a b x y E Hxy.
    assert (length a = length b).
    { apply (f_equal length) in E. rewrite !length_app in E. lia. }
    apply (f_equal (drop (length a))) in E.
    rewrite drop_app_length in E. rewrite H, drop_app_length in E. exact E. }
  repeat split.
  - unfold segmentMetaName, segmentName at 1. rewrite !app_assoc.
    intros E. apply Hlast in E; [discriminate E|reflexivity].
  - intros E. rewrite E in Hl. vm_compute in Hl. lia.
  - intros E. rewrite E in Hl. vm_compute in Hl. lia.
  - intros E. apply (f_equal length) in E. unfold segmentMetaName in E.
    rewrite length_app in E. change (length dbMetaName) with 6%nat in E. lia.
  - intros E. apply (f_equal length) in E. unfold segmentMetaName in E.
    rewrite length_app in E. change (length lockName) with 4%nat in E. lia.
Qed.

Lemma X10_file_names_do_not_clash_witness :
  segmentName 1 2 <> segmentMetaName 1 2 /\
  segmentName 1 2 <> dbMetaName /\
  segmentName 1 2 <> lockName /\
  segmentMetaName 1 2 <> dbMetaName /\
  segmentMetaName 1 2 <> lockName.
Proof.
  apply (X10_file_names_do_not_clash 1 2 1 2); lia.
Defined.

(** ** The engine's operations *)

Lemma walk_app (dl : datalog) (key : list byte) (h : Z) (l1 l2 : list slot) :
  forall i : nat,
  fst (walk (matchKey dl key) h (l1 ++ l2) i tt)
  = match fst (walk (matchKey dl key) h l1 i tt) with
    | (None, None) =>
        fst (walk (matchKey dl key) h l2 (i + length l1)%nat tt)
    | r => r
    end.
Proof.
  induction l1 as [|sl l1 IH]; intros i; cbn [app walk length].
  { rewrite Nat.add_0_r. reflexivity. }
  replace (i + S (length l1))%nat with (S i + length l1)%nat by lia.
  destruct (sl_hash sl =? h); [|apply IH].
  rewrite matchKey_classify.
  destruct (classify dl key sl) as [[|] [e|]]; cbn [fst]; try reflexivity.
  apply IH.
Qed.

(** A walk that ends without an error ends the same way on slots that
    answer the same wherever the first walk looked. *)
Lemma walk_pointwise (dl dl' : datalog) (key : list byte) (h : Z)
    (slots slots' : list slot) :
  Forall2 (fun s s' =>
             (sl_hash s =? h) = (sl_hash s' =? h) /\
             (sl_hash s = h -> forall b : bool,
              classify dl key s = (b, None) ->
              classify dl' key s' = (b, None))) slots slots' ->
  forall (i : nat) (p : option nat),
  fst (walk (matchKey dl key) h slots i tt) = (p, None) ->
  fst (walk (matchKey dl' key) h slots' i tt) = (p, None).
Proof.
  induction 1 as [|s s' slots slots' [Hh Hc] _ IH]; intros i p;
    cbn [walk]; [auto|].
  rewrite <- Hh. destruct (Z.eqb_spec (sl_hash s) h) as [E|E]; [|apply IH].
  rewrite !matchKey_classify. specialize (Hc E).
  destruct (classify dl key s) as [b [e|]]; cbn [fst].
  { destruct b; discriminate. }
  rewrite (Hc b eq_refl). destruct b; cbn [fst]; [auto|apply IH].
Qed.

Lemma classify_other_key (dl : datalog) (key key' : list byte) (sl : slot) :
  key' <> key ->
  classify dl key sl = (true, None) ->
  forall b : bool, classify dl key' sl = (b, None) -> b = false.
Proof.
  intros Hne Hc b Hc'. destruct b; [|reflexivity].
  destruct (classify_match_inv _ _ _ Hc) as [_ Hr].
  destruct (classify_match_inv _ _ _ Hc') as [_ Hr'].
  congruence.
Qed.

Lemma classify_new_slot_other (dl dl' : datalog) (key key' : list byte)
    (segID offset h : Z) :
  key' <> key ->
  len key <= MaxKeyLength ->
  datalog_put dl key = Ok (segID, offset, dl') ->
  classify dl' key'
    {| sl_hash := h; sl_segmentID := segID;
       sl_keySize := uint16 (len key); sl_offset := offset |}
  = (false, None).
Proof.
  intros Hne Hlen Hput. unfold classify, matchKey.
  rewrite (datalog_put_then_read _ _ _ _ _ h Hlen Hput).
  destruct (negb _); [reflexivity|].
  unfold bytes_Equal. rewrite bool_decide_eq_false_2 by exact Hne.
  reflexivity.
Qed.

Section OperationsMore.

Variable Sum32WithSeed : list byte -> Z -> Z.
Variable datalog_sync : datalog -> option error.

Local Abbreviation Has' := (Has Sum32WithSeed).
Local Abbreviation Put' := (Put Sum32WithSeed datalog_sync).
Local Abbreviation HasOrPut' := (HasOrPut Sum32WithSeed datalog_sync).
Local Abbreviation DB_hash' := (DB_hash Sum32WithSeed).
Local Abbreviation newSlot' := (newSlot Sum32WithSeed).

(** The index after [DB.put] of the new slot: unchanged, the new slot in
    the place of the one that matched, or the new slot at the end. *)
Lemma DB_put_index (db : DB) (dl' : datalog) (key : list byte)
    (segID offset : Z) :
  let new := newSlot' db key segID offset in
  let r := DB_put (set_datalog db dl') new key in
  db_datalog (fst r) = dl' /\ db_hashSeed (fst r) = db_hashSeed db /\
  db_metrics (fst r) = db_metrics db /\
  db_syncWrites (fst r) = db_syncWrites db /\
  ((snd r <> None /\ db_index (fst r) = db_index db) \/
   (snd r = None /\
    exists (pre post : list slot) (old : slot),
      ix_slots (db_index db) = pre ++ old :: post /\
      ix_slots (db_index (fst r)) = pre ++ new :: post /\
      sl_hash old = DB_hash' db key /\
      classify dl' key old = (true, None)) \/
   (snd r = None /\
    ix_slots (db_index (fst r)) = ix_slots (db_index db) ++ [new] /\
    Z.of_nat (length (ix_slots (db_index db))) < MaxKeys /\
    fst (walk (matchKey dl' key) (DB_hash' db key)
           (ix_slots (db_index db)) 0 tt) = (None, None))).
Proof.
  cbv zeta. unfold DB_put, index_put, newSlot.
  cbn [set_datalog db_datalog db_index sl_hash].
  destruct (walk (matchKey dl' key) (DB_hash' db key)
              (ix_slots (db_index db)) 0 tt)
    as [[[j|] [e|]] []] eqn:Hw;
    [| |
     |destruct (Z.ltb_spec (Z.of_nat (length (ix_slots (db_index db))))
                  MaxKeys)];
    cbn [fst snd set_index db_datalog db_hashSeed db_metrics
           db_syncWrites db_index ix_slots];
    repeat (split; [reflexivity|]).
  - left. split; [discriminate|reflexivity].
  - right. left. split; [reflexivity|].
    apply (f_equal fst) in Hw. cbn [fst] in Hw.
    destruct (walk_match_inv _ _ _ _ _ _ Hw)
      as (pre & old & post & Hslots & -> & Hh & Hc & _).
    exists pre, post, old. rewrite Hslots.
    repeat split; auto.
    rewrite insert_app_r_alt by lia. rewrite Nat.sub_diag. reflexivity.
  - left. split; [discriminate|reflexivity].
  - right. right. repeat split; auto.
  - left. split; [discriminate|reflexivity].
Qed.

Lemma DB_put_syncWrites (db : DB) (sl : slot) (key : list byte) :
  db_syncWrites (fst (DB_put db sl key)) = db_syncWrites db.
Proof.
  unfold DB_put. destruct (index_put _ _ _ _) as [[ix err] ?].
  reflexivity.
Qed.

(** [Put], once the key is known not to be too large. *)
Lemma Put_steps (db : DB) (key : list byte) :
  len key <= MaxKeyLength ->
  Put' db key
  = let db1 := set_metrics db {| Puts := Puts (db_metrics db) + 1 |} in
    match datalog_put (db_datalog db) key with
    | Err e => (db1, Some e)
    | Ok (segID, offset, dl') =>
        let r := DB_put (set_datalog db1 dl')
                   (newSlot' db1 key segID offset) key in
        match snd r with
        | Some e => (fst r, Some e)
        | None =>
            if db_syncWrites db then (fst r, DB_sync datalog_sync (fst r))
            else (fst r, None)
        end
    end.
Proof.
  intros Hlen. unfold Put.
  destruct (Z.gtb_spec (len key) MaxKeyLength); [lia|].
  cbv zeta. cbn [set_metrics db_datalog].
  destruct (datalog_put (db_datalog db) key) as [[[segID offset] dl']|e];
    [|reflexivity].
  unfold newSlot.
  change (DB_hash' (set_metrics db _) key) with (DB_hash' db key).
  destruct (DB_put _ _ key) as [db2 [e|]] eqn:Hp; cbn [fst snd];
    [reflexivity|].
  replace (db_syncWrites db2) with (db_syncWrites db); [reflexivity|].
  apply (f_equal fst) in Hp. cbn [fst] in Hp. rewrite <- Hp.
  rewrite DB_put_syncWrites. reflexivity.
Qed.

(** [HasOrPut], once the key is known not to be too large. *)
Lemma HasOrPut_steps (db : DB) (key : list byte) :
  len key <= MaxKeyLength ->
  HasOrPut' db key
  = match Has' db key with
    | (_, Some e) => (db, (false, Some e))
    | (true, None) => (db, (true, None))
    | (false, None) =>
        match datalog_put (db_datalog db) key with
        | Err e => (db, (false, Some e))
        | Ok (segID, offset, dl') =>
            let r := DB_put (set_datalog db dl')
                       (newSlot' db key segID offset) key in
            match snd r with
            | Some e => (fst r, (false, Some e))
            | None =>
                if db_syncWrites db
                then (fst r, (false, DB_sync datalog_sync (fst r)))
                else (fst r, (false, None))
            end
        end
    end.
Proof.
  intros Hlen. unfold HasOrPut, Has.
  destruct (Z.gtb_spec (len key) MaxKeyLength); [lia|].
  cbv zeta.
  destruct (index_get _ _ _ _) as [[e|] found]; [reflexivity|].
  destruct found; cbn [negb]; [reflexivity|].
  destruct (datalog_put (db_datalog db) key) as [[[segID offset] dl']|e];
    [|reflexivity].
  unfold newSlot.
  destruct (DB_put _ _ key) as [db2 [e|]] eqn:Hp; cbn [fst snd];
    [reflexivity|].
  replace (db_syncWrites db2) with (db_syncWrites db); [reflexivity|].
  apply (f_equal fst) in Hp. cbn [fst] in Hp. rewrite <- Hp.
  rewrite DB_put_syncWrites. reflexivity.
Qed.

Lemma Has_no_error (db : DB) (key : list byte) :
  snd (Has' db key) = None ->
  exists p : option nat,
    fst (walk (matchKey (db_datalog db) key) (DB_hash' db key)
           (ix_slots (db_index db)) 0 tt) = (p, None).
Proof.
  rewrite Has_walk.
  destruct (fst _) as [[j|] [e|]]; cbn [snd]; try discriminate; eauto.
Qed.

(** What [DB.put] of the slot of [key] does to the lookup of another
    key: nothing. *)
Lemma Has_after_DB_put (db : DB) (dl' : datalog) (key key' : list byte)
    (segID offset : Z) :
  key' <> key ->
  len key <= MaxKeyLength ->
  datalog_put (db_datalog db) key = Ok (segID, offset, dl') ->
  snd (Has' db key') = None ->
  Has' (fst (DB_put (set_datalog db dl') (newSlot' db key segID offset)
               key)) key'
  = Has' db key'.
Proof.
  intros Hne Hlen Hput Hok.
  destruct (Has_no_error _ _ Hok) as [p Hp].
  pose proof (DB_put_index db dl' key segID offset) as Hix.
  cbv zeta in Hix.
  set (r := DB_put _ _ key) in *.
  destruct Hix as (Hdl & Hseed & _ & _ & Hix).
  rewrite !Has_walk, Hp.
  unfold DB_hash. rewrite Hseed, Hdl. fold (DB_hash' db key').
  assert (Hdiag : Forall2 (fun s s' =>
             (sl_hash s =? DB_hash' db key')
             = (sl_hash s' =? DB_hash' db key') /\
             (sl_hash s = DB_hash' db key' -> forall b : bool,
              classify (db_datalog db) key' s = (b, None) ->
              classify dl' key' s' = (b, None)))
            (ix_slots (db_index db)) (ix_slots (db_index db))).
  { apply Forall_Forall2_diag, Forall_forall. intros s _.
    split; [reflexivity|]. intros _ b.
    apply (classify_grows _ _ _ _ _ _ _ _ Hput). }
  destruct Hix as [[_ Hsame]|[(_ & pre & post & old & Hs & Hs' & Hh & Hc)
                            |(_ & Hs' & _ & _)]].
  - rewrite Hsame.
    rewrite (walk_pointwise _ _ _ _ _ _ Hdiag _ _ Hp). reflexivity.
  - rewrite Hs'. rewrite Hs in Hp, Hdiag.
    apply Forall2_app_inv in Hdiag; [|reflexivity].
    destruct Hdiag as [Hpre Hrest].
    apply Forall2_cons_1 in Hrest. destruct Hrest as [_ Hpost].
    erewrite walk_pointwise; [reflexivity| |exact Hp].
    apply Forall2_app; [exact Hpre|].
    constructor; [|exact Hpost].
    unfold newSlot. cbn [sl_hash]. rewrite Hh.
    split; [reflexivity|].
    intros Hhh b Hb.
    pose proof (classify_grows _ _ _ _ _ _ _ _ Hput Hb) as Hb'.
    rewrite (classify_other_key _ _ _ _ Hne Hc _ Hb').
    apply (classify_new_slot_other _ _ _ _ _ _ _ Hne Hlen Hput).
  - rewrite Hs', walk_app.
    rewrite (walk_pointwise _ _ _ _ _ _ Hdiag _ _ Hp).
    destruct p as [j|]; [reflexivity|].
    cbn [walk]. unfold newSlot at 1. cbn [sl_hash].
    destruct (_ =? _); [|reflexivity].
    rewrite matchKey_classify.
    unfold newSlot.
    rewrite (classify_new_slot_other _ _ _ _ _ _ _ Hne Hlen Hput).
    reflexivity.
Qed.

(** [DB.put] of the slot of a key that no slot resolves to appends the
    slot, after which the lookup finds the key. *)
Lemma DB_put_absent (db : DB) (dl' : datalog) (key : list byte)
    (segID offset : Z) :
  len key <= MaxKeyLength ->
  datalog_put (db_datalog db) key = Ok (segID, offset, dl') ->
  Has' db key = (false, None) ->
  let r := DB_put (set_datalog db dl') (newSlot' db key segID offset)
             key in
  snd r = None ->
  ix_slots (db_index (fst r))
  = ix_slots (db_index db) ++ [newSlot' db key segID offset] /\
  Has' (fst r) key = (true, None).
Proof.
  intros Hlen Hput Hhas. cbv zeta.
  pose proof (DB_put_index db dl' key segID offset) as Hix.
  cbv zeta in Hix.
  set (r := DB_put _ _ key) in *.
  destruct Hix as (Hdl & Hseed & _ & _ & Hix). intros Hr.
  assert (Hwalk : fst (walk (matchKey (db_datalog db) key)
                         (DB_hash' db key) (ix_slots (db_index db)) 0 tt)
                  = (None, None)).
  { rewrite Has_walk in Hhas.
    destruct (fst _) as [[j|] [e|]]; try discriminate. reflexivity. }
  pose proof (walk_nomatch_inv _ _ _ _ _ Hwalk) as Hall.
  destruct Hix as [[Hbad _]|[(_ & pre & post & old & Hs & _ & Hh & Hc)
                           |(_ & Hs' & _ & Hw')]].
  - contradiction.
  - exfalso. rewrite Hs in Hall.
    apply Forall_app in Hall. destruct Hall as [_ Hall].
    inversion Hall as [|? ? Hold _].
    pose proof (classify_grows _ _ _ _ _ _ _ _ Hput (Hold Hh)) as Hold'.
    congruence.
  - split; [exact Hs'|].
    apply (Has_of_match Sum32WithSeed _ key (ix_slots (db_index db)) []
             (newSlot' db key segID offset)).
    + exact Hs'.
    + unfold newSlot, DB_hash. cbn [sl_hash]. rewrite Hseed. reflexivity.
    + rewrite Hdl. apply (classify_new_slot _ _ _ _ _ _ Hlen Hput).
    + rewrite Hdl. unfold DB_hash. rewrite Hseed.
      apply (walk_nomatch_inv _ _ _ _ _ Hw').
Qed.

Lemma DB_put_count (db : DB) (dl' : datalog) (key : list byte)
    (segID offset : Z) :
  let r := DB_put (set_datalog db dl') (newSlot' db key segID offset)
             key in
  Count db <= Count (fst r) <= Count db + 1 /\
  (Count db <= MaxKeys -> Count (fst r) <= MaxKeys).
Proof.
  cbv zeta.
  pose proof (DB_put_index db dl' key segID offset) as Hix.
  cbv zeta in Hix.
  set (r := DB_put _ _ key) in *.
  destruct Hix as (_ & _ & _ & _ & Hix).
  unfold Count, index_count.
  destruct Hix as [[_ Hsame]|[(_ & pre & post & old & Hs & Hs' & _)
                            |(_ & Hs' & Hlt & _)]].
  - rewrite Hsame. lia.
  - rewrite Hs, Hs', !length_app. cbn [length]. lia.
  - rewrite Hs', length_app. cbn [length]. lia.
Qed.

(** [HasOrPut] of an absent key, when it succeeds. *)
Lemma HasOrPut_absent (db db' : DB) (key : list byte) (existed : bool) :
  len key <= MaxKeyLength ->
  Has' db key = (false, None) ->
  HasOrPut' db key = (db', (existed, None)) ->
  existed = false /\ Count db' = Count db + 1 /\
  Has' db' key = (true, None).
Proof.
  intros Hlen Hhas. rewrite (HasOrPut_steps db key Hlen), Hhas.
  destruct (datalog_put (db_datalog db) key)
    as [[[segID offset] dl']|e] eqn:Hput; [|discriminate].
  cbv zeta.
  pose proof (DB_put_absent db dl' key segID offset Hlen Hput Hhas) as Hab.
  cbv zeta in Hab.
  set (r := DB_put _ _ key) in *.
  destruct (snd r) as [e|]; [discriminate|].
  destruct (Hab eq_refl) as [Hs Hh].
  assert (Hc : Count (fst r) = Count db + 1).
  { unfold Count, index_count. rewrite Hs, length_app. cbn [length]. lia. }
  destruct (db_syncWrites db); intros H; injection H; intros; subst;
    auto.
Qed.

(** [Put] of an absent key, when it succeeds. *)
Lemma Put_absent (db : DB) (key : list byte) :
  len key <= MaxKeyLength ->
  Has' db key = (false, None) ->
  snd (Put' db key) = None ->
  Count (fst (Put' db key)) = Count db + 1.
Proof.
  intros Hlen Hhas. rewrite (Put_steps db key Hlen). cbv zeta.
  destruct (datalog_put (db_datalog db) key)
    as [[[segID offset] dl']|e] eqn:Hput; [|discriminate].
  pose proof (DB_put_absent
                (set_metrics db {| Puts := Puts (db_metrics db) + 1 |})
                dl' key segID offset Hlen Hput Hhas) as Hab.
  cbv zeta in Hab.
  set (r := DB_put _ _ key) in *.
  destruct (snd r) as [e|]; [discriminate|].
  destruct (Hab eq_refl) as [Hs _].
  assert (Hc : Count (fst r) = Count db + 1).
  { unfold Count, index_count. rewrite Hs, length_app. cbn [length].
    cbn [set_metrics db_index]. lia. }
  destruct (db_syncWrites db); intros _; exact Hc.
Qed.

(** The store [Put] leaves does not depend on how the sync goes. *)
Lemma Put_state_sync (sync' : datalog -> option error) (db : DB)
    (key : list byte) :
  fst (Put' db key) = fst (Put Sum32WithSeed sync' db key).
Proof.
  unfold Put. destruct (len key >? MaxKeyLength); [reflexivity|].
  cbv zeta.
  destruct (datalog_put _ key) as [[[segID offset] dl']|e]; [|reflexivity].
  destruct (DB_put _ _ key) as [db2 [e|]]; [reflexivity|].
  destruct (db_syncWrites db2); reflexivity.
Qed.

End OperationsMore.

(** ** Further properties of the engine's operations *)

(** X11: [Put] counts every call whose key is not too large, whether the
    call succeeds or fails later: the [Puts] metric grows by exactly one.
    [HasOrPut] never touches the metrics, also when it inserts the key. *)
Theorem X11_Puts_metric (Sum32WithSeed : list byte -> Z -> Z)
    (datalog_sync : datalog -> option error) (db : DB) (key : list byte) :
  (len key <= MaxKeyLength ->
   Puts (db_metrics (fst (Put Sum32WithSeed datalog_sync db key)))
   = Puts (db_metrics db) + 1) /\
  db_metrics (fst (HasOrPut Sum32WithSeed datalog_sync db key))
  = db_metrics db.
Proof.
  split.
  - intros Hlen. rewrite (Put_steps _ _ db key Hlen). cbv zeta.
    destruct (datalog_put (db_datalog db) key)
      as [[[segID offset] dl']|e]; [|reflexivity].
    pose proof (DB_put_index Sum32WithSeed
                  (set_metrics db {| Puts := Puts (db_metrics db) + 1 |})
                  dl' key segID offset) as Hix.
    cbv zeta in Hix. destruct Hix as (_ & _ & Hm & _).
    destruct (snd (DB_put _ _ key)) as [e|]; [|destruct (db_syncWrites db)];
      cbn [fst]; rewrite Hm; reflexivity.
  - destruct (Z.gtb_spec (len key) MaxKeyLength) as [Hgt|Hlen].
    { unfold HasOrPut. destruct (Z.gtb_spec (len key) MaxKeyLength);
        [reflexivity|lia]. }
    rewrite (HasOrPut_steps _ _ db key Hlen).
    destruct (Has Sum32WithSeed db key) as [[|] [e|]]; try reflexivity.
    destruct (datalog_put (db_datalog db) key)
      as [[[segID offset] dl']|e]; [|reflexivity].
    pose proof (DB_put_index Sum32WithSeed db dl' key segID offset) as Hix.
    cbv zeta in Hix. destruct Hix as (_ & _ & Hm & _). cbv zeta.
    destruct (snd (DB_put _ _ key)) as [e|]; [|destruct (db_syncWrites db)];
      cbn [fst]; exact Hm.
Qed.

Lemma X11_Puts_metric_witness :
  len [x61] <= MaxKeyLength /\
  Puts (db_metrics (fst (Put crcHash (fun _ => None) storeAB [x61])))
  = Puts (db_metrics storeAB) + 1 /\
  db_metrics (fst (HasOrPut crcHash (fun _ => None) storeAB [x63]))
  = db_metrics storeAB.
Proof.
  assert (Hlen : len [x61] <= MaxKeyLength) by (vm_compute; discriminate).
  split; [exact Hlen|]. split.
  - exact (proj1 (X11_Puts_metric crcHash (fun _ => None) storeAB [x61])
             Hlen).
  - exact (proj2 (X11_Puts_metric crcHash (fun _ => None) storeAB [x63])).
Defined.

(** X12: how [Put] fails, for a key that is not too large. When the append
    to the datalog fails, [Put] returns that error and the index and the
    datalog are as they were. When the append and the index update succeed
    (the [Put] would succeed were the sync to succeed), [Put] returns the
    outcome of [datalog.sync] if [syncWrites] is set and nil otherwise, and
    the key is in the store whatever that outcome: a failed sync does not
    undo the insertion. *)
Theorem X12_Put_failures (Sum32WithSeed : list byte -> Z -> Z)
    (datalog_sync : datalog -> option error) (db : DB) (key : list byte) :
  len key <= MaxKeyLength ->
  let r := Put Sum32WithSeed datalog_sync db key in
  (forall e : error,
     datalog_put (db_datalog db) key = Err e ->
     snd r = Some e /\ db_index (fst r) = db_index db /\
     db_datalog (fst r) = db_datalog db) /\
  (snd (Put Sum32WithSeed (fun _ => None) db key) = None ->
   snd r = (if db_syncWrites db then datalog_sync (db_datalog (fst r))
            else None) /\
   Has Sum32WithSeed (fst r) key = (true, None)).
Proof.
  intros Hlen. cbv zeta. split.
  - intros e He. rewrite (Put_steps _ _ db key Hlen), He. cbv zeta.
    repeat split; reflexivity.
  - intros Hok. split.
    + rewrite (Put_steps _ (fun _ => None) db key Hlen) in Hok.
      rewrite (Put_steps _ datalog_sync db key Hlen).
      cbv zeta in Hok |- *.
      destruct (datalog_put (db_datalog db) key)
        as [[[segID offset] dl']|e]; [|discriminate Hok].
      destruct (snd (DB_put _ _ key)) as [e|].
      { destruct (db_syncWrites db); discriminate Hok. }
      destruct (db_syncWrites db); reflexivity.
    + rewrite (Put_state_sync _ _ (fun _ => None)).
      apply Put_then_Has; assumption.
Qed.

Lemma X12_Put_failures_witness :
  len [x63] <= MaxKeyLength /\
  snd (Put crcHash (fun _ => Some (IOError "sync")) storeABSync [x63])
  = Some (IOError "sync") /\
  Has crcHash
    (fst (Put crcHash (fun _ => Some (IOError "sync")) storeABSync [x63]))
    [x63]
  = (true, None).
Proof.
  assert (Hlen : len [x63] <= MaxKeyLength) by (vm_compute; discriminate).
  split; [exact Hlen|].
  exact (proj2 (X12_Put_failures crcHash (fun _ => Some (IOError "sync"))
                  storeABSync [x63] Hlen) eq_refl).
Defined.

(** X13: how [HasOrPut] fails. Whenever it returns an error, the flag it
    returns is false. For a key that is not too large, an error of the
    lookup is returned as it is, and so is an error of the append to the
    datalog for a key that the lookup did not find; in both cases the store
    is as it was. *)
Theorem X13_HasOrPut_failures (Sum32WithSeed : list byte -> Z -> Z)
    (datalog_sync : datalog -> option error) (db : DB) (key : list byte) :
  (forall (db' : DB) (existed : bool) (e : error),
     HasOrPut Sum32WithSeed datalog_sync db key = (db', (existed, Some e)) ->
     existed = false) /\
  (len key <= MaxKeyLength ->
   (forall e : error,
      snd (Has Sum32WithSeed db key) = Some e ->
      HasOrPut Sum32WithSeed datalog_sync db key = (db, (false, Some e))) /\
   (forall e : error,
      Has Sum32WithSeed db key = (false, None) ->
      datalog_put (db_datalog db) key = Err e ->
      HasOrPut Sum32WithSeed datalog_sync db key = (db, (false, Some e)))).
Proof.
  split.
  - intros db' existed e H. destruct existed; [|reflexivity].
    destruct (HasOrPut_existed_inv _ _ _ _ _ _ H) as [_ Hn].
    discriminate Hn.
  - intros Hlen. split.
    + intros e He. rewrite (HasOrPut_steps _ _ db key Hlen).
      destruct (Has Sum32WithSeed db key) as [b [e'|]]; cbn [snd] in He;
        [|discriminate He].
      injection He as ->. destruct b; reflexivity.
    + intros e Hhas He.
      rewrite (HasOrPut_steps _ _ db key Hlen), Hhas, He. reflexivity.
Qed.

Lemma X13_HasOrPut_failures_witness :
  len [x63] <= MaxKeyLength /\
  Has crcHash fullDatalogDB [x63] = (false, None) /\
  HasOrPut crcHash (fun _ => None) fullDatalogDB [x63]
  = (fullDatalogDB, (false, Some errFull)).
Proof.
  assert (Hlen : len [x63] <= MaxKeyLength) by (vm_compute; discriminate).
  assert (Hfull : datalog_put (db_datalog fullDatalogDB) [x63]
                  = Err errFull) by (vm_compute; reflexivity).
  split; [exact Hlen|]. split; [reflexivity|].
  exact (proj2 (proj2 (X13_HasOrPut_failures crcHash (fun _ => None)
                         fullDatalogDB [x63]) Hlen)
           errFull eq_refl Hfull).
Defined.

(** X14: inserting a key the store does not hold. When [Has] answers false
    without an error for a key that is not too large, a [HasOrPut] that
    succeeds returns false, adds exactly one to [Count] and leaves a store
    on which [Has] answers true for the key; a [Put] that succeeds adds
    exactly one to [Count] as well. *)
Theorem X14_insert_absent_key (Sum32WithSeed : list byte -> Z -> Z)
    (datalog_sync : datalog -> option error) (db : DB) (key : list byte) :
  len key <= MaxKeyLength ->
  Has Sum32WithSeed db key = (false, None) ->
  (forall (db' : DB) (existed : bool),
     HasOrPut Sum32WithSeed datalog_sync db key = (db', (existed, None)) ->
     existed = false /\ Count db' = Count db + 1 /\
     Has Sum32WithSeed db' key = (true, None)) /\
  (snd (Put Sum32WithSeed datalog_sync db key) = None ->
   Count (fst (Put Sum32WithSeed datalog_sync db key)) = Count db + 1).
Proof.
  intros Hlen Hhas. split.
  - intros db' existed H.
    exact (HasOrPut_absent _ _ _ _ _ _ Hlen Hhas H).
  - apply Put_absent; assumption.
Qed.

Lemma X14_insert_absent_key_witness :
  len [x63] <= MaxKeyLength /\
  Has crcHash storeAB [x63] = (false, None) /\
  Count storeAB = 2 /\
  (let db' := fst (HasOrPut crcHash (fun _ => None) storeAB [x63]) in
   Count db' = Count storeAB + 1 /\ Has crcHash db' [x63] = (true, None)) /\
  Count (fst (Put crcHash (fun _ => None) storeAB [x63]))
  = Count storeAB + 1.
Proof.
  assert (Hlen : len [x63] <= MaxKeyLength) by (vm_compute; discriminate).
  assert (Hhas : Has crcHash storeAB [x63] = (false, None))
    by (vm_compute; reflexivity).
  assert (Hrun : HasOrPut crcHash (fun _ => None) storeAB [x63]
                 = (fst (HasOrPut crcHash (fun _ => None) storeAB [x63]),
                    (false, None)))
    by (vm_compute; reflexivity).
  assert (Hput : snd (Put crcHash (fun _ => None) storeAB [x63]) = None)
    by (vm_compute; reflexivity).
  pose proof (X14_insert_absent_key crcHash (fun _ => None) storeAB [x63]
                Hlen Hhas) as [Hh Hp].
  split; [exact Hlen|]. split; [exact Hhas|].
  split; [vm_compute; reflexivity|]. split.
  - cbv zeta. exact (proj2 (Hh _ _ Hrun)).
  - exact (Hp Hput).
Defined.

(** X15: [Put] and [HasOrPut] of one key do not change what [Has] answers
    for another: for every key other than the one written on which [Has]
    answers without an error, it gives the same answer after the call as
    before it, whether the call succeeded or failed. *)
Theorem X15_other_keys_unaffected (Sum32WithSeed : list byte -> Z -> Z)
    (datalog_sync : datalog -> option error) (db : DB)
    (key key' : list byte) :
  key' <> key ->
  snd (Has Sum32WithSeed db key') = None ->
  Has Sum32WithSeed (fst (Put Sum32WithSeed datalog_sync db key)) key'
  = Has Sum32WithSeed db key' /\
  Has Sum32WithSeed (fst (HasOrPut Sum32WithSeed datalog_sync db key)) key'
  = Has Sum32WithSeed db key'.
Proof.
  intros Hne Hok.
  destruct (Z.gtb_spec (len key) MaxKeyLength) as [Hgt|Hlen].
  { unfold Put, HasOrPut.
    destruct (Z.gtb_spec (len key) MaxKeyLength); [split; reflexivity|lia]. }
  split.
  - rewrite (Put_steps _ _ db key Hlen). cbv zeta.
    destruct (datalog_put (db_datalog db) key)
      as [[[segID offset] dl']|e] eqn:Hput; [|reflexivity].
    pose proof (Has_after_DB_put Sum32WithSeed
                  (set_metrics db {| Puts := Puts (db_metrics db) + 1 |})
                  dl' key key' segID offset Hne Hlen Hput Hok) as Hfr.
    change (Has Sum32WithSeed (set_metrics db _) key')
      with (Has Sum32WithSeed db key') in Hfr.
    destruct (snd (DB_put _ _ key)) as [e|]; [|destruct (db_syncWrites db)];
      cbn [fst]; exact Hfr.
  - rewrite (HasOrPut_steps _ _ db key Hlen).
    destruct (Has Sum32WithSeed db key) as [[|] [e|]]; try reflexivity.
    destruct (datalog_put (db_datalog db) key)
      as [[[segID offset] dl']|e] eqn:Hput; [|reflexivity].
    pose proof (Has_after_DB_put Sum32WithSeed db dl' key key' segID offset
                  Hne Hlen Hput Hok) as Hfr.
    cbv zeta.
    destruct (snd (DB_put _ _ key)) as [e|]; [|destruct (db_syncWrites db)];
      cbn [fst]; exact Hfr.
Qed.

Lemma X15_other_keys_unaffected_witness :
  [x61] <> [x63] /\
  Has crcHash storeAB [x61] = (true, None) /\
  Has crcHash (fst (Put crcHash (fun _ => None) storeAB [x63])) [x61]
  = (true, None) /\
  Has crcHash (fst (HasOrPut crcHash (fun _ => None) storeAB [x63])) [x61]
  = (true, None).
Proof.
  assert (Hne : [x61] <> [x63]) by discriminate.
  assert (Hhas : Has crcHash storeAB [x61] = (true, None))
    by (vm_compute; reflexivity).
  assert (Hok : snd (Has crcHash storeAB [x61]) = None)
    by (rewrite Hhas; reflexivity).
  pose proof (X15_other_keys_unaffected crcHash (fun _ => None) storeAB
                [x63] [x61] Hne Hok) as [Hp Hh].
  rewrite Hhas in Hp, Hh. repeat split; assumption.
Defined.

(** X16: what a positive answer of [Has] rests on. When [Has] answers true
    for a key, the key is at most [MaxKeyLength] bytes long and the index
    holds a slot that carries the key's hash under the store's seed and the
    key's length, and whose record in the datalog reads back as the key. *)
Theorem X16_Has_true_is_backed (Sum32WithSeed : list byte -> Z -> Z)
    (db : DB) (key : list byte) :
  Has Sum32WithSeed db key = (true, None) ->
  len key <= MaxKeyLength /\
  exists sl : slot,
    In sl (ix_slots (db_index db)) /\
    sl_hash sl = DB_hash Sum32WithSeed db key /\
    sl_keySize sl = len key /\
    datalog_readKey (db_datalog db) sl = Ok key.
Proof.
  intros H. pose proof (Has_true_length _ _ _ H) as Hlen.
  split; [exact Hlen|].
  destruct (Has_true_inv _ _ _ H) as [j Hj].
  destruct (walk_match_inv _ _ _ _ _ _ Hj)
    as (pre & sl & post & Hs & _ & Hh & Hc & _).
  destruct (classify_match_inv _ _ _ Hc) as [Hk Hr].
  exists sl. rewrite Hs. repeat split; auto.
  - apply in_or_app. right. left. reflexivity.
  - rewrite <- Hk. unfold uint16. apply Z.mod_small.
    unfold MaxKeyLength in Hlen. unfold len in *. lia.
Qed.

Lemma X16_Has_true_is_backed_witness :
  Has crcHash storeAB [x62] = (true, None) /\
  exists sl : slot,
    In sl (ix_slots (db_index storeAB)) /\
    sl_hash sl = DB_hash crcHash storeAB [x62] /\
    sl_keySize sl = len [x62] /\
    datalog_readKey (db_datalog storeAB) sl = Ok [x62].
Proof.
  assert (Hhas : Has crcHash storeAB [x62] = (true, None))
    by (vm_compute; reflexivity).
  split; [exact Hhas|].
  exact (proj2 (X16_Has_true_is_backed crcHash storeAB [x62] Hhas)).
Defined.

(** X17: [Put] and [HasOrPut] never remove a slot and add at most one:
    [Count] after the call is [Count] before it or one more, whatever the
    outcome; and they never take the index beyond [MaxKeys] slots. *)
Theorem X17_Count_bounds (Sum32WithSeed : list byte -> Z -> Z)
    (datalog_sync : datalog -> option error) (db : DB) (key : list byte) :
  let db1 := fst (Put Sum32WithSeed datalog_sync db key) in
  let db2 := fst (HasOrPut Sum32WithSeed datalog_sync db key) in
  Count db <= Count db1 <= Count db + 1 /\
  Count db <= Count db2 <= Count db + 1 /\
  (Count db <= MaxKeys -> Count db1 <= MaxKeys /\ Count db2 <= MaxKeys).
Proof.
  cbv zeta.
  destruct (Z.gtb_spec (len key) MaxKeyLength) as [Hgt|Hlen].
  { unfold Put, HasOrPut.
    destruct (Z.gtb_spec (len key) MaxKeyLength); [cbn [fst]; lia|lia]. }
  assert (HP : Count db <= Count (fst (Put Sum32WithSeed datalog_sync db key))
               <= Count db + 1 /\
               (Count db <= MaxKeys ->
                Count (fst (Put Sum32WithSeed datalog_sync db key))
                <= MaxKeys)).
  { rewrite (Put_steps _ _ db key Hlen). cbv zeta.
    destruct (datalog_put (db_datalog db) key)
      as [[[segID offset] dl']|e];
      [|cbn [fst]; unfold Count; cbn [set_metrics db_index]; lia].
    pose proof (DB_put_count Sum32WithSeed
                  (set_metrics db {| Puts := Puts (db_metrics db) + 1 |})
                  dl' key segID offset) as Hc.
    cbv zeta in Hc.
    destruct (snd (DB_put _ _ key)) as [e|]; [|destruct (db_syncWrites db)];
      cbn [fst]; exact Hc. }
  assert (HH : Count db
               <= Count (fst (HasOrPut Sum32WithSeed datalog_sync db key))
               <= Count db + 1 /\
               (Count db <= MaxKeys ->
                Count (fst (HasOrPut Sum32WithSeed datalog_sync db key))
                <= MaxKeys)).
  { rewrite (HasOrPut_steps _ _ db key Hlen).
    destruct (Has Sum32WithSeed db key) as [[|] [e|]];
      try (cbn [fst]; lia).
    destruct (datalog_put (db_datalog db) key)
      as [[[segID offset] dl']|e]; [|cbn [fst]; lia].
    pose proof (DB_put_count Sum32WithSeed db dl' key segID offset) as Hc.
    cbv zeta in Hc |- *.
    destruct (snd (DB_put _ _ key)) as [e|]; [|destruct (db_syncWrites db)];
      cbn [fst]; exact Hc. }
  destruct HP as [HP1 HP2], HH as [HH1 HH2]. auto.
Qed.

Lemma X17_Count_bounds_witness :
  Count storeAB <= MaxKeys /\
  Count (fst (Put crcHash (fun _ => None) storeAB [x63])) <= MaxKeys /\
  Count (fst (HasOrPut crcHash (fun _ => None) storeAB [x63])) <= MaxKeys.
Proof.
  assert (Hc : Count storeAB <= MaxKeys) by (vm_compute; discriminate).
  split; [exact Hc|].
  exact (proj2 (proj2 (X17_Count_bounds crcHash (fun _ => None) storeAB
                         [x63])) Hc).
Defined.

(** X18: [HasOrPut] is idempotent. After a [HasOrPut] that returned without
    an error, whether it found the key or inserted it, a second [HasOrPut]
    of the same key returns true and leaves the store as it is. *)
Theorem X18_HasOrPut_twice (Sum32WithSeed : list byte -> Z -> Z)
    (datalog_sync : datalog -> option error) (db db' : DB)
    (key : list byte) (existed : bool) :
  HasOrPut Sum32WithSeed datalog_sync db key = (db', (existed, None)) ->
  HasOrPut Sum32WithSeed datalog_sync db' key = (db', (true, None)).
Proof.
  intros H. apply HasOrPut_present.
  destruct (Z.gtb_spec (len key) MaxKeyLength) as [Hgt|Hlen].
  { unfold HasOrPut in H.
    destruct (Z.gtb_spec (len key) MaxKeyLength); [discriminate H|lia]. }
  destruct (Has Sum32WithSeed db key) as [[|] [e|]] eqn:Hhas.
  - rewrite (HasOrPut_steps _ _ db key Hlen), Hhas in H. discriminate H.
  - pose proof H as H'.
    rewrite (HasOrPut_steps _ _ db key Hlen), Hhas in H'.
    injection H' as <- _. exact Hhas.
  - rewrite (HasOrPut_steps _ _ db key Hlen), Hhas in H. discriminate H.
  - exact (proj2 (proj2 (HasOrPut_absent _ _ _ _ _ _ Hlen Hhas H))).
Qed.

Lemma X18_HasOrPut_twice_witness :
  let db' := fst (HasOrPut crcHash (fun _ => None) storeAB [x63]) in
  HasOrPut crcHash (fun _ => None) storeAB [x63] = (db', (false, None)) /\
  HasOrPut crcHash (fun _ => None) db' [x63] = (db', (true, None)).
Proof.
  cbv zeta.
  assert (Hrun : HasOrPut crcHash (fun _ => None) storeAB [x63]
                 = (fst (HasOrPut crcHash (fun _ => None) storeAB [x63]),
                    (false, None)))
    by (vm_compute; reflexivity).
  split; [exact Hrun|].
  exact (X18_HasOrPut_twice crcHash (fun _ => None) storeAB _ [x63] false
           Hrun).
Defined.

(** X24: [Put] always writes. A [Put] that succeeds has appended the record
    of the key to the datalog, also when the store held the key already,
    and the index holds the slot of that new record: the key's hash, its
    length and the segment and offset the datalog returned. *)
Theorem X24_Put_appends_record (Sum32WithSeed : list byte -> Z -> Z)
    (datalog_sync : datalog -> option error) (db : DB) (key : list byte) :
  len key <= MaxKeyLength ->
  snd (Put Sum32WithSeed datalog_sync db key) = None ->
  let db' := fst (Put Sum32WithSeed datalog_sync db key) in
  exists segID offset : Z,
    datalog_put (db_datalog db) key = Ok (segID, offset, db_datalog db') /\
    In (newSlot Sum32WithSeed db key segID offset) (ix_slots (db_index db')).
Proof.
  intros Hlen. rewrite (Put_steps _ _ db key Hlen). cbv zeta.
  destruct (datalog_put (db_datalog db) key)
    as [[[segID offset] dl']|e]; [|discriminate].
  pose proof (DB_put_index Sum32WithSeed
                (set_metrics db {| Puts := Puts (db_metrics db) + 1 |})
                dl' key segID offset) as Hix.
  cbv zeta in Hix.
  change (newSlot Sum32WithSeed (set_metrics db _) key segID offset)
    with (newSlot Sum32WithSeed db key segID offset) in *.
  destruct Hix as (Hdl & _ & _ & _ & Hix).
  assert (Hin : snd (DB_put
                       (set_datalog
                          (set_metrics db
                             {| Puts := Puts (db_metrics db) + 1 |}) dl')
                       (newSlot Sum32WithSeed db key segID offset) key)
                = None ->
                In (newSlot Sum32WithSeed db key segID offset)
                  (ix_slots (db_index
                     (fst (DB_put
                             (set_datalog
                                (set_metrics db
                                   {| Puts := Puts (db_metrics db) + 1 |})
                                dl')
                             (newSlot Sum32WithSeed db key segID offset)
                             key))))).
  { intros Hok.
    destruct Hix as [[Hbad _]|[(_ & pre & post & old & _ & Hs' & _)
                             |(_ & Hs' & _)]].
    - contradiction.
    - rewrite Hs'. apply in_or_app. right. left. reflexivity.
    - rewrite Hs'. apply in_or_app. right. left. reflexivity. }
  destruct (snd (DB_put _ _ key)) as [e|] eqn:Hsnd; [discriminate|].
  intros _. exists segID, offset.
  destruct (db_syncWrites db); cbn [fst]; rewrite Hdl; auto.
Qed.

Lemma X24_Put_appends_record_witness :
  len [x61] <= MaxKeyLength /\
  Has crcHash storeAB [x61] = (true, None) /\
  exists segID offset : Z,
    datalog_put (db_datalog storeAB) [x61]
    = Ok (segID, offset,
          db_datalog (fst (Put crcHash (fun _ => None) storeAB [x61]))) /\
    In (newSlot crcHash storeAB [x61] segID offset)
      (ix_slots (db_index (fst (Put crcHash (fun _ => None) storeAB [x61])))).
Proof.
  assert (Hlen : len [x61] <= MaxKeyLength) by (vm_compute; discriminate).
  assert (Hok : snd (Put crcHash (fun _ => None) storeAB [x61]) = None)
    by (vm_compute; reflexivity).
  split; [exact Hlen|]. split; [vm_compute; reflexivity|].
  exact (X24_Put_appends_record crcHash (fun _ => None) storeAB [x61]
           Hlen Hok).
Defined.

(** ** Further properties of opening *)

(** Splits [Open] into its paths, one for each outcome of each call. *)
Ltac open_paths env :=
  repeat match goal with
  | |- context [backupNonsegmentFiles env ?x] =>
      destruct (backupNonsegmentFiles env x) as [[?|] ?] eqn:?; cbn [app]
  | |- context [openIndex env ?o ?x] =>
      destruct (openIndex env o x) as [[?|?] ?] eqn:?; cbn [app]
  | |- context [openDatalog env ?o ?x] =>
      destruct (openDatalog env o x) as [[?|?] ?] eqn:?; cbn [app]
  | |- context [index_count ?ix =? 0] =>
      destruct (index_count ix =? 0) eqn:?; cbn [app]
  | |- context [RandSeed env ?x] =>
      destruct (RandSeed env x) as [[?|?] ?] eqn:?; cbn [app]
  | |- context [readGobFile env ?x] =>
      destruct (readGobFile env x) as [[?|?] ?] eqn:?; cbn [app]
  | |- context [DB_recover env ?d ?x] =>
      destruct (DB_recover env d x) as [[? [?|]] ?] eqn:?; cbn [app]
  | |- context [(?a >? 0) || (?b >? 0)] =>
      destruct ((a >? 0) || (b >? 0)) eqn:?; cbn [app]
  | |- context [Unlock env ?l ?x] =>
      destruct (Unlock env l x) as [? ?] eqn:?; cbn [app]
  end.

(** X19: failures of [Open] before it holds the lock. When the directory
    cannot be created [Open] returns that error as it is and calls nothing
    else. When the lock file cannot be created [Open] returns the error
    wrapped with the message "creating lock file", [errLocked] taking the
    place of [os.ErrExist]; it calls nothing else: no file is backed up,
    opened or read, and no lock is released. *)
Theorem X19_Open_fails_before_lock {W : Type} (env : Collaborators W)
    (path : string) (opts : option Options) (w w0 : W) :
  (forall e : error,
     MkdirAll env path w = (Some e, w0) ->
     Open env path opts (w, [])
     = (Err e, (w0, [(CallMkdirAll, Some e)]))) /\
  (forall (e : error) (w1 : W),
     MkdirAll env path w = (None, w0) ->
     CreateLockFile env (copyWithDefaults env opts path) w0 = (Err e, w1) ->
     exists e' : error,
       Open env path opts (w, [])
       = (Err (Wrap e' "creating lock file"),
          (w1, [(CallMkdirAll, None); (CallCreateLockFile, Some e)])) /\
       (e = os_ErrExist -> e' = errLocked) /\
       (e <> os_ErrExist -> e' = e)).
Proof.
  split.
  - intros e Hmk. run_engine. rewrite Hmk. reflexivity.
  - intros e w1 Hmk Hlock. run_engine. rewrite Hmk. cbn [app].
    rewrite Hlock. cbn [app].
    eexists. split; [reflexivity|].
    split; [intros ->; reflexivity|].
    intros Hne. destruct e; try reflexivity. contradiction.
Qed.

Lemma X19_Open_fails_before_lock_witness :
  exists d : Disk,
    Open (disk_env trivialRecover) "db" None (diskInUse noFaults, [])
    = (Err (Wrap errLocked "creating lock file"),
       (d, [(CallMkdirAll, None); (CallCreateLockFile, Some os_ErrExist)]))
    /\ d_lock d = LockHeld.
Proof.
  destruct (proj2 (X19_Open_fails_before_lock (disk_env trivialRecover)
                     "db" None (diskInUse noFaults) _)
              os_ErrExist _ eq_refl eq_refl) as (e' & Hrun & He & _).
  rewrite (He eq_refl) in Hrun.
  eexists. split; [exact Hrun|reflexivity].
Defined.

(** X20: the recovery procedure runs exactly when the lock file existed
    already. If the lock was created anew, [Open] calls neither
    [backupNonsegmentFiles] nor [db.recover]. If an existing lock file was
    acquired, the backup is the first call after the lock is taken, before
    the index is opened, and an [Open] that returns a DB has called
    [db.recover] with success. *)
Theorem X20_recovery_iff_existing_lock {W : Type} (env : Collaborators W)
    (path : string) (opts : option Options) (w w0 w1 : W) (lock : LockFile)
    (acquiredExistingLock : bool) :
  MkdirAll env path w = (None, w0) ->
  CreateLockFile env (copyWithDefaults env opts path) w0
  = (Ok (lock, acquiredExistingLock), w1) ->
  let '(res, (_, calls)) := Open env path opts (w, []) in
  if acquiredExistingLock then
    (exists (o : option error) (rest : History),
       calls = [(CallMkdirAll, None); (CallCreateLockFile, None);
                (CallBackupNonsegmentFiles, o)] ++ rest) /\
    match res with
    | Ok _ => In (CallRecover, None) calls
    | Err _ => True
    end
  else Forall (fun c => isRecoveryCall c = false) calls.
Proof.
  intros Hmk Hlock. run_engine. rewrite Hmk. cbn [app]. rewrite Hlock.
  cbn [app].
  destruct acquiredExistingLock; open_paths env; cbn;
  lazymatch goal with
  | |- _ /\ _ =>
      split; [eexists; eexists; reflexivity
             |try exact I; repeat (first [left; reflexivity|right])]
  | |- Forall _ _ => repeat constructor
  end.
Qed.

Lemma X20_recovery_iff_existing_lock_witness :
  exists (db : DB) (d : Disk) (calls : History),
    Open (disk_env trivialRecover) "db" None (staleDisk, [])
    = (Ok db, (d, calls)) /\
    In (CallRecover, None) calls.
Proof.
  pose proof (X20_recovery_iff_existing_lock (disk_env trivialRecover)
                "db" None staleDisk _ _ _ _ eq_refl eq_refl) as H.
  destruct (Open (disk_env trivialRecover) "db" None (staleDisk, []))
    as [res [d calls]] eqn:Hopen.
  assert (Hres : exists db, res = Ok db).
  { vm_compute in Hopen. injection Hopen as <- _ _. eauto. }
  destruct Hres as [db ->].
  exists db, d, calls. split; [reflexivity|]. exact (proj2 H).
Defined.

(** What a successful [Open] did when the lock file was created anew. *)
Lemma Open_fresh_inv {W : Type} (env : Collaborators W)
    (path : string) (opts : option Options) (w w0 w1 : W) (lock : LockFile)
    (db : DB) (st : W * History) :
  MkdirAll env path w = (None, w0) ->
  CreateLockFile env (copyWithDefaults env opts path) w0
  = (Ok (lock, false), w1) ->
  Open env path opts (w, []) = (Ok db, st) ->
  let opts' := copyWithDefaults env opts path in
  exists (ix : index) (dl : datalog) (seed : Z) (w2 w3 w4 : W),
    openIndex env opts' w1 = (Ok ix, w2) /\
    openDatalog env opts' w2 = (Ok dl, w3) /\
    (if index_count ix =? 0
     then RandSeed env w3 = (Ok seed, w4)
     else exists m : dbMeta,
         readGobFile env w3 = (Ok m, w4) /\ seed = HashSeed m) /\
    db = {| db_opts := opts';
            db_index := ix;
            db_datalog := dl;
            db_lock := lock;
            db_hashSeed := seed;
            db_metrics := {| Puts := 0 |};
            db_syncWrites := BackgroundSyncInterval opts' =? -1;
            db_cancelBgWorker :=
              (BackgroundSyncInterval opts' >? 0)
              || (BackgroundCompactionInterval opts' >? 0) |}.
Proof.
  intros Hmk Hlock. run_engine. rewrite Hmk. cbn [app]. rewrite Hlock.
  cbn [app]. cbv zeta.
  open_paths env; cbn; intros [= <- <-] || intros [=];
    do 6 eexists;
    (split; [reflexivity || eassumption|]);
    (split; [reflexivity || eassumption|]);
    match goal with
    | H : (index_count _ =? 0) = _ |- _ => rewrite H
    end;
    (split; [solve [eauto]|]);
    cbn in *; first [reflexivity|congruence].
Qed.

(** X21: the DB that [Open] returns when the lock file was created anew.
    It carries the options with their defaults, the lock that was acquired,
    the index and the datalog that were opened, and zeroed metrics; writes
    are synchronous exactly when [BackgroundSyncInterval] is -1; the
    background worker is started exactly when one of the two intervals is
    positive; and the hash seed is the one [hash.RandSeed] delivered when
    the index is empty, the one read from the metadata file otherwise. *)
Theorem X21_Open_result {W : Type} (env : Collaborators W)
    (path : string) (opts : option Options) (w w0 w1 : W) (lock : LockFile)
    (db : DB) (st : W * History) :
  MkdirAll env path w = (None, w0) ->
  CreateLockFile env (copyWithDefaults env opts path) w0
  = (Ok (lock, false), w1) ->
  Open env path opts (w, []) = (Ok db, st) ->
  let opts' := copyWithDefaults env opts path in
  db_opts db = opts' /\ db_lock db = lock /\
  db_metrics db = {| Puts := 0 |} /\
  db_syncWrites db = (BackgroundSyncInterval opts' =? -1) /\
  db_cancelBgWorker db
  = ((BackgroundSyncInterval opts' >? 0)
     || (BackgroundCompactionInterval opts' >? 0)) /\
  exists w2 w3 w4 : W,
    openIndex env opts' w1 = (Ok (db_index db), w2) /\
    openDatalog env opts' w2 = (Ok (db_datalog db), w3) /\
    if index_count (db_index db) =? 0
    then RandSeed env w3 = (Ok (db_hashSeed db), w4)
    else exists m : dbMeta,
        readGobFile env w3 = (Ok m, w4) /\ db_hashSeed db = HashSeed m.
Proof.
  intros Hmk Hlock Hopen.
  destruct (Open_fresh_inv env path opts w w0 w1 lock db st Hmk Hlock Hopen)
    as (ix & dl & seed & w2 & w3 & w4 & Hix & Hdl & Hseed & ->).
  cbv zeta. cbn [db_opts db_lock db_metrics db_syncWrites db_cancelBgWorker
                 db_index db_datalog db_hashSeed].
  repeat (split; [reflexivity|]).
  exists w2, w3, w4. auto.
Qed.

Lemma X21_Open_result_witness :
  exists st : Disk * History,
    Open (disk_env trivialRecover) "db" None (freshDisk [7] noFaults, [])
    = (Ok emptyDB, st) /\
    db_syncWrites emptyDB = false /\ db_cancelBgWorker emptyDB = false.
Proof.
  assert (Hopen : Open (disk_env trivialRecover) "db" None
                    (freshDisk [7] noFaults, [])
                  = (Ok emptyDB,
                     snd (Open (disk_env trivialRecover) "db" None
                            (freshDisk [7] noFaults, []))))
    by (vm_compute; reflexivity).
  destruct (X21_Open_result (disk_env trivialRecover) "db" None
              (freshDisk [7] noFaults) _ _ _ emptyDB _ eq_refl eq_refl Hopen)
    as (_ & _ & _ & Hs & Hc & _).
  eexists. split; [exact Hopen|]. split; [exact Hs|exact Hc].
Defined.

(** X22: why [Open] fails once it holds the lock. [Open] returns a DB only
    if every call it made succeeded. When it returns an error, every call
    it made succeeded but the last one before the release of the lock, and
    the error is that call's error: as it is for the backup and for the
    random seed, wrapped with the message of the step for the index, the
    datalog, the metadata file and the recovery. *)
Theorem X22_Open_error_is_first_failure {W : Type} (env : Collaborators W)
    (path : string) (opts : option Options) (w w0 w1 : W) (lock : LockFile)
    (acquiredExistingLock : bool) :
  MkdirAll env path w = (None, w0) ->
  CreateLockFile env (copyWithDefaults env opts path) w0
  = (Ok (lock, acquiredExistingLock), w1) ->
  let '(res, (_, calls)) := Open env path opts (w, []) in
  match res with
  | Err err =>
      exists (init : History) (ev : Event) (e : error) (o : option error),
        calls = init ++ [(ev, Some e); (CallUnlock lock, o)] /\
        Forall (fun c => snd c = None) init /\
        err = openError ev e
  | Ok _ => Forall (fun c => snd c = None) calls
  end.
Proof.
  intros Hmk Hlock. run_engine. rewrite Hmk. cbn [app]. rewrite Hlock.
  cbn [app].
  destruct acquiredExistingLock; open_paths env; cbn;
  lazymatch goal with
  | |- exists _ _ _ _, ?calls = _ /\ _ =>
      let n := eval cbv in (length calls) in
      exists (take (n - 2) calls); do 3 eexists; cbn;
      split; [reflexivity|split; [repeat constructor|reflexivity]]
  | |- Forall _ _ => repeat constructor
  end.
Qed.

Lemma X22_Open_error_is_first_failure_witness :
  exists (d : Disk) (o : option error),
    Open (disk_env trivialRecover) "db" None
      (freshDisk [7] indexOpenFails, [])
    = (Err (Wrap (IOError "permission denied") "opening index"),
       (d, [(CallMkdirAll, None); (CallCreateLockFile, None);
            (CallOpenIndex, Some (IOError "permission denied"));
            (CallUnlock (mkLockFile "lock"), o)])).
Proof.
  pose proof (X22_Open_error_is_first_failure (disk_env trivialRecover)
                "db" None (freshDisk [7] indexOpenFails) _ _ _ _
                eq_refl eq_refl) as H.
  destruct (Open (disk_env trivialRecover) "db" None
              (freshDisk [7] indexOpenFails, [])) as [res [d calls]] eqn:Hopen.
  vm_compute in Hopen. injection Hopen as <- <- <-.
  eexists. eexists. reflexivity.
Defined.

(** ** The size of the store *)

Lemma int64_add (a b : Z) : int64 (int64 a + b) = int64 (a + b).
Proof.
  unfold int64.
  replace ((a + 2 ^ 63) mod 2 ^ 64 - 2 ^ 63 + b + 2 ^ 63)
    with ((a + 2 ^ 63) mod 2 ^ 64 + b) by lia.
  rewrite Z.add_mod_idemp_l by lia.
  replace (a + 2 ^ 63 + b) with (a + b + 2 ^ 63) by lia.
  reflexivity.
Qed.

Lemma int64_small (z : Z) : - 2 ^ 63 <= z < 2 ^ 63 -> int64 z = z.
Proof.
  intros H. unfold int64. rewrite Z.mod_small by lia. lia.
Qed.

Lemma fold_sizes (files : list FileInfo) :
  forall acc : Z,
  fold_left (fun size file => int64 (size + fi_size file)) files (int64 acc)
  = int64 (acc + totalSize files).
Proof.
  induction files as [|file files IH]; intros acc; cbn [fold_left totalSize
    foldr].
  { rewrite Z.add_0_r. reflexivity. }
  rewrite int64_add, IH. f_equal.
  fold (totalSize files). lia.
Qed.

Lemma totalSize_bounds (files : list FileInfo) :
  Forall (fun file => 0 <= fi_size file) files -> 0 <= totalSize files.
Proof.
  induction 1 as [|file files Hf _ IH]; cbn [totalSize foldr]; [lia|].
  fold (totalSize files). lia.
Qed.

(** X23: [FileSize] returns the error of [ReadDir] with size 0, and
    otherwise the sizes of all directory entries added up as an [int64]: the
    sum modulo 2^64, which is the exact sum whenever no size is negative
    and the sum is below 2^63, whatever the entries are (segments,
    metadata, the lock file or files the store did not write). The DB's
    own state plays no part. *)
Theorem X23_FileSize_adds_all_entries {W : Type}
    (ReadDir : list byte -> W -> result (list FileInfo) * W)
    (db : DB) (w : W) :
  match ReadDir (list_byte_of_string ".") w with
  | (Err e, w') => FileSize ReadDir db w = ((0, Some e), w')
  | (Ok files, w') =>
      FileSize ReadDir db w = ((int64 (totalSize files), None), w') /\
      (Forall (fun file => 0 <= fi_size file) files ->
       totalSize files < 2 ^ 63 ->
       FileSize ReadDir db w = ((totalSize files, None), w'))
  end.
Proof.
  unfold FileSize.
  destruct (ReadDir _ w) as [[files|e] w']; [|reflexivity].
  assert (Hsum : fold_left (fun size file => int64 (size + fi_size file))
                   files 0 = int64 (totalSize files)).
  { change 0 with (int64 0) at 1. rewrite fold_sizes. reflexivity. }
  cbv zeta. rewrite Hsum. split; [reflexivity|].
  intros Hpos Hlt. rewrite int64_small; [reflexivity|].
  pose proof (totalSize_bounds files Hpos). lia.
Qed.

Lemma X23_FileSize_adds_all_entries_witness :
  FileSize (fun _ (w : unit) => (Ok listing, w)) emptyDB tt
  = ((4288, None), tt).
Proof.
  pose proof (X23_FileSize_adds_all_entries
                (fun _ (w : unit) => (Ok listing, w)) emptyDB tt) as H.
  cbv beta iota in H. destruct H as [_ H].
  rewrite H; [reflexivity| |vm_compute; reflexivity].
  repeat constructor; vm_compute; discriminate.
Defined.
